(** * Baila Beat: beat detector and 8-count cycle tracker

  A shallow embedding of the two stateful classes of the repository,

  - [BeatCounter]    (src/utils/beatCounter.ts, the tempo-aware version), and
  - [AudioProcessor] (the detector with the predictive early trigger),

  together with the properties of the specification that concern them.

  Numbers.  TypeScript's [number] is modelled by the rationals [Q] for
  times, energies and tempi, by [Z] for the cycle position and cycle
  counter and by [nat] for the accepted-beat counter.  A double is a
  rational, so every value the code holds is a value of the model.  The
  detector's arithmetic is taken exactly: [1.3], [0.6], ... are the exact
  decimal fractions and its sums, quotients and differences are not
  rounded.  The subtractions whose result the tracker and the beat handler
  compare with a fixed bound are rounded as the code rounds them, by
  [fsub].  Every division of the source is either guarded
  against a zero divisor or, for [60000 / interval], sends a zero divisor
  to a value that fails the same range test ([Infinity] in the source,
  [0] in [Q]).

  Effects.  Both classes mutate their fields; every method is a function
  from the old object to the new one, paired with what the method returns
  or with the callbacks it fires, in order.  The three reads of
  [performance.now()] and the two reads of the analyser that one call of
  [processAudio] performs are the fields of the [Tick] it is given. *)

From Stdlib Require Import ZArith QArith Qminmax Qabs Qround Qpower.
From Stdlib Require Import List Sorted Bool Lia Lqa.
Import ListNotations.

Open Scope Q_scope.

(** ** Comparisons on [Q] as booleans *)

Definition Qltb (x y : Q) : bool := negb (Qle_bool y x).

(** ** Subtraction on doubles

    A [number] is an IEEE 754 double and [a - b] is the exact difference
    rounded to the nearest double, ties to the even significand.  Doubles
    are rationals; [roundDouble] is that rounding on [Q]. *)

(** The nearest integer, ties to the even one. *)
Definition roundHalfEven (y : Q) : Z :=
  let f := Qfloor y in
  match Qcompare (y - inject_Z f) (1 # 2) with
  | Lt => f
  | Gt => (f + 1)%Z
  | Eq => if Z.even f then f else (f + 1)%Z
  end.

(** [floor (log2 a)] for [0 < a]. *)
Definition binade (a : Q) : Z :=
  if Qle_bool 1 a then Z.log2 (Qfloor a)
  else (- Z.log2_up (Qceiling (/ a)))%Z.

(** The double nearest to [x], ties to the even significand: 53 bits in
    the binade of [x], and the grid of [2 ^ -1074] below [2 ^ -1022].
    Results beyond the largest double, which the code turns into
    [Infinity], are left as they are; they compare with a finite bound as
    [Infinity] does. *)
Definition roundDouble (x : Q) : Q :=
  if Qeq_bool x 0 then 0
  else
    let a := Qabs x in
    let e := Z.max (binade a - 52) (-1074) in
    let r := inject_Z (roundHalfEven (a / 2 ^ e)) * 2 ^ e in
    if Qle_bool 0 x then r else - r.

(** [a - b] on doubles. *)
Definition fsub (a b : Q) : Q := roundDouble (a - b).

(** ** The cycle tracker *)

(** The value returned by [updateBeat] and [getState]. *)
Module BeatCounterState.
Record t : Type := mk
  { currentBeat : Z;       (* 1-8 (beats 4 and 8 show as dash) *)
    cycle : Z;
    isDownbeat : bool;
    isDashBeat : bool }.
End BeatCounterState.

Module BeatCounter.

Record t : Type := mk
  { currentBeat : Z;             (* 0-7 internally, displayed as 1-8 *)
    cycle : Z;
    lastBeatTime : Q;
    cycleStartTime : Q;
    currentBPM : Q;
    expectedBeatInterval : Q }.

Definition maxInterval : Q := 3000.

(** A freshly constructed tracker. *)
Definition init : t := mk 0 0 0 0 0 0.

(** [if (bpm && bpm > 0)]: an absent, zero or negative hint is ignored.
    The inner test on the change of tempo has an empty body. *)
Definition updateBPM (bpm : option Q) (c : t) : t :=
  match bpm with
  | Some b =>
      if Qltb 0 b
      then mk (currentBeat c) (cycle c) (lastBeatTime c) (cycleStartTime c)
              b (60000 / b)
      else c
  | None => c
  end.

(** [this.lastBeatTime > 0 && now - this.lastBeatTime > this.maxInterval],
    the difference being that of two doubles. *)
Definition timedOut (now : Q) (c : t) : bool :=
  Qltb 0 (lastBeatTime c) && Qltb maxInterval (fsub now (lastBeatTime c)).

Definition forceReset (c : t) : t :=
  mk 0 0 (lastBeatTime c) 0 (currentBPM c) (expectedBeatInterval c).

Definition timeoutReset (now : Q) (c : t) : t :=
  if timedOut now c then forceReset c else c.

(** The downbeat / plain-beat transition, followed by
    [this.lastBeatTime = now].  The operator [%] is the remainder that
    takes the sign of the dividend, [Z.rem]. *)
Definition advance (isDownbeat : bool) (now : Q) (c : t) : t :=
  if isDownbeat
  then mk 0 (cycle c + 1) now now (currentBPM c) (expectedBeatInterval c)
  else mk (Z.rem (currentBeat c + 1) 8) (cycle c) now (cycleStartTime c)
          (currentBPM c) (expectedBeatInterval c).

Definition isDash (displayBeat : Z) : bool :=
  (displayBeat =? 4)%Z || (displayBeat =? 8)%Z.

Definition updateBeat (isDownbeat : bool) (timestamp : Q) (bpm : option Q)
           (c : t) : BeatCounterState.t * t :=
  let now := timestamp in
  let c1 := updateBPM bpm c in
  let c2 := timeoutReset now c1 in
  let c3 := advance isDownbeat now c2 in
  let displayBeat := (currentBeat c3 + 1)%Z in
  let isDashBeat := isDash displayBeat in
  (BeatCounterState.mk displayBeat (cycle c3)
     (isDownbeat && negb isDashBeat) isDashBeat,
   c3).

Definition getExpectedNextBeatTime (c : t) : option Q :=
  if Qeq_bool (currentBPM c) 0 || Qeq_bool (expectedBeatInterval c) 0
  then None
  else if Qeq_bool (cycleStartTime c) 0
       then Some (lastBeatTime c + expectedBeatInterval c)
       else Some (cycleStartTime c
                  + (inject_Z (currentBeat c) + 1) * expectedBeatInterval c).

Definition reset (c : t) : t := mk 0 0 0 0 0 0.

Definition getState (c : t) : BeatCounterState.t :=
  let displayBeat := (currentBeat c + 1)%Z in
  let isDashBeat := isDash displayBeat in
  BeatCounterState.mk displayBeat (cycle c) false isDashBeat.

(** The three public operations, and a session of them.  [run] returns
    the values reported along the way, oldest first; [reset] reports
    nothing. *)
Inductive Op : Type :=
| OpUpdateBeat (isDownbeat : bool) (timestamp : Q) (bpm : option Q)
| OpGetState
| OpReset.

Definition step (c : t) (o : Op) : list BeatCounterState.t * t :=
  match o with
  | OpUpdateBeat d ts bpm => let (r, c') := updateBeat d ts bpm c in ([r], c')
  | OpGetState => ([getState c], c)
  | OpReset => ([], reset c)
  end.

Fixpoint run (c : t) (ops : list Op) : list BeatCounterState.t * t :=
  match ops with
  | [] => ([], c)
  | o :: ops' =>
      let (r1, c1) := step c o in
      let (r2, c2) := run c1 ops' in
      (r1 ++ r2, c2)
  end.

End BeatCounter.

(** ** The beat detector *)

(** Sum and mean as the source computes them:
    [l.reduce((a, b) => a + b, 0) / l.length]. *)
Definition sum (l : list Q) : Q := fold_left Qplus l 0.

Definition lengthQ {A : Type} (l : list A) : Q := inject_Z (Z.of_nat (length l)).

Definition average (l : list Q) : Q := sum l / lengthQ l.

(** [a.push(x); if (a.length > cap) a.shift()] *)
Definition pushCapped (cap : nat) (x : Q) (l : list Q) : list Q :=
  let l' := l ++ [x] in
  if (cap <? length l')%nat then tl l' else l'.

(** [intervals.push(h[i] - h[i - 1])] for [i] from [1]. *)
Fixpoint intervals (h : list Q) : list Q :=
  match h with
  | a :: (b :: _) as h' => (b - a) :: intervals h'
  | _ => []
  end.

(** [[...l].sort((a, b) => a - b)]: ascending numeric order. *)
Fixpoint insertSorted (x : Q) (l : list Q) : list Q :=
  match l with
  | [] => [x]
  | y :: l' => if Qle_bool x y then x :: l else y :: insertSorted x l'
  end.

Fixpoint sortNum (l : list Q) : list Q :=
  match l with
  | [] => []
  | x :: l' => insertSorted x (sortNum l')
  end.

(** [l.slice(start, end)] for [0 <= start]. *)
Definition slice {A : Type} (start stop : nat) (l : list A) : list A :=
  firstn (stop - start) (skipn start l).

(** [Math.round]: the nearest integer, halves upwards. *)
Definition round (x : Q) : Z := Qfloor (x + (1 # 2)).

(** [x > a + m * Math.sqrt(v)] for [0 <= m] and [0 <= v], without leaving
    the rationals: the difference [x - a] is positive and its square
    exceeds [m * m * v].  [exceeds_sqrt_spec] below relates the two. *)
Definition exceedsSqrt (x a m v : Q) : bool :=
  Qltb a x && Qltb (m * m * v) ((x - a) * (x - a)).

Module BeatDetectionResult.
Record t : Type := mk
  { beat : bool;
    downbeat : bool;
    timestamp : Q;
    energy : Q }.
End BeatDetectionResult.

(** What [processAudio] hands to [AudioProcessorCallbacks]. *)
Inductive Callback : Type :=
| OnBeat (r : BeatDetectionResult.t)
| OnBPMUpdate (bpm : Z).

(** The environment of one call of [processAudio], in the order in which
    the call reads it: the clock on entry, the weighted energy of the
    frame read by the predictive check, the weighted energy of the frame
    read by the main path, the clock inside [detectBeat], and the clock
    that stamps a main-path beat.  The weighted energy is the mean of the
    frequency bins with weights 3, 1.5 and 0.5, computed by
    [processAudio] from the analyser's bytes; the model takes its value. *)
Module Tick.
Record t : Type := mk
  { now : Q;
    predEnergy : Q;
    energy : Q;
    detectNow : Q;
    stampNow : Q }.
End Tick.

Module AudioProcessor.

Record t : Type := mk
  { energyHistory : list Q;
    beatHistory : list Q;
    previousEnergy : Q;
    bpmHistory : list Q;
    currentStableBPM : Q;
    lastBeatTime : Q;
    beatCount : nat;
    predictedNextBeatTime : Q;
    lastPredictedBeatTime : Q }.

Definition historySize : nat := 43.
Definition energyThresholdMultiplier : Q := 1.3.
Definition downbeatInterval : nat := 8.
Definition minEnergyThreshold : Q := 1.5.
Definition onsetThreshold : Q := 0.12.
Definition bpmHistorySize : nat := 20.
Definition predictionOffset : Q := 250.

(** The fields as the declarations initialise them and as [stop] leaves
    them. *)
Definition init : t := mk [] [] 0 [] 0 0 0 0 0.

Definition set_previousEnergy (e : Q) (s : t) : t :=
  mk (energyHistory s) (beatHistory s) e (bpmHistory s) (currentStableBPM s)
     (lastBeatTime s) (beatCount s) (predictedNextBeatTime s)
     (lastPredictedBeatTime s).

Definition set_energyHistory (h : list Q) (s : t) : t :=
  mk h (beatHistory s) (previousEnergy s) (bpmHistory s) (currentStableBPM s)
     (lastBeatTime s) (beatCount s) (predictedNextBeatTime s)
     (lastPredictedBeatTime s).

Definition set_beatHistory (h : list Q) (s : t) : t :=
  mk (energyHistory s) h (previousEnergy s) (bpmHistory s) (currentStableBPM s)
     (lastBeatTime s) (beatCount s) (predictedNextBeatTime s)
     (lastPredictedBeatTime s).

Definition set_bpmHistory (h : list Q) (s : t) : t :=
  mk (energyHistory s) (beatHistory s) (previousEnergy s) h (currentStableBPM s)
     (lastBeatTime s) (beatCount s) (predictedNextBeatTime s)
     (lastPredictedBeatTime s).

Definition set_currentStableBPM (b : Q) (s : t) : t :=
  mk (energyHistory s) (beatHistory s) (previousEnergy s) (bpmHistory s) b
     (lastBeatTime s) (beatCount s) (predictedNextBeatTime s)
     (lastPredictedBeatTime s).

Definition set_predictedNextBeatTime (p : Q) (s : t) : t :=
  mk (energyHistory s) (beatHistory s) (previousEnergy s) (bpmHistory s)
     (currentStableBPM s) (lastBeatTime s) (beatCount s) p
     (lastPredictedBeatTime s).

(** [this.beatCount % this.downbeatInterval === 0] *)
Definition isDownbeat (s : t) : bool :=
  (beatCount s mod downbeatInterval =? 0)%nat.

(** The adaptive minimum distance to the last entry of Beat History. *)
Definition minInterval (h : list Q) : Q :=
  if (2 <=? length h)%nat
  then Qmax 150 (Qmin 300 (average (intervals h) * 0.6))
  else 200.

(** The accept test of [detectBeat], before the debounce. *)
Definition energyIncrease (s : t) (currentEnergy : Q) : Q :=
  if Qltb 0 (previousEnergy s)
  then (currentEnergy - previousEnergy s) / previousEnergy s
  else 0.

Definition variance (h : list Q) (avgEnergy : Q) : Q :=
  fold_left (fun acc e => acc + (e - avgEnergy) * (e - avgEnergy)) h 0
  / lengthQ h.

Definition beatCandidate (s : t) (currentEnergy avgEnergy : Q) : bool :=
  let hasOnset := Qle_bool onsetThreshold (energyIncrease s currentEnergy) in
  let relativeThreshold := 1.08 in
  let exceedsThreshold :=
    exceedsSqrt currentEnergy avgEnergy energyThresholdMultiplier
                (variance (energyHistory s) avgEnergy) in
  let exceedsRelative := Qltb (avgEnergy * relativeThreshold) currentEnergy in
  let hasSignificantEnergy := Qltb minEnergyThreshold currentEnergy in
  hasSignificantEnergy && exceedsThreshold && (hasOnset || exceedsRelative).

(** [detectBeat(currentEnergy)], reading the clock as [now]. *)
Definition detectBeat (currentEnergy now : Q) (s : t) : bool * t :=
  if (length (energyHistory s) <? historySize)%nat
  then (false, set_previousEnergy currentEnergy s)
  else
    let avgEnergy := average (energyHistory s) in
    if Qltb avgEnergy minEnergyThreshold
    then (false, set_previousEnergy currentEnergy s)
    else
      let beatDetected := beatCandidate s currentEnergy avgEnergy in
      if beatDetected && (0 <? length (beatHistory s))%nat
         && Qltb (now - last (beatHistory s) 0) (minInterval (beatHistory s))
      then (false, set_previousEnergy currentEnergy s)
      else
        let s1 :=
          if beatDetected
          then set_beatHistory (pushCapped 15 now (beatHistory s)) s
          else s in
        (beatDetected, set_previousEnergy currentEnergy s1).

(** [updateBeatPrediction(currentBeatTime)] *)
Definition updateBeatPrediction (currentBeatTime : Q) (s : t) : t :=
  if (2 <=? length (beatHistory s))%nat
  then set_predictedNextBeatTime
         (currentBeatTime + average (intervals (beatHistory s))) s
  else if Qltb 0 (currentStableBPM s)
       then set_predictedNextBeatTime
              (currentBeatTime + 60000 / currentStableBPM s) s
       else set_predictedNextBeatTime 0 s.

(** [calculateStableBPM()], as a function of [this.bpmHistory]. *)
Definition middleMean (bpmHistory : list Q) : Q :=
  if (length bpmHistory =? 0)%nat then 0
  else
    let sorted := sortNum bpmHistory in
    if (5 <=? length sorted)%nat
    then
      let mid := (length sorted / 2)%nat in
      let start := Nat.max 0 (mid - 2) in
      let stop := Nat.min (length sorted) (mid + 3) in
      let middleValues := slice start stop sorted in
      average middleValues
    else average sorted.

Definition calculateStableBPM (s : t) : Q := middleMean (bpmHistory s).

(** The predictive early trigger at the head of [processAudio]. *)
Definition acceptPredicted (now : Q) (s : t) : t :=
  mk (energyHistory s) (beatHistory s) (previousEnergy s) (bpmHistory s)
     (currentStableBPM s) (now + predictionOffset) (S (beatCount s))
     (predictedNextBeatTime s) now.

Definition predictiveTrigger (k : Tick.t) (s : t) : list Callback * t :=
  let now := Tick.now k in
  if Qltb 0 (predictedNextBeatTime s)
     && Qle_bool (predictedNextBeatTime s - predictionOffset) now
  then
    let energy := Tick.predEnergy k in
    if (historySize <=? length (energyHistory s))%nat
    then
      let avgEnergy := average (energyHistory s) in
      if Qltb (avgEnergy * 1.05) energy && Qltb minEnergyThreshold energy
      then
        if Qltb 100 (now - lastPredictedBeatTime s)
        then
          let timestamp := now + predictionOffset in
          let isDownbeat := isDownbeat s in
          let s1 := acceptPredicted now s in
          let s2 := updateBeatPrediction timestamp s1 in
          ([OnBeat (BeatDetectionResult.mk true isDownbeat timestamp energy)],
           s2)
        else ([], s)
      else ([], s)
    else ([], s)
  else ([], s).

(** The tempo block of the main path: outlier filter and admission. *)
Definition admitBPM (bpm : Q) (s : t) : t :=
  let hasEnoughSamples := (5 <=? length (bpmHistory s))%nat in
  let shouldRejectOutlier := hasEnoughSamples && Qltb 0 (currentStableBPM s) in
  if shouldRejectOutlier
  then
    let maxDeviation := currentStableBPM s * 0.4 in
    if Qltb maxDeviation (Qabs (bpm - currentStableBPM s))
    then s
    else set_bpmHistory (pushCapped bpmHistorySize bpm (bpmHistory s)) s
  else set_bpmHistory (pushCapped bpmHistorySize bpm (bpmHistory s)) s.

(** The smoothing step on a candidate tempo. *)
Definition blend (stable candidate : Q) : Q :=
  if Qeq_bool stable 0 then candidate else stable * 0.8 + candidate * 0.2.

Definition blendStableBPM (s : t) : list Callback * t :=
  if (3 <=? length (bpmHistory s))%nat
  then
    let stableBPM := calculateStableBPM s in
    let s' := set_currentStableBPM (blend (currentStableBPM s) stableBPM) s in
    ([OnBPMUpdate (round (currentStableBPM s'))], s')
  else ([], s).

Definition updateTempo (timestamp : Q) (s : t) : list Callback * t :=
  if Qltb 0 (lastBeatTime s)
  then
    let interval := timestamp - lastBeatTime s in
    let bpm := 60000 / interval in
    if Qle_bool 60 bpm && Qle_bool bpm 200
    then blendStableBPM (admitBPM bpm s)
    else ([], s)
  else ([], s).

Definition acceptDetected (timestamp : Q) (s : t) : t :=
  mk (energyHistory s) (beatHistory s) (previousEnergy s) (bpmHistory s)
     (currentStableBPM s) timestamp (S (beatCount s))
     (predictedNextBeatTime s) (lastPredictedBeatTime s).

(** The main path of [processAudio]: record the energy, detect, and
    unless the beat falls within 150 ms of the last predictive trigger,
    estimate the tempo and deliver the beat. *)
Definition recordEnergy (energy : Q) (s : t) : t :=
  set_energyHistory (pushCapped historySize energy (energyHistory s)) s.

Definition mainPath (k : Tick.t) (s : t) : list Callback * t :=
  let energy := Tick.energy k in
  let s1 := recordEnergy energy s in
  if (historySize <=? length (energyHistory s1))%nat
  then
    let (beatDetected, s2) := detectBeat energy (Tick.detectNow k) s1 in
    if beatDetected
    then
      let timestamp := Tick.stampNow k in
      if Qltb (timestamp - lastPredictedBeatTime s2) 150
      then ([], s2)
      else
        let isDownbeat := isDownbeat s2 in
        let (cbs, s3) := updateTempo timestamp s2 in
        let s4 := acceptDetected timestamp s3 in
        let s5 := updateBeatPrediction timestamp s4 in
        (cbs ++ [OnBeat (BeatDetectionResult.mk true isDownbeat timestamp
                           energy)],
         s5)
    else ([], s2)
  else ([], s1).

(** One call of [processAudio]: the callbacks it fires, in order, and the
    object it leaves. *)
Definition processAudio (k : Tick.t) (s : t) : list Callback * t :=
  let (cbs1, s1) := predictiveTrigger k s in
  let (cbs2, s2) := mainPath k s1 in
  (cbs1 ++ cbs2, s2).

(** The animation-frame loop over a sequence of ticks. *)
Fixpoint run (s : t) (ks : list Tick.t) : list Callback * t :=
  match ks with
  | [] => ([], s)
  | k :: ks' =>
      let (cbs1, s1) := processAudio k s in
      let (cbs2, s2) := run s1 ks' in
      (cbs1 ++ cbs2, s2)
  end.

(** The Beat Events among the callbacks. *)
Fixpoint beats (cbs : list Callback) : list BeatDetectionResult.t :=
  match cbs with
  | [] => []
  | OnBeat r :: cbs' => r :: beats cbs'
  | OnBPMUpdate _ :: cbs' => beats cbs'
  end.

(** The states a detector can be in: those a run from [init] ends in. *)
Definition reachable (s : t) : Prop := exists ks, snd (run init ks) = s.

End AudioProcessor.

(** ** Predicates of the specification *)

(** A reported Cycle State is well formed: the display position is one of
    1..8, the dash flag marks exactly positions 4 and 8, and a downbeat is
    claimed at position 1 only. *)
Definition cycleStateOk (r : BeatCounterState.t) : Prop :=
  (1 <= BeatCounterState.currentBeat r <= 8)%Z
  /\ (BeatCounterState.isDashBeat r = true
      <-> BeatCounterState.currentBeat r = 4%Z
          \/ BeatCounterState.currentBeat r = 8%Z)
  /\ (BeatCounterState.isDownbeat r = true
      -> BeatCounterState.currentBeat r = 1%Z).

(** The internal position of the tracker is one of 0..7. *)
Definition positionInRange (c : BeatCounter.t) : Prop :=
  (0 <= BeatCounter.currentBeat c < 8)%Z.

(** The timeout rule read with "a beat has been processed" as a fact about
    the history of calls: whenever a beat stamped [ts0] was the last one
    processed, a beat more than 3000 ms later is applied to the zeroed
    position and cycle counter. *)
Definition timeoutAfterAnyBeat : Prop :=
  forall (c : BeatCounter.t) (d0 : bool) (ts0 : Q) (bpm0 : option Q)
         (d : bool) (ts : Q) (bpm : option Q),
    let c1 := snd (BeatCounter.updateBeat d0 ts0 bpm0 c) in
    3000 < ts - ts0 ->
    snd (BeatCounter.updateBeat d ts bpm c1)
    = BeatCounter.advance d ts
        (BeatCounter.forceReset (BeatCounter.updateBPM bpm c1)).

(** The conditions under which the predictive trigger fires. *)
Definition predictiveFires (k : Tick.t) (s : AudioProcessor.t) : Prop :=
  0 < AudioProcessor.predictedNextBeatTime s
  /\ AudioProcessor.predictedNextBeatTime s - AudioProcessor.predictionOffset
     <= Tick.now k
  /\ (AudioProcessor.historySize
      <= length (AudioProcessor.energyHistory s))%nat
  /\ average (AudioProcessor.energyHistory s) * 1.05 < Tick.predEnergy k
  /\ AudioProcessor.minEnergyThreshold < Tick.predEnergy k
  /\ 100 < Tick.now k - AudioProcessor.lastPredictedBeatTime s.

(** The Beat Events [bs], delivered when the accepted-beat counter stood
    at [n], carry the downbeat flag at every eighth count. *)
Definition downbeatsFrom (n : nat) (bs : list BeatDetectionResult.t) : Prop :=
  forall i b,
    nth_error bs i = Some b ->
    BeatDetectionResult.downbeat b = ((n + i) mod 8 =? 0)%nat.

(** A part of a tick counts its beats: the counter grows by the number of
    Beat Events delivered, and each carries the flag of its own count. *)
Definition counts (s : AudioProcessor.t)
           (r : list Callback * AudioProcessor.t) : Prop :=
  AudioProcessor.beatCount (snd r)
  = (AudioProcessor.beatCount s
     + length (AudioProcessor.beats (fst r)))%nat
  /\ downbeatsFrom (AudioProcessor.beatCount s)
       (AudioProcessor.beats (fst r)).

(** A tick whose two energy readings are at or below the minimum floor. *)
Definition quietTick (k : Tick.t) : Prop :=
  Tick.predEnergy k <= AudioProcessor.minEnergyThreshold
  /\ Tick.energy k <= AudioProcessor.minEnergyThreshold.



(** The detector is modelled with exact arithmetic where the code
    computes on doubles.  Bounds that the code enforces by comparing a
    computed difference of clock reads with a computed interval are stated
    with this tolerance, in ms, so that they do not depend on how those
    two computations round. *)
Definition roundingTolerance : Q := 0.001.



(** ** A session used in the examples

    Every tick reads one clock value; the window fills with 43 ticks of
    energy 2, 20 ms apart from 1000 ms on.  [loud] ticks carry a spike on
    the main path, [early] ticks on the predictive check. *)
Module Scenario.

Definition tick (t : Z) (predEnergy energy : Q) : Tick.t :=
  Tick.mk (inject_Z t) predEnergy energy (inject_Z t) (inject_Z t).

Definition quiet (t : Z) : Tick.t := tick t 2 2.
Definition loud (t : Z) : Tick.t := tick t 2 10.
Definition early (t : Z) : Tick.t := tick t 10 2.

Definition warmup : list Tick.t :=
  map (fun i => quiet (1000 + 20 * Z.of_nat i)) (seq 0 43).

(** Two main-path beats, at 2000 and 2500 ms; the next is predicted for
    3000 ms. *)
Definition twoBeats : list Tick.t := warmup ++ [loud 2000; loud 2500].

(** The predictive trigger fires at 2750 ms and stamps its beat 3000. *)
Definition predicted : list Tick.t := twoBeats ++ [early 2750].

(** Five main-path beats half a second apart: 120 beats per minute. *)
Definition steady : list Tick.t :=
  warmup ++ [loud 2000; loud 2500; loud 3000; loud 3500; loud 4000].

(** 43 ticks at the floor itself. *)
Definition silence : list Tick.t :=
  map (fun i => tick (1000 + 20 * Z.of_nat i) 1.5 1.5) (seq 0 43).

Definition afterTwoBeats : AudioProcessor.t :=
  snd (AudioProcessor.run AudioProcessor.init twoBeats).

Definition afterPrediction : AudioProcessor.t :=
  snd (AudioProcessor.run AudioProcessor.init predicted).

Definition afterSteady : AudioProcessor.t :=
  snd (AudioProcessor.run AudioProcessor.init steady).

End Scenario.

(** ** Predicates used for the stabilized tempo *)

(** How many entries of [l] are at most [v]. *)
Fixpoint countLe (v : Q) (l : list Q) : nat :=
  match l with
  | [] => 0
  | x :: l' => (if Qle_bool x v then 1 else 0) + countLe v l'
  end.

Definition inTempoRange (x : Q) : Prop := 60 <= x /\ x <= 200.

(** The stabilized tempo [c] has kept up with the candidate [m]: three
    linear bounds, each the previous one pushed through one smoothing
    step in which the candidate rises by 28. *)
Definition keptUp (c m : Q) : Prop :=
  m + 28 <= 2 * c
  /\ (3 # 8) * m + 28 <= c
  /\ (7 # 32) * m + (329 # 8) <= c.

(** The invariant that ties BPM History [h] to the stabilized tempo [c]. *)
Definition tempoInv (h : list Q) (c : Q) : Prop :=
  Forall inTempoRange h
  /\ (length h <= 20)%nat
  /\ ((length h < 3)%nat -> c == 0)
  /\ (length h = 3%nat -> c == AudioProcessor.middleMean h)
  /\ ((4 <= length h)%nat ->
      inTempoRange c /\ keptUp c (AudioProcessor.middleMean h)).

(** What one pass through the tempo block does to the stabilized tempo. *)
Definition tempoStepOk (s s' : AudioProcessor.t) : Prop :=
  tempoInv (AudioProcessor.bpmHistory s') (AudioProcessor.currentStableBPM s')
  /\ (~ AudioProcessor.currentStableBPM s == 0 ->
      Qabs (AudioProcessor.currentStableBPM s'
            - AudioProcessor.currentStableBPM s)
      <= 0.2 * AudioProcessor.currentStableBPM s)
  /\ (AudioProcessor.currentStableBPM s' = AudioProcessor.currentStableBPM s
      \/ AudioProcessor.currentStableBPM s'
         = AudioProcessor.blend (AudioProcessor.currentStableBPM s)
             (AudioProcessor.calculateStableBPM s')).

(** Consecutive entries of Beat History lie at least 150 ms apart. *)
Definition gapsOk (h : list Q) : Prop :=
  Forall (fun d => 150 <= d) (intervals h).

(** ** The rest of the detector and of the tracker

    The code around the parts modelled above: the weighted energy that
    [processAudio] computes from a frame of the analyser, the public
    query [getBPM], the earlier version of the tracker kept in
    beatCounter.ts, and the application's beat handler as far as it
    touches the tracker. *)

Module Analyser.

(** The weight of bin [i], [binWidth] Hz wide: 3 within 40..120 Hz, 1.5
    above that up to 200 Hz, 0.5 elsewhere. *)
Definition binWeight (binWidth : Q) (i : nat) : Q :=
  let freq := inject_Z (Z.of_nat i) * binWidth in
  if Qle_bool 40 freq && Qle_bool freq 120 then 3
  else if Qle_bool 120 freq && Qle_bool freq 200 then 1.5
  else 0.5.

(** The loop over the bins from index [i] on, carrying
    [(energy, totalWeight)]. *)
Fixpoint accumulate (binWidth : Q) (i : nat) (dataArray : list Z)
         (acc : Q * Q) : Q * Q :=
  match dataArray with
  | [] => acc
  | d :: rest =>
      let weight := binWeight binWidth i in
      accumulate binWidth (S i) rest
        (fst acc + inject_Z d * weight, snd acc + weight)
  end.

(** The energy of one frame of [getByteFrequencyData].  An empty frame
    gives [0 / 0], [NaN] in the source and [0] here; the facts below
    are about frames with at least one bin. *)
Definition weightedEnergy (sampleRate : Q) (dataArray : list Z) : Q :=
  let bufferLength := lengthQ dataArray in
  let nyquist := sampleRate / 2 in
  let binWidth := nyquist / bufferLength in
  let (energy, totalWeight) := accumulate binWidth 0 dataArray (0, 0) in
  energy / totalWeight.

(** What one call of [processAudio] reads, with the two frames in place
    of their energies. *)
Record Frame : Type := mkFrame
  { now : Q;
    predData : list Z;
    data : list Z;
    detectNow : Q;
    stampNow : Q }.

Definition toTick (sampleRate : Q) (f : Frame) : Tick.t :=
  Tick.mk (now f) (weightedEnergy sampleRate (predData f))
          (weightedEnergy sampleRate (data f)) (detectNow f) (stampNow f).

(** [getBPM()] *)
Definition getBPM (s : AudioProcessor.t) : Z :=
  round (AudioProcessor.currentStableBPM s).

(** The tempo notifications among the callbacks. *)
Fixpoint bpmUpdates (cbs : list Callback) : list Z :=
  match cbs with
  | [] => []
  | OnBeat _ :: cbs' => bpmUpdates cbs'
  | OnBPMUpdate z :: cbs' => z :: bpmUpdates cbs'
  end.

End Analyser.

(** The earlier tracker of beatCounter.ts: three fields, no tempo hint;
    the position is advanced first and set back to 0 on a downbeat. *)
Module BeatCounterLegacy.

Record t : Type := mk
  { currentBeat : Z;
    cycle : Z;
    lastBeatTime : Q }.

Definition maxInterval : Q := 3000.

Definition init : t := mk 0 0 0.

Definition updateBeat (isDownbeat : bool) (timestamp : Q) (c : t)
  : BeatCounterState.t * t :=
  let now := timestamp in
  let c1 :=
    if Qltb 0 (lastBeatTime c)
       && Qltb maxInterval (fsub now (lastBeatTime c))
    then mk 0 0 (lastBeatTime c)
    else c in
  let c2 := mk (Z.rem (currentBeat c1 + 1) 8) (cycle c1) (lastBeatTime c1) in
  let c3 := if isDownbeat then mk 0 (cycle c2 + 1) (lastBeatTime c2) else c2 in
  let c4 := mk (currentBeat c3) (cycle c3) now in
  let displayBeat := (currentBeat c4 + 1)%Z in
  let isDashBeat := BeatCounter.isDash displayBeat in
  (BeatCounterState.mk displayBeat (cycle c4)
     (isDownbeat && negb isDashBeat) isDashBeat,
   c4).

Definition reset (c : t) : t := mk 0 0 0.

Definition getState (c : t) : BeatCounterState.t :=
  let displayBeat := (currentBeat c + 1)%Z in
  let isDashBeat := BeatCounter.isDash displayBeat in
  BeatCounterState.mk displayBeat (cycle c) false isDashBeat.

(** A session; a tempo hint passed as third argument is ignored, the
    method takes two. *)
Definition step (c : t) (o : BeatCounter.Op) : list BeatCounterState.t * t :=
  match o with
  | BeatCounter.OpUpdateBeat d ts _ =>
      let (r, c') := updateBeat d ts c in ([r], c')
  | BeatCounter.OpGetState => ([getState c], c)
  | BeatCounter.OpReset => ([], reset c)
  end.

Fixpoint run (c : t) (ops : list BeatCounter.Op)
  : list BeatCounterState.t * t :=
  match ops with
  | [] => ([], c)
  | o :: ops' =>
      let (r1, c1) := step c o in
      let (r2, c2) := run c1 ops' in
      (r1 ++ r2, c2)
  end.

End BeatCounterLegacy.

(** The application's [handleBeat], as far as it touches its two refs
    [lastBeatTimeRef] and [beatCounterRef]: a beat whose callback runs
    less than 100 ms after the last handled one is dropped; otherwise the
    tracker is updated with the beat's downbeat flag and timestamp, no
    tempo hint, and the Cycle State goes to the display.  The timers, the
    display state and the vibration are not part of the model. *)
Module App.

Record Refs : Type := mkRefs
  { lastBeatTimeRef : Q;
    beatCounterRef : BeatCounter.t }.

Definition init : Refs := mkRefs 0 BeatCounter.init.

Definition handleBeat (now : Q) (result : BeatDetectionResult.t) (r : Refs)
  : option BeatCounterState.t * Refs :=
  if Qltb (fsub now (lastBeatTimeRef r)) 100
  then (None, r)
  else
    let (counterState, c) :=
      BeatCounter.updateBeat (BeatDetectionResult.downbeat result)
        (BeatDetectionResult.timestamp result) None (beatCounterRef r) in
    (Some counterState, mkRefs now c).

(** The handler over the beats of a session, each with the clock its
    callback reads. *)
Fixpoint handleAll (r : Refs) (bs : list (Q * BeatDetectionResult.t))
  : list (option BeatCounterState.t) * Refs :=
  match bs with
  | [] => ([], r)
  | (now, b) :: bs' =>
      let (o, r1) := handleBeat now b r in
      let (os, r2) := handleAll r1 bs' in
      (o :: os, r2)
  end.

End App.

(** *** Predicates for these parts *)

(** The last [n] entries of a list. *)
Definition lastN {A : Type} (n : nat) (l : list A) : list A :=
  skipn (length l - n) l.

(** The last entry of a list, if any. *)
Definition lastOpt {A : Type} (l : list A) : option A :=
  match rev l with
  | [] => None
  | x :: _ => Some x
  end.

(** No call in the sequence is dropped by the 100 ms guard of
    [handleBeat], [last] being the clock of the last handled beat. *)
Fixpoint noDrop (last : Q) (bs : list (Q * BeatDetectionResult.t)) : Prop :=
  match bs with
  | [] => True
  | (now, _) :: bs' => 100 <= now - last /\ noDrop now bs'
  end.

(** No beat in the sequence trips the 3000 ms timeout of the tracker,
    [last] being the timestamp of the beat processed before. *)
Fixpoint noTimeout (last : Q) (bs : list (Q * BeatDetectionResult.t)) : Prop :=
  match bs with
  | [] => True
  | (_, b) :: bs' =>
      (last <= 0 \/ BeatDetectionResult.timestamp b - last <= 3000)
      /\ noTimeout (BeatDetectionResult.timestamp b) bs'
  end.

(** The tempo fields of the tracker belong together: both 0, or a
    positive tempo with its beat interval. *)
Definition tempoFieldsOk (c : BeatCounter.t) : Prop :=
  (BeatCounter.currentBPM c = 0 /\ BeatCounter.expectedBeatInterval c = 0)
  \/ (0 < BeatCounter.currentBPM c
      /\ BeatCounter.expectedBeatInterval c
         = 60000 / BeatCounter.currentBPM c).

(** Beat History has kept pace with BPM History. *)
Definition historiesPaced (s : AudioProcessor.t) : Prop :=
  (length (AudioProcessor.beatHistory s) <= 15)%nat
  /\ ((length (AudioProcessor.bpmHistory s)
       <= length (AudioProcessor.beatHistory s))%nat
      \/ length (AudioProcessor.beatHistory s) = 15%nat).

(** The prediction, when there is one, lies 150 ms or more after the
    last accepted beat. *)
Definition predictionAhead (s : AudioProcessor.t) : Prop :=
  AudioProcessor.predictedNextBeatTime s == 0
  \/ AudioProcessor.lastBeatTime s + 150
     <= AudioProcessor.predictedNextBeatTime s.

(** *** Predicates for the properties of these parts *)

(** The last-beat time follows the Beat Events of a part of a tick. *)
Definition stamps (s : AudioProcessor.t)
           (r : list Callback * AudioProcessor.t) : Prop :=
  match lastOpt (AudioProcessor.beats (fst r)) with
  | Some b =>
      AudioProcessor.lastBeatTime (snd r) = BeatDetectionResult.timestamp b
  | None => AudioProcessor.lastBeatTime (snd r) = AudioProcessor.lastBeatTime s
  end.

(** A part of a tick either notifies nothing and keeps the tempo, or
    notifies once, the rounded tempo it leaves behind. *)
Definition notifies (s : AudioProcessor.t)
           (r : list Callback * AudioProcessor.t) : Prop :=
  (Analyser.bpmUpdates (fst r) = []
   /\ AudioProcessor.currentStableBPM (snd r)
      = AudioProcessor.currentStableBPM s)
  \/ (Analyser.bpmUpdates (fst r)
      = [round (AudioProcessor.currentStableBPM (snd r))]
      /\ (3 <= length (AudioProcessor.bpmHistory (snd r)))%nat).

(** A frame whose bytes are all 0 or 1, on both reads. *)
Definition faintFrame (f : Analyser.Frame) : Prop :=
  Analyser.predData f <> [] /\ Analyser.data f <> []
  /\ Forall (fun d => (0 <= d <= 1)%Z) (Analyser.predData f)
  /\ Forall (fun d => (0 <= d <= 1)%Z) (Analyser.data f).

(** The two trackers hold the same position, cycle and last-beat time. *)
Definition agree (c : BeatCounter.t) (l : BeatCounterLegacy.t) : Prop :=
  BeatCounter.currentBeat c = BeatCounterLegacy.currentBeat l
  /\ BeatCounter.cycle c = BeatCounterLegacy.cycle l
  /\ BeatCounter.lastBeatTime c = BeatCounterLegacy.lastBeatTime l.

(** The tracker is where the [n]-th beat of the detector expects it. *)
Definition synced (n : nat) (c : BeatCounter.t) : Prop :=
  BeatCounter.cycle c = Z.of_nat ((n + 7) / 8)
  /\ (n mod 8 <> 0%nat ->
      BeatCounter.currentBeat c = Z.of_nat ((n - 1) mod 8)).

(** The Cycle State shown for the [n]-th beat, counted from 0. *)
Definition shown (n : nat) : BeatCounterState.t :=
  BeatCounterState.mk (Z.of_nat (n mod 8) + 1) (Z.of_nat (n / 8) + 1)
    (n mod 8 =? 0)%nat
    (BeatCounter.isDash (Z.of_nat (n mod 8) + 1)).

(** ** Facts about the comparisons *)

Lemma Qltb_lt (x y : Q) : Qltb x y = true <-> x < y.
Proof.
  unfold Qltb. rewrite negb_true_iff.
  split; intro H.
  - apply Qnot_le_lt. intro Hle. apply Qle_bool_iff in Hle. congruence.
  - destruct (Qle_bool y x) eqn:E; [|reflexivity].
    apply Qle_bool_iff in E. exfalso. apply (Qlt_not_le _ _ H E).
Qed.

Lemma Qltb_ge (x y : Q) : Qltb x y = false <-> y <= x.
Proof.
  unfold Qltb. rewrite negb_false_iff. apply Qle_bool_iff.
Qed.

Lemma Qle_bool_gt (x y : Q) : Qle_bool x y = false <-> y < x.
Proof.
  rewrite <- Qltb_lt. unfold Qltb. rewrite negb_true_iff. reflexivity.
Qed.

(** The rational form of the threshold test agrees with the source's
    [x > a + m * Math.sqrt(v)] whenever the square root is rational. *)
Lemma exceeds_sqrt_spec (x a m v r : Q) :
  0 <= m -> 0 <= r -> r * r == v ->
  (exceedsSqrt x a m v = true <-> a + m * r < x).
Proof.
  intros Hm Hr Hv. unfold exceedsSqrt.
  rewrite andb_true_iff, !Qltb_lt.
  assert (Hmr : 0 <= m * r) by (apply Qmult_le_0_compat; assumption).
  assert (E : m * m * v == (m * r) * (m * r)) by (rewrite <- Hv; ring).
  rewrite E. clear E.
  split.
  - intros [H1 H2]. nra.
  - intro H. split; [lra | nra].
Qed.

(** ** Rounding to the nearest double *)

Section Rounding.

Lemma Qfloor_lb (y : Q) : inject_Z (Qfloor y) <= y.
Proof. apply Qfloor_le. Qed.

Lemma Qfloor_ub (y : Q) : y < inject_Z (Qfloor y) + 1.
Proof.
  pose proof (Qlt_floor y) as H. rewrite inject_Z_plus in H. exact H.
Qed.

Lemma Qfloor_ge (y : Q) (n : Z) : inject_Z n <= y -> (n <= Qfloor y)%Z.
Proof.
  intro H. apply Qfloor_resp_le in H. rewrite Qfloor_Z in H. exact H.
Qed.

Lemma Qfloor_lt (y : Q) (n : Z) : y < inject_Z n -> (Qfloor y < n)%Z.
Proof.
  intro H. rewrite Zlt_Qlt.
  apply Qle_lt_trans with y; [apply Qfloor_le | exact H].
Qed.

Lemma inject_Z_pred (n : Z) : inject_Z (n - 1) == inject_Z n - 1.
Proof.
  unfold Z.sub. rewrite inject_Z_plus, inject_Z_opp. reflexivity.
Qed.

Lemma roundHalfEven_cases (y : Q) :
  let f := Qfloor y in
  (y - inject_Z f < 1 # 2 /\ roundHalfEven y = f)
  \/ (1 # 2 < y - inject_Z f /\ roundHalfEven y = (f + 1)%Z)
  \/ (y - inject_Z f == 1 # 2
      /\ roundHalfEven y = if Z.even f then f else (f + 1)%Z).
Proof.
  intro f. unfold roundHalfEven. fold f.
  destruct (Qcompare (y - inject_Z f) (1 # 2)) eqn:C.
  - right; right. apply Qeq_alt in C. split; [exact C | reflexivity].
  - left. apply Qlt_alt in C. split; [exact C | reflexivity].
  - right; left. apply Qgt_alt in C. split; [exact C | reflexivity].
Qed.

Lemma roundHalfEven_le (y : Q) (n : Z) :
  y <= inject_Z n -> (roundHalfEven y <= n)%Z.
Proof.
  intro H.
  pose proof (Qfloor_lb y) as L.
  assert (F : (Qfloor y <= n)%Z).
  { rewrite Zle_Qle. apply Qle_trans with y; assumption. }
  assert (G : 0 < y - inject_Z (Qfloor y) -> (Qfloor y + 1 <= n)%Z).
  { intro P. assert (Q1 : (Qfloor y < n)%Z).
    { rewrite Zlt_Qlt. lra. }
    lia. }
  destruct (roundHalfEven_cases y) as [[C ->]|[[C ->]|[C ->]]].
  - exact F.
  - apply G. lra.
  - destruct (Z.even (Qfloor y)); [exact F | apply G; lra].
Qed.

Lemma roundHalfEven_ge (y : Q) (n : Z) :
  inject_Z n <= y -> (n <= roundHalfEven y)%Z.
Proof.
  intro H. apply Qfloor_ge in H.
  destruct (roundHalfEven_cases y) as [[C ->]|[[C ->]|[C ->]]];
    [lia | lia | destruct (Z.even (Qfloor y)); lia].
Qed.

(** Above an even integer: the tie goes down. *)
Lemma roundHalfEven_gt_even (y : Q) (n : Z) :
  Z.even n = true ->
  (n < roundHalfEven y)%Z <-> inject_Z n + (1 # 2) < y.
Proof.
  intro E.
  pose proof (Qfloor_lb y) as L. pose proof (Qfloor_ub y) as U.
  split.
  - intro H.
    destruct (Z_lt_le_dec (Qfloor y) n) as [A|A].
    + exfalso.
      assert (R : (roundHalfEven y <= Qfloor y + 1)%Z).
      { destruct (roundHalfEven_cases y) as [[C ->]|[[C ->]|[C ->]]];
          [lia | lia | destruct (Z.even (Qfloor y)); lia]. }
      lia.
    + destruct (Z.eq_dec (Qfloor y) n) as [B|B].
      * destruct (roundHalfEven_cases y) as [[C R]|[[C R]|[C R]]];
          rewrite B in *.
        -- lia.
        -- lra.
        -- rewrite E in R. lia.
      * assert (A' : (n + 1 <= Qfloor y)%Z) by lia.
        rewrite Zle_Qle, inject_Z_plus in A'.
        change (inject_Z 1) with 1 in A'. lra.
  - intro H.
    assert (A : (n <= Qfloor y)%Z) by (apply Qfloor_ge; lra).
    destruct (Z.eq_dec (Qfloor y) n) as [B|B].
    + destruct (roundHalfEven_cases y) as [[C R]|[[C R]|[C R]]];
        rewrite B in *.
      * lra.
      * lia.
      * lra.
    + pose proof (roundHalfEven_ge y (Qfloor y) L). lia.
Qed.

(** Below an even integer: the tie goes up. *)
Lemma roundHalfEven_lt_even (y : Q) (n : Z) :
  Z.even n = true ->
  (roundHalfEven y < n)%Z <-> y < inject_Z n - (1 # 2).
Proof.
  intro E.
  pose proof (Qfloor_lb y) as L. pose proof (Qfloor_ub y) as U.
  assert (O : Z.even (n - 1) = false).
  { rewrite Z.even_sub, E. reflexivity. }
  split.
  - intro H.
    assert (A : (Qfloor y <= n - 1)%Z).
    { pose proof (roundHalfEven_ge y (Qfloor y) L). lia. }
    destruct (Z.eq_dec (Qfloor y) (n - 1)) as [B|B].
    + destruct (roundHalfEven_cases y) as [[C R]|[[C R]|[C R]]];
        rewrite B in *.
      * rewrite inject_Z_pred in C. lra.
      * lia.
      * rewrite O in R. lia.
    + assert (A' : (Qfloor y + 1 <= n - 1)%Z) by lia.
      rewrite Zle_Qle, inject_Z_pred, inject_Z_plus in A'.
      change (inject_Z 1) with 1 in A'. lra.
  - intro H.
    assert (A : (Qfloor y < n)%Z) by (apply Qfloor_lt; lra).
    destruct (Z.eq_dec (Qfloor y) (n - 1)) as [B|B].
    + destruct (roundHalfEven_cases y) as [[C R]|[[C R]|[C R]]];
        rewrite B in *.
      * lia.
      * exfalso. rewrite inject_Z_pred in C. lra.
      * exfalso. rewrite inject_Z_pred in C. lra.
    + assert (R : (roundHalfEven y <= Qfloor y + 1)%Z).
      { destruct (roundHalfEven_cases y) as [[C ->]|[[C ->]|[C ->]]];
          [lia | lia | destruct (Z.even (Qfloor y)); lia]. }
      lia.
Qed.

Lemma two_neq_0 : ~ 2 == 0.
Proof. discriminate. Qed.

Lemma pow2_pos (e : Z) : 0 < 2 ^ e.
Proof. apply Qpower_0_lt. reflexivity. Qed.

Lemma pow2_inject (k : Z) : (0 <= k)%Z -> inject_Z (2 ^ k) == 2 ^ k.
Proof. intro H. exact (Zpower_Qpower 2 k H). Qed.

Lemma binade_le (a : Q) (k : Z) :
  (0 <= k)%Z -> a <= 2 ^ k -> (binade a <= k)%Z.
Proof.
  intros K H. unfold binade.
  destruct (Qle_bool 1 a) eqn:A.
  - apply Qle_bool_iff in A.
    rewrite <- (pow2_inject k K) in H.
    assert (F : (Qfloor a <= 2 ^ k)%Z).
    { rewrite Zle_Qle. apply Qle_trans with a; [apply Qfloor_le | exact H]. }
    apply Z.log2_le_mono in F. rewrite Z.log2_pow2 in F by exact K. exact F.
  - pose proof (Z.log2_up_nonneg (Qceiling (/ a))). lia.
Qed.

Lemma binade_ge (a : Q) (k : Z) :
  (0 <= k)%Z -> 2 ^ k <= a ->
  (k <= binade a)%Z /\ 2 ^ binade a <= a.
Proof.
  intros K H. unfold binade.
  assert (A : Qle_bool 1 a = true).
  { apply Qle_bool_iff. apply Qle_trans with (2 ^ k); [|exact H].
    apply Qpower_1_le; [discriminate | exact K]. }
  rewrite A.
  rewrite <- (pow2_inject k K) in H.
  assert (F : (2 ^ k <= Qfloor a)%Z) by (apply Qfloor_ge; exact H).
  assert (P : (0 < Qfloor a)%Z).
  { pose proof (Z.pow_pos_nonneg 2 k ltac:(lia) K). lia. }
  split.
  - apply Z.log2_le_mono in F. rewrite Z.log2_pow2 in F by exact K. exact F.
  - destruct (Z.log2_spec (Qfloor a) P) as [S1 _].
    rewrite <- pow2_inject by apply Z.log2_nonneg.
    apply Qle_trans with (inject_Z (Qfloor a)); [|apply Qfloor_le].
    rewrite <- Zle_Qle. exact S1.
Qed.

(** The rounding of a positive number, on the grid of its binade. *)
Lemma roundDouble_pos (x : Q) :
  0 < x ->
  roundDouble x
  = inject_Z (roundHalfEven (x / 2 ^ Z.max (binade x - 52) (-1074)))
    * 2 ^ Z.max (binade x - 52) (-1074).
Proof.
  intro H. unfold roundDouble.
  assert (N : Qeq_bool x 0 = false).
  { destruct (Qeq_bool x 0) eqn:E; [|reflexivity].
    apply Qeq_bool_iff in E. lra. }
  assert (P : Qle_bool 0 x = true) by (apply Qle_bool_iff; lra).
  rewrite N, P.
  assert (A : Qabs x = x).
  { destruct x as [n d]. unfold Qlt in H. simpl in H.
    unfold Qabs. f_equal. apply Z.abs_eq. lia. }
  rewrite A. reflexivity.
Qed.

Lemma roundDouble_nonpos (x : Q) : x <= 0 -> roundDouble x <= 0.
Proof.
  intro H. unfold roundDouble.
  destruct (Qeq_bool x 0) eqn:E; [apply Qle_refl|].
  destruct (Qle_bool 0 x) eqn:P.
  - apply Qle_bool_iff in P. exfalso.
    assert (Z0 : x == 0) by lra.
    apply Qeq_bool_iff in Z0. congruence.
  - set (e := Z.max (binade (Qabs x) - 52) (-1074)).
    pose proof (pow2_pos e) as Pe.
    assert (M : (0 <= roundHalfEven (Qabs x / 2 ^ e))%Z).
    { apply roundHalfEven_ge. change (inject_Z 0) with 0.
      apply Qle_shift_div_l; [exact Pe|]. rewrite Qmult_0_l.
      apply Qabs_nonneg. }
    rewrite Zle_Qle in M. change (inject_Z 0) with 0 in M.
    pose proof (Qmult_le_0_compat _ _ M (Qlt_le_weak _ _ Pe)). lra.
Qed.

(** Rounding does not cross a power of two. *)
Lemma roundDouble_le_pow2 (x : Q) (k : Z) :
  (0 <= k)%Z -> 0 < x -> x <= 2 ^ k -> roundDouble x <= 2 ^ k.
Proof.
  intros K P H. rewrite (roundDouble_pos x P).
  pose proof (binade_le x k K H) as B.
  set (e := Z.max (binade x - 52) (-1074)).
  assert (E : (0 <= k - e)%Z) by (unfold e; lia).
  pose proof (pow2_pos e) as Pe.
  assert (S : 2 ^ k == inject_Z (2 ^ (k - e)) * 2 ^ e).
  { rewrite (pow2_inject _ E). rewrite <- Qpower_plus by apply two_neq_0.
    replace (k - e + e)%Z with k by lia. reflexivity. }
  assert (M : (roundHalfEven (x / 2 ^ e) <= 2 ^ (k - e))%Z).
  { apply roundHalfEven_le. apply Qle_shift_div_r; [exact Pe|].
    rewrite <- S. exact H. }
  rewrite S. apply Qmult_le_compat_r; [|apply Qlt_le_weak; exact Pe].
  rewrite <- Zle_Qle. exact M.
Qed.

Lemma roundDouble_ge_pow2 (x : Q) (k : Z) :
  (0 <= k)%Z -> 2 ^ k <= x -> 2 ^ k <= roundDouble x.
Proof.
  intros K H.
  assert (P : 0 < x) by (pose proof (pow2_pos k); lra).
  rewrite (roundDouble_pos x P).
  destruct (binade_ge x k K H) as [B1 B2].
  replace (Z.max (binade x - 52) (-1074)) with (binade x - 52)%Z by lia.
  set (e := (binade x - 52)%Z).
  pose proof (pow2_pos e) as Pe.
  assert (S : 2 ^ binade x == inject_Z (2 ^ 52) * 2 ^ e).
  { rewrite (pow2_inject 52) by lia.
    rewrite <- Qpower_plus by apply two_neq_0.
    replace (52 + e)%Z with (binade x) by (unfold e; lia). reflexivity. }
  assert (M : (2 ^ 52 <= roundHalfEven (x / 2 ^ e))%Z).
  { apply roundHalfEven_ge. apply Qle_shift_div_l; [exact Pe|].
    rewrite <- S. exact B2. }
  apply Qle_trans with (2 ^ binade x).
  - apply Qpower_le_compat_l; [exact B1 | discriminate].
  - rewrite S. apply Qmult_le_compat_r; [|apply Qlt_le_weak; exact Pe].
    rewrite <- Zle_Qle. exact M.
Qed.

(** Inside the binade of [2 ^ k] the grid is that of [2 ^ (k - 52)]. *)
Lemma roundDouble_binade (x : Q) (k : Z) :
  (0 <= k)%Z -> 2 ^ k <= x -> x < 2 ^ (k + 1) ->
  roundDouble x
  = inject_Z (roundHalfEven (x / 2 ^ (k - 52))) * 2 ^ (k - 52).
Proof.
  intros K L U.
  assert (P : 0 < x) by (pose proof (pow2_pos k); lra).
  rewrite (roundDouble_pos x P).
  destruct (binade_ge x k K L) as [B1 B2].
  assert (B3 : (binade x < k + 1)%Z).
  { apply (Qpower_lt_compat_l_inv 2); [|reflexivity].
    apply Qle_lt_trans with x; assumption. }
  replace (binade x) with k by lia.
  replace (Z.max (k - 52) (-1074)) with (k - 52)%Z by lia.
  reflexivity.
Qed.

(** The test [d > 3000] on a rounded difference. *)
Lemma roundDouble_gt_3000 (x : Q) :
  3000 < roundDouble x <-> 3000 + (1 # 4398046511104) < x.
Proof.
  destruct (Qlt_le_dec 0 x) as [P|P].
  2:{ pose proof (roundDouble_nonpos x P). split; intro; lra. }
  destruct (Qlt_le_dec x 2048) as [A|A].
  { pose proof (roundDouble_le_pow2 x 11 ltac:(lia) P) as H.
    change (2 ^ 11) with 2048 in H. split; intro; lra. }
  destruct (Qlt_le_dec x 4096) as [B|B].
  2:{ pose proof (roundDouble_ge_pow2 x 12 ltac:(lia)) as H.
      change (2 ^ 12) with 4096 in H. split; intro; lra. }
  rewrite (roundDouble_binade x 11) by (try lia; assumption).
  change (11 - 52)%Z with (-41)%Z.
  assert (E : 2 ^ (-41) == 1 # 2199023255552) by reflexivity.
  set (m := roundHalfEven (x / 2 ^ (-41))).
  assert (T : 3000 < inject_Z m * 2 ^ (-41)
              <-> (6597069766656000 < m)%Z).
  { rewrite Zlt_Qlt. rewrite E.
    change (inject_Z 6597069766656000) with (3000 * 2199023255552).
    split; intro; lra. }
  rewrite T. unfold m.
  rewrite (roundHalfEven_gt_even _ 6597069766656000) by reflexivity.
  assert (D : x / 2 ^ (-41) == x * 2199023255552).
  { rewrite E. field. }
  rewrite D.
  change (inject_Z 6597069766656000) with (3000 * 2199023255552).
  split; intro; lra.
Qed.

(** The test [d < 100] on a rounded difference. *)
Lemma roundDouble_lt_100 (x : Q) :
  roundDouble x < 100 <-> x < 100 - (1 # 140737488355328).
Proof.
  destruct (Qlt_le_dec 0 x) as [P|P].
  2:{ pose proof (roundDouble_nonpos x P). split; intro; lra. }
  destruct (Qlt_le_dec x 64) as [A|A].
  { pose proof (roundDouble_le_pow2 x 6 ltac:(lia) P) as H.
    change (2 ^ 6) with 64 in H. split; intro; lra. }
  destruct (Qlt_le_dec x 128) as [B|B].
  2:{ pose proof (roundDouble_ge_pow2 x 7 ltac:(lia)) as H.
      change (2 ^ 7) with 128 in H. split; intro; lra. }
  rewrite (roundDouble_binade x 6) by (try lia; assumption).
  change (6 - 52)%Z with (-46)%Z.
  assert (E : 2 ^ (-46) == 1 # 70368744177664) by reflexivity.
  set (m := roundHalfEven (x / 2 ^ (-46))).
  assert (T : inject_Z m * 2 ^ (-46) < 100
              <-> (m < 7036874417766400)%Z).
  { rewrite Zlt_Qlt. rewrite E.
    change (inject_Z 7036874417766400) with (100 * 70368744177664).
    split; intro; lra. }
  rewrite T. unfold m.
  rewrite (roundHalfEven_lt_even _ 7036874417766400) by reflexivity.
  assert (D : x / 2 ^ (-46) == x * 70368744177664).
  { rewrite E. field. }
  rewrite D.
  change (inject_Z 7036874417766400) with (100 * 70368744177664).
  split; intro; lra.
Qed.

(** The rounding at work: 0.1 and 1/3 as doubles, a tie at 3000 and one
    on the subnormal grid, and a difference that rounds. *)
Lemma roundDouble_examples :
  roundDouble 0.1 == 3602879701896397 # 36028797018963968
  /\ roundDouble (1 # 3) == 6004799503160661 # 18014398509481984
  /\ roundDouble (- (1 # 3)) == - (6004799503160661 # 18014398509481984)
  /\ roundDouble (3000 + (1 # 4398046511104)) == 3000
  /\ roundDouble (3000 + (3 # 8796093022208))
     == 3000 + (1 # 2199023255552)
  /\ roundDouble (3 * 2 ^ (-1075)) == 2 ^ (-1073)
  /\ roundDouble (2 ^ (-1075)) == 0
  /\ fsub 3001 (1 - (1 # 9007199254740992)) == 3000
  /\ fsub 201 (1 + (1 # 4503599627370496)) == 200.
Proof.
  repeat split; vm_compute; reflexivity.
Qed.

End Rounding.

(** ** The cycle tracker: position, dash and downbeat *)

Section Tracker.
Import BeatCounter.

Lemma init_in_range : positionInRange init.
Proof. unfold positionInRange; simpl; lia. Qed.

Lemma reset_in_range (c : t) : positionInRange (reset c).
Proof. unfold positionInRange; simpl; lia. Qed.

Lemma updateBPM_in_range (bpm : option Q) (c : t) :
  positionInRange c -> positionInRange (updateBPM bpm c).
Proof.
  unfold updateBPM. destruct bpm as [b|]; [|trivial].
  destruct (Qltb 0 b); trivial.
Qed.

Lemma timeoutReset_in_range (now : Q) (c : t) :
  positionInRange c -> positionInRange (timeoutReset now c).
Proof.
  unfold timeoutReset. destruct (timedOut now c); [|trivial].
  intros _. unfold positionInRange; simpl; lia.
Qed.

Lemma advance_in_range (d : bool) (now : Q) (c : t) :
  positionInRange c -> positionInRange (advance d now c).
Proof.
  unfold positionInRange, advance. intro H.
  destruct d; simpl; [lia|].
  apply Z.rem_bound_pos; lia.
Qed.

Lemma updateBeat_in_range (d : bool) (ts : Q) (bpm : option Q) (c : t) :
  positionInRange c -> positionInRange (snd (updateBeat d ts bpm c)).
Proof.
  intro H. unfold updateBeat; simpl.
  apply advance_in_range, timeoutReset_in_range, updateBPM_in_range, H.
Qed.

Lemma isDash_spec (z : Z) : isDash z = true <-> z = 4%Z \/ z = 8%Z.
Proof.
  unfold isDash. rewrite orb_true_iff, !Z.eqb_eq. reflexivity.
Qed.

Lemma getState_ok (c : t) : positionInRange c -> cycleStateOk (getState c).
Proof.
  unfold positionInRange, cycleStateOk, getState; simpl. intro H.
  split; [lia|]. split; [apply isDash_spec | discriminate].
Qed.

Lemma updateBeat_ok (d : bool) (ts : Q) (bpm : option Q) (c : t) :
  positionInRange c -> cycleStateOk (fst (updateBeat d ts bpm c)).
Proof.
  intro H.
  pose proof (updateBeat_in_range d ts bpm c H) as Hr.
  unfold positionInRange, updateBeat in Hr. simpl in Hr.
  unfold cycleStateOk, updateBeat; simpl.
  split; [lia|]. split; [apply isDash_spec|].
  destruct d; simpl; [intros _; reflexivity | discriminate].
Qed.

Lemma step_ok (c : t) (o : Op) :
  positionInRange c ->
  Forall cycleStateOk (fst (step c o)) /\ positionInRange (snd (step c o)).
Proof.
  intro H. destruct o as [d ts bpm| |]; simpl.
  - split.
    + constructor; [apply updateBeat_ok; exact H | constructor].
    + apply (updateBeat_in_range d ts bpm c H).
  - split; [constructor; [apply getState_ok; exact H | constructor] | exact H].
  - split; [constructor | apply reset_in_range].
Qed.

Lemma run_ok (ops : list Op) : forall c,
  positionInRange c ->
  Forall cycleStateOk (fst (run c ops)) /\ positionInRange (snd (run c ops)).
Proof.
  induction ops as [|o ops IH]; intros c H; simpl.
  - split; [constructor | exact H].
  - destruct (step_ok c o H) as [H1 H2].
    destruct (step c o) as [r1 c1]. simpl in H1, H2.
    destruct (IH c1 H2) as [H3 H4].
    destruct (run c1 ops) as [r2 c2]. simpl in *.
    split; [apply Forall_app; split; assumption | exact H4].
Qed.

(** C6.  In every session of [updateBeat], [getState] and [reset] calls on
    a fresh tracker, every Cycle State reported along the way, and the one
    [getState] would report afterwards, has its display position in 1..8,
    has [isDashBeat] true exactly at positions 4 and 8, and has
    [isDownbeat] true only at position 1. *)
Theorem cycle_state_always_well_formed (ops : list Op) :
  Forall cycleStateOk (fst (run init ops))
  /\ cycleStateOk (getState (snd (run init ops))).
Proof.
  destruct (run_ok ops init init_in_range) as [H1 H2].
  split; [exact H1 | apply getState_ok; exact H2].
Qed.

End Tracker.

Section TrackerTimeout.
Import BeatCounter.

Lemma timedOut_true (now : Q) (c : t) :
  timedOut now c = true
  <-> 0 < lastBeatTime c /\ 3000 < fsub now (lastBeatTime c).
Proof.
  unfold timedOut, maxInterval. rewrite andb_true_iff, !Qltb_lt. reflexivity.
Qed.

Lemma timedOut_false (now : Q) (c : t) :
  timedOut now c = false
  <-> lastBeatTime c <= 0 \/ fsub now (lastBeatTime c) <= 3000.
Proof.
  unfold timedOut, maxInterval. rewrite andb_false_iff, !Qltb_ge. reflexivity.
Qed.

(** The computed gap exceeds 3000 exactly when the true gap exceeds
    [3000 + 2 ^ -42]: half a step of the grid of doubles at 3000. *)
Lemma fsub_gt_3000 (now last : Q) :
  3000 < fsub now last <-> 3000 + (1 # 4398046511104) < now - last.
Proof. unfold fsub. apply roundDouble_gt_3000. Qed.

Lemma fsub_le_3000 (now last : Q) :
  fsub now last <= 3000 <-> now - last <= 3000 + (1 # 4398046511104).
Proof.
  pose proof (fsub_gt_3000 now last) as [H1 H2].
  split; intro H.
  - apply Qnot_lt_le. intro C. apply H2 in C. lra.
  - apply Qnot_lt_le. intro C. apply H1 in C. lra.
Qed.

Lemma updateBPM_lastBeatTime (bpm : option Q) (c : t) :
  lastBeatTime (updateBPM bpm c) = lastBeatTime c.
Proof.
  unfold updateBPM. destruct bpm as [b|]; [|reflexivity].
  destruct (Qltb 0 b); reflexivity.
Qed.

(** C8, against the history of calls: a beat stamped 0 is processed, yet
    the beat that follows it 3001 ms later is not applied to a zeroed
    tracker; the position moves on from 1 to 2. *)
Lemma timeout_ignores_beat_stamped_zero :
  currentBeat
    (snd (run init [OpUpdateBeat false 0 None; OpUpdateBeat false 3001 None]))
  = 2%Z
  /\ currentBeat
       (advance false 3001
          (forceReset (snd (updateBeat false 0 None init)))) = 1%Z
  /\ ~ timeoutAfterAnyBeat.
Proof.
  split; [reflexivity|]. split; [reflexivity|].
  intro H.
  specialize (H init false 0 None false 3001 None).
  simpl in H.
  assert (Hlt : 3000 < 3001 - 0) by reflexivity.
  specialize (H Hlt).
  apply (f_equal currentBeat) in H.
  vm_compute in H. discriminate H.
Qed.

(** C8, as the tracker implements it.  [lastBeatTime] holds the timestamp
    of the previously processed beat and is 0 on a fresh or reset tracker.
    The gap [now - lastBeatTime] is computed on doubles, rounded to the
    nearest; the computed gap exceeds 3000 exactly when the true gap
    exceeds 3000 + 2^-42 ms.  When [lastBeatTime] is positive and the
    computed gap exceeds 3000, the new beat's transition is applied to
    position 0 and cycle 0 (so the position becomes 0 on a downbeat hint
    and 1 otherwise, the cycle 1 and 0).  When [lastBeatTime] is not
    positive, or the computed gap is 3000 or less, as it is whenever the
    true gap is 3000 ms or less, the transition is applied to the
    position and cycle as they were. *)
Theorem timeout_reset_rule (c : t) (d : bool) (ts : Q) (bpm : option Q) :
  (3000 < fsub ts (lastBeatTime c)
   <-> 3000 + (1 # 4398046511104) < ts - lastBeatTime c)
  /\ (0 < lastBeatTime c -> 3000 + (1 # 4398046511104) < ts - lastBeatTime c ->
      snd (updateBeat d ts bpm c)
      = advance d ts (forceReset (updateBPM bpm c))
      /\ currentBeat (snd (updateBeat d ts bpm c)) = (if d then 0 else 1)%Z
      /\ cycle (snd (updateBeat d ts bpm c)) = (if d then 1 else 0)%Z)
  /\ (lastBeatTime c <= 0
      \/ ts - lastBeatTime c <= 3000 + (1 # 4398046511104) ->
      snd (updateBeat d ts bpm c) = advance d ts (updateBPM bpm c)
      /\ currentBeat (snd (updateBeat d ts bpm c))
         = (if d then 0 else Z.rem (currentBeat c + 1) 8)%Z
      /\ cycle (snd (updateBeat d ts bpm c))
         = (if d then cycle c + 1 else cycle c)%Z).
Proof.
  split; [apply fsub_gt_3000|]. split.
  - intros H1 H2.
    assert (E : timedOut ts (updateBPM bpm c) = true).
    { apply timedOut_true. rewrite updateBPM_lastBeatTime.
      split; [exact H1 | apply fsub_gt_3000; exact H2]. }
    unfold updateBeat, timeoutReset; simpl. rewrite E.
    split; [reflexivity|]. destruct d; simpl; split; reflexivity.
  - intros H.
    assert (E : timedOut ts (updateBPM bpm c) = false).
    { apply timedOut_false. rewrite updateBPM_lastBeatTime.
      destruct H as [H|H]; [left; exact H | right].
      apply fsub_le_3000. exact H. }
    unfold updateBeat, timeoutReset; simpl. rewrite E.
    split; [reflexivity|].
    unfold updateBPM. destruct bpm as [b|]; [destruct (Qltb 0 b)|];
      destruct d; simpl; split; reflexivity.
Qed.

(** Two full cycles, a silence of four seconds, one more beat: the reset
    fires.  Half a second instead of four: it does not.  Nor does it for
    a beat at 3001 ms after one at 1 - 2^-53 ms: the true gap is
    3000 + 2^-53 ms, the computed one 3000. *)
Lemma timeout_reset_rule_witness :
  let c := snd (run init [OpUpdateBeat true 1000 None;
                          OpUpdateBeat false 1500 None;
                          OpUpdateBeat false 2000 None]) in
  let c' := snd (run init [OpUpdateBeat true (1 - (1 # 9007199254740992))
                             None]) in
  (currentBeat c = 2%Z /\ cycle c = 1%Z)
  /\ (currentBeat (snd (updateBeat false 6000 None c)) = 1%Z
      /\ cycle (snd (updateBeat false 6000 None c)) = 0%Z)
  /\ (currentBeat (snd (updateBeat false 2500 None c)) = 3%Z
      /\ cycle (snd (updateBeat false 2500 None c)) = 1%Z)
  /\ (currentBeat c' = 0%Z /\ cycle c' = 1%Z /\ 0 < lastBeatTime c'
      /\ 3000 < 3001 - lastBeatTime c'
      /\ fsub 3001 (lastBeatTime c') == 3000)
  /\ (currentBeat (snd (updateBeat false 3001 None c')) = 1%Z
      /\ cycle (snd (updateBeat false 3001 None c')) = 1%Z).
Proof.
  intros c c'.
  split; [split; reflexivity|].
  split; [|split; [|split]].
  - assert (H1 : 0 < lastBeatTime c) by reflexivity.
    assert (H2 : 3000 + (1 # 4398046511104) < 6000 - lastBeatTime c)
      by reflexivity.
    exact (proj2 (proj1 (proj2 (timeout_reset_rule c false 6000 None))
                    H1 H2)).
  - assert (H : lastBeatTime c <= 0
                \/ 2500 - lastBeatTime c <= 3000 + (1 # 4398046511104)).
    { right. vm_compute. discriminate. }
    exact (proj2 (proj2 (proj2 (timeout_reset_rule c false 2500 None)) H)).
  - split; [reflexivity|]. split; [reflexivity|]. split; [reflexivity|].
    split; [reflexivity | vm_compute; reflexivity].
  - assert (H : lastBeatTime c' <= 0
                \/ 3001 - lastBeatTime c' <= 3000 + (1 # 4398046511104)).
    { right. vm_compute. discriminate. }
    exact (proj2 (proj2 (proj2 (timeout_reset_rule c' false 3001 None)) H)).
Defined.

(** C10.  [getState] reports [isDownbeat = false] whatever the tracker
    holds, in particular right after a beat with a downbeat hint, for
    which [updateBeat] itself reported [true]; and among the operations
    of a session a report with [isDownbeat = true] can only come from an
    [updateBeat] with the hint set. *)
Theorem getState_never_claims_downbeat (c : t) :
  BeatCounterState.isDownbeat (getState c) = false
  /\ (forall ts bpm,
        BeatCounterState.isDownbeat (fst (updateBeat true ts bpm c)) = true
        /\ BeatCounterState.isDownbeat
             (getState (snd (updateBeat true ts bpm c))) = false)
  /\ (forall o r,
        In r (fst (step c o)) ->
        BeatCounterState.isDownbeat r = true ->
        exists ts bpm, o = OpUpdateBeat true ts bpm).
Proof.
  split; [reflexivity|]. split.
  - intros ts bpm. split; reflexivity.
  - intros o r Hin Hd. destruct o as [d ts bpm| |]; simpl in Hin.
    + destruct Hin as [<-|[]]. simpl in Hd.
      destruct d; [exists ts, bpm; reflexivity | discriminate Hd].
    + destruct Hin as [<-|[]]. discriminate Hd.
    + destruct Hin.
Qed.

End TrackerTimeout.

(** ** The beat detector: what each part of a tick touches *)

Section DetectorFrames.
Import AudioProcessor.

Lemma detectBeat_frame (e now : Q) (s : t) :
  let s' := snd (detectBeat e now s) in
  energyHistory s' = energyHistory s
  /\ previousEnergy s' = e
  /\ bpmHistory s' = bpmHistory s
  /\ currentStableBPM s' = currentStableBPM s
  /\ lastBeatTime s' = lastBeatTime s
  /\ beatCount s' = beatCount s
  /\ predictedNextBeatTime s' = predictedNextBeatTime s
  /\ lastPredictedBeatTime s' = lastPredictedBeatTime s.
Proof.
  unfold detectBeat.
  destruct (length (energyHistory s) <? historySize)%nat;
    [cbn; repeat split|].
  destruct (Qltb (average (energyHistory s)) minEnergyThreshold);
    [cbn; repeat split|].
  destruct (beatCandidate s e (average (energyHistory s))
            && (0 <? length (beatHistory s))%nat
            && Qltb (now - last (beatHistory s) 0) (minInterval (beatHistory s)));
    [cbn; repeat split|].
  destruct (beatCandidate s e (average (energyHistory s)));
    cbn; repeat split.
Qed.

(** A positive answer of [detectBeat]: the window is full, the energy is
    above the floor, the debounce distance to the last entry of Beat
    History is respected, and the detection time is recorded. *)
Lemma detectBeat_true (e now : Q) (s s' : t) :
  detectBeat e now s = (true, s') ->
  (historySize <= length (energyHistory s))%nat
  /\ minEnergyThreshold < e
  /\ (beatHistory s <> [] ->
      minInterval (beatHistory s) <= now - last (beatHistory s) 0)
  /\ beatHistory s' = pushCapped 15 now (beatHistory s).
Proof.
  unfold detectBeat.
  destruct (length (energyHistory s) <? historySize)%nat eqn:E1;
    [discriminate|].
  destruct (Qltb (average (energyHistory s)) minEnergyThreshold);
    [discriminate|].
  destruct (beatCandidate s e (average (energyHistory s))) eqn:E3.
  2:{ rewrite !andb_false_l. intro H. inversion H. }
  rewrite andb_true_l.
  destruct ((0 <? length (beatHistory s))%nat
            && Qltb (now - last (beatHistory s) 0) (minInterval (beatHistory s)))
    eqn:E4; [discriminate|].
  intro H. inversion H; subst s'; clear H. cbn.
  apply Nat.ltb_ge in E1.
  split; [exact E1|]. split.
  - unfold beatCandidate in E3.
    apply andb_true_iff in E3. destruct E3 as [E3 _].
    apply andb_true_iff in E3. destruct E3 as [E3 _].
    apply Qltb_lt in E3. exact E3.
  - split; [|reflexivity].
    intro Hne. apply andb_false_iff in E4. destruct E4 as [E4|E4].
    + apply Nat.ltb_ge in E4. destruct (beatHistory s); [congruence|].
      simpl in E4. lia.
    + apply Qltb_ge in E4. exact E4.
Qed.

Lemma detectBeat_false (e now : Q) (s s' : t) :
  detectBeat e now s = (false, s') -> beatHistory s' = beatHistory s.
Proof.
  unfold detectBeat.
  destruct (length (energyHistory s) <? historySize)%nat;
    [intro H; inversion H; reflexivity|].
  destruct (Qltb (average (energyHistory s)) minEnergyThreshold);
    [intro H; inversion H; reflexivity|].
  destruct (beatCandidate s e (average (energyHistory s))).
  - rewrite andb_true_l.
    destruct ((0 <? length (beatHistory s))%nat
              && Qltb (now - last (beatHistory s) 0)
                      (minInterval (beatHistory s)));
      [intro H; inversion H; reflexivity | discriminate].
  - rewrite !andb_false_l. intro H; inversion H; reflexivity.
Qed.

(** An energy at or below the floor is never a beat. *)
Lemma detectBeat_quiet (e now : Q) (s : t) :
  e <= minEnergyThreshold -> fst (detectBeat e now s) = false.
Proof.
  intro He.
  destruct (detectBeat e now s) as [b s'] eqn:E. simpl.
  destruct b; [|reflexivity].
  apply detectBeat_true in E. destruct E as (_ & E & _).
  exfalso. apply (Qlt_not_le _ _ E He).
Qed.

Lemma updateBeatPrediction_frame (ts : Q) (s : t) :
  let s' := updateBeatPrediction ts s in
  energyHistory s' = energyHistory s
  /\ beatHistory s' = beatHistory s
  /\ previousEnergy s' = previousEnergy s
  /\ bpmHistory s' = bpmHistory s
  /\ currentStableBPM s' = currentStableBPM s
  /\ lastBeatTime s' = lastBeatTime s
  /\ beatCount s' = beatCount s
  /\ lastPredictedBeatTime s' = lastPredictedBeatTime s.
Proof.
  unfold updateBeatPrediction.
  destruct (2 <=? length (beatHistory s))%nat; [cbn; repeat split|].
  destruct (Qltb 0 (currentStableBPM s)); cbn; repeat split.
Qed.

(** The predictive trigger either does nothing at all or fires once. *)
Lemma predictiveTrigger_cases (k : Tick.t) (s : t) :
  predictiveTrigger k s = ([], s)
  \/ (predictiveFires k s
      /\ predictiveTrigger k s
         = ([OnBeat (BeatDetectionResult.mk true (isDownbeat s)
                       (Tick.now k + predictionOffset) (Tick.predEnergy k))],
            updateBeatPrediction (Tick.now k + predictionOffset)
              (acceptPredicted (Tick.now k) s))).
Proof.
  unfold predictiveTrigger, predictiveFires.
  destruct (Qltb 0 (predictedNextBeatTime s)
            && Qle_bool (predictedNextBeatTime s - predictionOffset) (Tick.now k))
    eqn:E1; [|left; reflexivity].
  destruct (historySize <=? length (energyHistory s))%nat eqn:E2;
    [|left; reflexivity].
  destruct (Qltb (average (energyHistory s) * 1.05) (Tick.predEnergy k)
            && Qltb minEnergyThreshold (Tick.predEnergy k)) eqn:E3;
    [|left; reflexivity].
  destruct (Qltb 100 (Tick.now k - lastPredictedBeatTime s)) eqn:E4;
    [|left; reflexivity].
  right. split; [|reflexivity].
  apply andb_true_iff in E1. destruct E1 as [E1a E1b].
  apply andb_true_iff in E3. destruct E3 as [E3a E3b].
  apply Qltb_lt in E1a, E3a, E3b, E4.
  apply Qle_bool_iff in E1b. apply Nat.leb_le in E2.
  repeat split; assumption.
Qed.

End DetectorFrames.

Section DetectorTick.
Import AudioProcessor.

Lemma beats_app (a b : list Callback) : beats (a ++ b) = beats a ++ beats b.
Proof.
  induction a as [|c a IH]; simpl; [reflexivity|].
  destruct c; simpl; rewrite IH; reflexivity.
Qed.

Lemma admitBPM_frame (bpm : Q) (s : t) :
  let s' := admitBPM bpm s in
  energyHistory s' = energyHistory s
  /\ beatHistory s' = beatHistory s
  /\ previousEnergy s' = previousEnergy s
  /\ currentStableBPM s' = currentStableBPM s
  /\ lastBeatTime s' = lastBeatTime s
  /\ beatCount s' = beatCount s
  /\ predictedNextBeatTime s' = predictedNextBeatTime s
  /\ lastPredictedBeatTime s' = lastPredictedBeatTime s.
Proof.
  unfold admitBPM.
  destruct ((5 <=? length (bpmHistory s))%nat && Qltb 0 (currentStableBPM s));
    [|cbn; repeat split].
  destruct (Qltb (currentStableBPM s * 0.4) (Qabs (bpm - currentStableBPM s)));
    cbn; repeat split.
Qed.

Lemma blendStableBPM_frame (s : t) :
  let s' := snd (blendStableBPM s) in
  energyHistory s' = energyHistory s
  /\ beatHistory s' = beatHistory s
  /\ previousEnergy s' = previousEnergy s
  /\ bpmHistory s' = bpmHistory s
  /\ lastBeatTime s' = lastBeatTime s
  /\ beatCount s' = beatCount s
  /\ predictedNextBeatTime s' = predictedNextBeatTime s
  /\ lastPredictedBeatTime s' = lastPredictedBeatTime s.
Proof.
  unfold blendStableBPM.
  destruct (3 <=? length (bpmHistory s))%nat; cbn; repeat split.
Qed.

Lemma blendStableBPM_beats (s : t) : beats (fst (blendStableBPM s)) = [].
Proof.
  unfold blendStableBPM.
  destruct (3 <=? length (bpmHistory s))%nat; reflexivity.
Qed.

(** The tempo block touches BPM History and the stabilized tempo only,
    and delivers no Beat Event. *)
Lemma updateTempo_frame (ts : Q) (s : t) :
  let s' := snd (updateTempo ts s) in
  energyHistory s' = energyHistory s
  /\ beatHistory s' = beatHistory s
  /\ previousEnergy s' = previousEnergy s
  /\ lastBeatTime s' = lastBeatTime s
  /\ beatCount s' = beatCount s
  /\ predictedNextBeatTime s' = predictedNextBeatTime s
  /\ lastPredictedBeatTime s' = lastPredictedBeatTime s.
Proof.
  unfold updateTempo.
  destruct (Qltb 0 (lastBeatTime s)); [|cbn; repeat split].
  destruct (Qle_bool 60 (60000 / (ts - lastBeatTime s))
            && Qle_bool (60000 / (ts - lastBeatTime s)) 200);
    [|cbn; repeat split].
  pose proof (blendStableBPM_frame
                (admitBPM (60000 / (ts - lastBeatTime s)) s)) as H.
  pose proof (admitBPM_frame (60000 / (ts - lastBeatTime s)) s) as H'.
  cbv zeta in *.
  destruct H as (H1 & H2 & H3 & _ & H5 & H6 & H7 & H8).
  destruct H' as (H1' & H2' & H3' & _ & H5' & H6' & H7' & H8').
  repeat split; congruence.
Qed.

Lemma updateTempo_beats (ts : Q) (s : t) : beats (fst (updateTempo ts s)) = [].
Proof.
  unfold updateTempo.
  destruct (Qltb 0 (lastBeatTime s)); [|reflexivity].
  destruct (Qle_bool 60 (60000 / (ts - lastBeatTime s))
            && Qle_bool (60000 / (ts - lastBeatTime s)) 200); [|reflexivity].
  apply blendStableBPM_beats.
Qed.

(** The four ways through the main path. *)
Lemma mainPath_cases (k : Tick.t) (s : t) :
  let s1 := recordEnergy (Tick.energy k) s in
  let r := detectBeat (Tick.energy k) (Tick.detectNow k) s1 in
  let ts := Tick.stampNow k in
  ((length (energyHistory s1) < historySize)%nat /\ mainPath k s = ([], s1))
  \/ (fst r = false /\ mainPath k s = ([], snd r))
  \/ (fst r = true /\ ts - lastPredictedBeatTime s < 150
      /\ mainPath k s = ([], snd r))
  \/ (fst r = true /\ 150 <= ts - lastPredictedBeatTime s
      /\ mainPath k s
         = (fst (updateTempo ts (snd r))
              ++ [OnBeat (BeatDetectionResult.mk true (isDownbeat s) ts
                            (Tick.energy k))],
            updateBeatPrediction ts
              (acceptDetected ts (snd (updateTempo ts (snd r)))))).
Proof.
  intros s1 r ts. unfold mainPath. fold s1.
  destruct (historySize <=? length (energyHistory s1))%nat eqn:E1.
  2:{ left. apply Nat.leb_gt in E1. split; [exact E1 | reflexivity]. }
  right.
  pose proof (detectBeat_frame (Tick.energy k) (Tick.detectNow k) s1) as F.
  cbv zeta in F. fold r in F.
  destruct F as (_ & _ & _ & _ & _ & F6 & _ & F8).
  assert (Hlp : lastPredictedBeatTime (snd r) = lastPredictedBeatTime s)
    by (rewrite F8; reflexivity).
  assert (Hdb : isDownbeat (snd r) = isDownbeat s)
    by (unfold isDownbeat; rewrite F6; reflexivity).
  fold r. destruct r as [b s2] eqn:Er. simpl in Hlp, Hdb |- *.
  destruct b; [|left; split; reflexivity].
  right. fold ts. rewrite Hlp.
  destruct (Qltb (ts - lastPredictedBeatTime s) 150) eqn:E2.
  - left. apply Qltb_lt in E2. repeat split; assumption.
  - right. apply Qltb_ge in E2. split; [reflexivity|]. split; [exact E2|].
    rewrite Hdb.
    destruct (updateTempo ts s2) as [cbs s3]. reflexivity.
Qed.

End DetectorTick.

(** ** Downbeats: every eighth accepted beat *)

Section Downbeats.
Import AudioProcessor.

Lemma downbeatsFrom_nil (n : nat) : downbeatsFrom n [].
Proof. intros i b H. destruct i; discriminate H. Qed.

Lemma downbeatsFrom_one (n : nat) (b : BeatDetectionResult.t) :
  BeatDetectionResult.downbeat b = (n mod 8 =? 0)%nat -> downbeatsFrom n [b].
Proof.
  intros Hb i b' H. destruct i as [|i]; simpl in H.
  - inversion H; subst b'. rewrite Nat.add_0_r. exact Hb.
  - destruct i; discriminate H.
Qed.

Lemma downbeatsFrom_app (n : nat) (a b : list BeatDetectionResult.t) :
  downbeatsFrom n a -> downbeatsFrom (n + length a) b ->
  downbeatsFrom n (a ++ b).
Proof.
  intros Ha Hb i x H.
  destruct (Nat.lt_ge_cases i (length a)) as [Hi|Hi].
  - rewrite nth_error_app1 in H by exact Hi. apply Ha; exact H.
  - rewrite nth_error_app2 in H by exact Hi.
    apply Hb in H. rewrite H. f_equal. f_equal. lia.
Qed.

Lemma predictiveTrigger_counts (k : Tick.t) (s : t) :
  counts s (predictiveTrigger k s).
Proof.
  unfold counts.
  destruct (predictiveTrigger_cases k s) as [E|[_ E]]; rewrite E; simpl.
  - split; [lia | apply downbeatsFrom_nil].
  - pose proof (updateBeatPrediction_frame (Tick.now k + predictionOffset)
                  (acceptPredicted (Tick.now k) s)) as F.
    cbv zeta in F. destruct F as (_ & _ & _ & _ & _ & _ & F & _).
    rewrite F. simpl. split; [lia|].
    apply downbeatsFrom_one. reflexivity.
Qed.

Lemma mainPath_counts (k : Tick.t) (s : t) : counts s (mainPath k s).
Proof.
  unfold counts.
  pose proof (detectBeat_frame (Tick.energy k) (Tick.detectNow k)
                (recordEnergy (Tick.energy k) s)) as F.
  cbv zeta in F. destruct F as (_ & _ & _ & _ & _ & F & _).
  simpl in F.
  destruct (mainPath_cases k s) as [[_ E]|[[_ E]|[(_ & _ & E)|(_ & _ & E)]]];
    rewrite E; clear E; simpl fst; simpl snd.
  - simpl. split; [lia | apply downbeatsFrom_nil].
  - rewrite F. simpl. split; [lia | apply downbeatsFrom_nil].
  - rewrite F. simpl. split; [lia | apply downbeatsFrom_nil].
  - rewrite beats_app, updateTempo_beats. simpl.
    pose proof (updateBeatPrediction_frame (Tick.stampNow k)
                  (acceptDetected (Tick.stampNow k)
                     (snd (updateTempo (Tick.stampNow k)
                             (snd (detectBeat (Tick.energy k) (Tick.detectNow k)
                                     (recordEnergy (Tick.energy k) s)))))))
      as G.
    cbv zeta in G. destruct G as (_ & _ & _ & _ & _ & _ & G & _).
    rewrite G. simpl.
    pose proof (updateTempo_frame (Tick.stampNow k)
                  (snd (detectBeat (Tick.energy k) (Tick.detectNow k)
                          (recordEnergy (Tick.energy k) s)))) as U.
    cbv zeta in U. destruct U as (_ & _ & _ & _ & U & _).
    rewrite U, F. split; [lia|].
    apply downbeatsFrom_one. reflexivity.
Qed.

Lemma processAudio_counts (k : Tick.t) (s : t) : counts s (processAudio k s).
Proof.
  unfold processAudio.
  pose proof (predictiveTrigger_counts k s) as [P1 P2].
  destruct (predictiveTrigger k s) as [cbs1 s1]. simpl in P1, P2.
  pose proof (mainPath_counts k s1) as [M1 M2].
  destruct (mainPath k s1) as [cbs2 s2]. simpl in M1, M2.
  unfold counts; simpl. rewrite beats_app, length_app. split; [lia|].
  apply downbeatsFrom_app; [exact P2|]. rewrite <- P1. exact M2.
Qed.

Lemma run_counts (ks : list Tick.t) : forall s, counts s (run s ks).
Proof.
  induction ks as [|k ks IH]; intro s; simpl.
  - unfold counts; simpl. split; [lia | apply downbeatsFrom_nil].
  - pose proof (processAudio_counts k s) as [P1 P2].
    destruct (processAudio k s) as [cbs1 s1]. simpl in P1, P2.
    pose proof (IH s1) as [R1 R2].
    destruct (run s1 ks) as [cbs2 s2]. simpl in R1, R2.
    unfold counts; simpl. rewrite beats_app, length_app. split; [lia|].
    apply downbeatsFrom_app; [exact P2|]. rewrite <- P1. exact R2.
Qed.

(** C4.  Run the detector from its start over any ticks.  The [i]-th Beat
    Event delivered, counting from 0 and counting predictive and main-path
    beats alike, has its downbeat flag set exactly when [i] is a multiple
    of 8, and the accepted-beat counter ends at the number of Beat Events
    delivered.  Within any single tick, from any state, the counter grows
    by exactly the number of Beat Events that tick delivers and each of
    them is flagged by the count at which it was delivered. *)
Theorem downbeat_iff_count_multiple_of_8 (ks : list Tick.t) :
  (beatCount (snd (run init ks)) = length (beats (fst (run init ks)))
   /\ forall i b,
        nth_error (beats (fst (run init ks))) i = Some b ->
        BeatDetectionResult.downbeat b = (i mod 8 =? 0)%nat)
  /\ (forall s k,
        beatCount (snd (processAudio k s))
        = (beatCount s + length (beats (fst (processAudio k s))))%nat
        /\ forall i b,
             nth_error (beats (fst (processAudio k s))) i = Some b ->
             BeatDetectionResult.downbeat b
             = ((beatCount s + i) mod 8 =? 0)%nat).
Proof.
  split.
  - destruct (run_counts ks init) as [H1 H2]. split; [exact H1|].
    intros i b H. apply (H2 i b H).
  - intros s k. destruct (processAudio_counts k s) as [H1 H2].
    split; [exact H1 | exact H2].
Qed.

End Downbeats.

(** ** Silence and cold start *)

Section Silence.
Import AudioProcessor.

Lemma processAudio_quiet (k : Tick.t) (s : t) :
  quietTick k -> beats (fst (processAudio k s)) = [].
Proof.
  intros [Hp He]. unfold processAudio.
  destruct (predictiveTrigger_cases k s) as [E|[F _]].
  2:{ destruct F as (_ & _ & _ & _ & F & _).
      exfalso. apply (Qlt_not_le _ _ F Hp). }
  rewrite E.
  pose proof (detectBeat_quiet (Tick.energy k) (Tick.detectNow k)
                (recordEnergy (Tick.energy k) s) He) as D.
  destruct (mainPath_cases k s) as [[_ M]|[[_ M]|[(_ & _ & M)|(C & _)]]];
    try (rewrite M; reflexivity).
  rewrite D in C. discriminate C.
Qed.

Lemma run_quiet (ks : list Tick.t) : forall s,
  Forall quietTick ks -> beats (fst (run s ks)) = [].
Proof.
  induction ks as [|k ks IH]; intros s H; simpl; [reflexivity|].
  inversion H as [|k' ks' Hk Hks]; subst.
  pose proof (processAudio_quiet k s Hk) as P.
  destruct (processAudio k s) as [cbs1 s1]. simpl in P.
  pose proof (IH s1 Hks) as R.
  destruct (run s1 ks) as [cbs2 s2]. simpl in R |- *.
  rewrite beats_app, P, R. reflexivity.
Qed.

Lemma pushCapped_below (cap : nat) (x : Q) (l : list Q) :
  (length l < cap)%nat -> pushCapped cap x l = l ++ [x].
Proof.
  intro H. unfold pushCapped.
  destruct (cap <? length (l ++ [x]))%nat eqn:E; [|reflexivity].
  apply Nat.ltb_lt in E. rewrite length_app in E. simpl in E. lia.
Qed.

(** While the window is not full a tick records its energy and does
    nothing else: no callback, no other field written. *)
Lemma processAudio_cold (k : Tick.t) (s : t) :
  (length (energyHistory s) + 1 < historySize)%nat ->
  processAudio k s
  = ([], set_energyHistory (energyHistory s ++ [Tick.energy k]) s).
Proof.
  intro H. unfold processAudio.
  destruct (predictiveTrigger_cases k s) as [E|[F _]].
  2:{ destruct F as (_ & _ & F & _). lia. }
  rewrite E.
  assert (P : pushCapped historySize (Tick.energy k) (energyHistory s)
              = energyHistory s ++ [Tick.energy k])
    by (apply pushCapped_below; lia).
  unfold mainPath, recordEnergy. rewrite P. simpl energyHistory.
  destruct (historySize <=? length (energyHistory s ++ [Tick.energy k]))%nat
    eqn:E1; [|reflexivity].
  apply Nat.leb_le in E1. rewrite length_app in E1. simpl in E1. lia.
Qed.

Lemma run_cold (ks : list Tick.t) : forall s,
  (length (energyHistory s) + length ks < historySize)%nat ->
  run s ks
  = ([], set_energyHistory (energyHistory s ++ map Tick.energy ks) s).
Proof.
  induction ks as [|k ks IH]; intros s H; simpl.
  - rewrite app_nil_r. destruct s; reflexivity.
  - simpl in H. rewrite processAudio_cold by lia.
    rewrite IH by (simpl; rewrite length_app; simpl; lia).
    simpl. rewrite <- app_assoc. reflexivity.
Qed.

(** C3.  Over ticks whose energy readings are all at or below the floor
    of 1.5, however many there are (43 or more in particular) and from
    whatever state, no Beat Event is delivered: neither the main path nor
    the predictive trigger fires.  And while the detector has seen fewer
    than 43 ticks since its start, whatever their energies, nothing is
    decided: no callback is fired and nothing but Energy History is
    written; the same holds for any single tick that leaves Energy
    History shorter than 43. *)
Theorem silence_and_cold_start_emit_nothing :
  (forall s ks, Forall quietTick ks -> beats (fst (run s ks)) = [])
  /\ (forall ks,
        (length ks < 43)%nat ->
        run init ks = ([], set_energyHistory (map Tick.energy ks) init))
  /\ (forall s k,
        (length (energyHistory s) + 1 < 43)%nat ->
        processAudio k s
        = ([], set_energyHistory (energyHistory s ++ [Tick.energy k]) s)).
Proof.
  split; [intros s ks; apply run_quiet|].
  split; [|intros s k; apply processAudio_cold].
  intros ks H. apply (run_cold ks init). simpl. exact H.
Qed.

End Silence.

(** ** The predictive trigger and the histories *)

Section PredictiveFrame.
Import AudioProcessor.

Lemma predictiveTrigger_frame (k : Tick.t) (s : t) :
  let s' := snd (predictiveTrigger k s) in
  energyHistory s' = energyHistory s
  /\ beatHistory s' = beatHistory s
  /\ previousEnergy s' = previousEnergy s
  /\ bpmHistory s' = bpmHistory s
  /\ currentStableBPM s' = currentStableBPM s.
Proof.
  destruct (predictiveTrigger_cases k s) as [E|[_ E]]; rewrite E; simpl.
  - repeat split.
  - pose proof (updateBeatPrediction_frame (Tick.now k + predictionOffset)
                  (acceptPredicted (Tick.now k) s)) as F.
    cbv zeta in F. destruct F as (F1 & F2 & F3 & F4 & F5 & _).
    rewrite F1, F2, F3, F4, F5. repeat split.
Qed.

Lemma mainPath_beatHistory (k : Tick.t) (s : t) :
  beatHistory (snd (mainPath k s)) = beatHistory s
  \/ (fst (detectBeat (Tick.energy k) (Tick.detectNow k)
             (recordEnergy (Tick.energy k) s)) = true
      /\ beatHistory (snd (mainPath k s))
         = pushCapped 15 (Tick.detectNow k) (beatHistory s)).
Proof.
  set (s1 := recordEnergy (Tick.energy k) s).
  assert (D : fst (detectBeat (Tick.energy k) (Tick.detectNow k) s1) = false
              /\ beatHistory (snd (detectBeat (Tick.energy k) (Tick.detectNow k) s1))
                 = beatHistory s
              \/ fst (detectBeat (Tick.energy k) (Tick.detectNow k) s1) = true
                 /\ beatHistory (snd (detectBeat (Tick.energy k) (Tick.detectNow k) s1))
                    = pushCapped 15 (Tick.detectNow k) (beatHistory s)).
  { destruct (detectBeat (Tick.energy k) (Tick.detectNow k) s1) as [b s2] eqn:E.
    destruct b.
    - right. apply detectBeat_true in E. destruct E as (_ & _ & _ & E).
      split; [reflexivity | exact E].
    - left. apply detectBeat_false in E. split; [reflexivity | exact E]. }
  destruct (mainPath_cases k s) as [[_ M]|[[_ M]|[(_ & _ & M)|(_ & _ & M)]]];
    fold s1 in M; rewrite M; clear M; simpl snd.
  - left. reflexivity.
  - destruct D as [[_ D]|[D1 D2]]; [left; exact D | right; split; assumption].
  - destruct D as [[_ D]|[D1 D2]]; [left; exact D | right; split; assumption].
  - pose proof (updateBeatPrediction_frame (Tick.stampNow k)
                  (acceptDetected (Tick.stampNow k)
                     (snd (updateTempo (Tick.stampNow k)
                             (snd (detectBeat (Tick.energy k) (Tick.detectNow k)
                                     s1)))))) as G.
    cbv zeta in G. destruct G as (_ & G & _). rewrite G. simpl.
    pose proof (updateTempo_frame (Tick.stampNow k)
                  (snd (detectBeat (Tick.energy k) (Tick.detectNow k) s1))) as U.
    cbv zeta in U. destruct U as (_ & U & _). rewrite U.
    destruct D as [[_ D]|[D1 D2]]; [left; exact D | right; split; assumption].
Qed.

Lemma In_pushCapped (cap : nat) (x y : Q) (l : list Q) :
  In y (pushCapped cap x l) -> y = x \/ In y l.
Proof.
  unfold pushCapped. intro H.
  assert (H' : In y (l ++ [x])).
  { destruct (cap <? length (l ++ [x]))%nat; [|exact H].
    destruct (l ++ [x]); [destruct H | right; exact H]. }
  apply in_app_or in H'. destruct H' as [H'|[H'|[]]]; [right|left]; auto.
Qed.

Lemma processAudio_beatHistory (k : Tick.t) (s : t) :
  beatHistory (snd (processAudio k s)) = beatHistory s
  \/ beatHistory (snd (processAudio k s))
     = pushCapped 15 (Tick.detectNow k) (beatHistory s).
Proof.
  unfold processAudio.
  pose proof (predictiveTrigger_frame k s) as F. cbv zeta in F.
  destruct F as (_ & F & _).
  destruct (predictiveTrigger k s) as [cbs1 s1]. simpl in F.
  pose proof (mainPath_beatHistory k s1) as M.
  destruct (mainPath k s1) as [cbs2 s2]. simpl in M |- *.
  rewrite F in M. destruct M as [M|[_ M]]; [left | right]; exact M.
Qed.

Lemma run_beatHistory_provenance (ks : list Tick.t) : forall s x,
  In x (beatHistory (snd (run s ks))) ->
  In x (beatHistory s) \/ exists k, In k ks /\ x = Tick.detectNow k.
Proof.
  induction ks as [|k ks IH]; intros s x H; simpl in H; [left; exact H|].
  pose proof (processAudio_beatHistory k s) as P.
  destruct (processAudio k s) as [cbs1 s1]. simpl in P.
  specialize (IH s1 x).
  destruct (run s1 ks) as [cbs2 s2]. simpl in H, IH.
  destruct (IH H) as [Hin|[k' [Hk' Hx]]].
  - destruct P as [P|P]; rewrite P in Hin; [left; exact Hin|].
    apply In_pushCapped in Hin. destruct Hin as [Hin|Hin]; [|left; exact Hin].
    right. exists k. split; [left; reflexivity | exact Hin].
  - right. exists k'. split; [right; exact Hk' | exact Hx].
Qed.

(** C9.  The predictive trigger leaves Beat History and BPM History (and
    Energy History, the previous energy and the stabilized tempo) as they
    were.  When it delivers its beat it writes exactly four fields: the
    last-beat time (the clock plus 250 ms), the accepted-beat counter
    (plus one), the last-predicted-trigger time (the clock) and the
    prediction for the next beat.  Hence the debounce interval is the
    same before and after it, and in any run from the start every entry
    of Beat History, from which that interval and the interval-based
    prediction are computed, is the clock that [detectBeat] read in some
    tick of the run. *)
Theorem predictive_beat_leaves_histories (k : Tick.t) (s : t) :
  (beatHistory (snd (predictiveTrigger k s)) = beatHistory s
   /\ bpmHistory (snd (predictiveTrigger k s)) = bpmHistory s
   /\ energyHistory (snd (predictiveTrigger k s)) = energyHistory s
   /\ previousEnergy (snd (predictiveTrigger k s)) = previousEnergy s
   /\ currentStableBPM (snd (predictiveTrigger k s)) = currentStableBPM s)
  /\ (beats (fst (predictiveTrigger k s)) <> [] ->
      lastBeatTime (snd (predictiveTrigger k s)) = Tick.now k + 250
      /\ beatCount (snd (predictiveTrigger k s)) = S (beatCount s)
      /\ lastPredictedBeatTime (snd (predictiveTrigger k s)) = Tick.now k
      /\ predictedNextBeatTime (snd (predictiveTrigger k s))
         = if (2 <=? length (beatHistory s))%nat
           then Tick.now k + 250 + average (intervals (beatHistory s))
           else if Qltb 0 (currentStableBPM s)
                then Tick.now k + 250 + 60000 / currentStableBPM s
                else 0)
  /\ minInterval (beatHistory (snd (predictiveTrigger k s)))
     = minInterval (beatHistory s)
  /\ (forall ks x,
        In x (beatHistory (snd (run init ks))) ->
        exists k', In k' ks /\ x = Tick.detectNow k').
Proof.
  pose proof (predictiveTrigger_frame k s) as F. cbv zeta in F.
  destruct F as (F1 & F2 & F3 & F4 & F5).
  split; [repeat split; assumption|].
  split; [|split].
  - intro H.
    destruct (predictiveTrigger_cases k s) as [E|[_ E]]; rewrite E in H |- *.
    + simpl in H. congruence.
    + simpl snd. unfold updateBeatPrediction, predictionOffset.
      change (beatHistory (acceptPredicted (Tick.now k) s))
        with (beatHistory s).
      change (currentStableBPM (acceptPredicted (Tick.now k) s))
        with (currentStableBPM s).
      destruct (2 <=? length (beatHistory s))%nat;
        [cbn; repeat split|].
      destruct (Qltb 0 (currentStableBPM s)); cbn; repeat split.
  - rewrite F2. reflexivity.
  - intros ks x H.
    destruct (run_beatHistory_provenance ks init x H) as [[]|H']. exact H'.
Qed.

End PredictiveFrame.

(** ** Debounce *)

Section Debounce.
Import AudioProcessor.

Lemma minInterval_bounds (h : list Q) :
  150 <= minInterval h /\ minInterval h <= 300.
Proof.
  unfold minInterval. destruct (2 <=? length h)%nat.
  - split.
    + apply Q.le_max_l.
    + apply Q.max_lub; [discriminate | apply Q.le_min_l].
  - split; discriminate.
Qed.

(** A main-path beat, once delivered, is the single beat of its path and
    carries the stamping clock; [detectBeat] had answered yes. *)
Lemma mainPath_delivers (k : Tick.t) (s : t) :
  beats (fst (mainPath k s)) <> [] ->
  fst (detectBeat (Tick.energy k) (Tick.detectNow k)
         (recordEnergy (Tick.energy k) s)) = true
  /\ 150 <= Tick.stampNow k - lastPredictedBeatTime s
  /\ beats (fst (mainPath k s))
     = [BeatDetectionResult.mk true (isDownbeat s) (Tick.stampNow k)
          (Tick.energy k)]
  /\ snd (mainPath k s)
     = updateBeatPrediction (Tick.stampNow k)
         (acceptDetected (Tick.stampNow k)
            (snd (updateTempo (Tick.stampNow k)
                    (snd (detectBeat (Tick.energy k) (Tick.detectNow k)
                            (recordEnergy (Tick.energy k) s)))))).
Proof.
  intro H.
  destruct (mainPath_cases k s) as [[_ M]|[[_ M]|[(_ & _ & M)|(D & G & M)]]];
    rewrite M in H |- *; simpl in H; try congruence.
  split; [exact D|]. split; [exact G|]. split; [|reflexivity].
  simpl fst. rewrite beats_app, updateTempo_beats. reflexivity.
Qed.







End Debounce.

(** ** Tempo samples *)

Section TempoSamples.
Import AudioProcessor.




Lemma updateTempo_bpmHistory (ts : Q) (s : t) :
  bpmHistory (snd (updateTempo ts s))
  = if Qltb 0 (lastBeatTime s)
       && (Qle_bool 60 (60000 / (ts - lastBeatTime s))
           && Qle_bool (60000 / (ts - lastBeatTime s)) 200)
    then bpmHistory (admitBPM (60000 / (ts - lastBeatTime s)) s)
    else bpmHistory s.
Proof.
  unfold updateTempo.
  destruct (Qltb 0 (lastBeatTime s)); [|reflexivity].
  destruct (Qle_bool 60 (60000 / (ts - lastBeatTime s))
            && Qle_bool (60000 / (ts - lastBeatTime s)) 200); [|reflexivity].
  simpl andb. cbv iota.
  pose proof (blendStableBPM_frame
                (admitBPM (60000 / (ts - lastBeatTime s)) s)) as F.
  cbv zeta in F. destruct F as (_ & _ & _ & F & _). exact F.
Qed.




End TempoSamples.

(** ** The stabilized tempo *)

(** *** Sums and means *)

Section Sums.

Lemma fold_sum_acc (l : list Q) : forall a, fold_left Qplus l a == a + sum l.
Proof.
  unfold sum.
  induction l as [|x l IH]; intro a; simpl.
  - ring.
  - rewrite (IH (a + x)), (IH (0 + x)). ring.
Qed.

Lemma sum_cons (x : Q) (l : list Q) : sum (x :: l) == x + sum l.
Proof. unfold sum at 1. simpl. rewrite fold_sum_acc. ring. Qed.

Lemma sum_app (l1 l2 : list Q) : sum (l1 ++ l2) == sum l1 + sum l2.
Proof.
  induction l1 as [|x l1 IH]; simpl.
  - unfold sum at 2. simpl. ring.
  - rewrite !sum_cons, IH. ring.
Qed.

Lemma sum_insertSorted (x : Q) (l : list Q) :
  sum (insertSorted x l) == x + sum l.
Proof.
  induction l as [|y l IH]; simpl.
  - unfold sum; simpl; ring.
  - destruct (Qle_bool x y).
    + rewrite sum_cons. reflexivity.
    + rewrite !sum_cons, IH. ring.
Qed.

Lemma sum_sortNum (l : list Q) : sum (sortNum l) == sum l.
Proof.
  induction l as [|x l IH]; simpl.
  - reflexivity.
  - rewrite sum_insertSorted, sum_cons, IH. reflexivity.
Qed.

Lemma length_insertSorted (x : Q) (l : list Q) :
  length (insertSorted x l) = S (length l).
Proof.
  induction l as [|y l IH]; simpl; [reflexivity|].
  destruct (Qle_bool x y); simpl; [reflexivity | rewrite IH; reflexivity].
Qed.

Lemma length_sortNum (l : list Q) : length (sortNum l) = length l.
Proof.
  induction l as [|x l IH]; simpl; [reflexivity|].
  rewrite length_insertSorted, IH. reflexivity.
Qed.

Lemma sum_bounds (lo hi : Q) (l : list Q) :
  Forall (fun x => lo <= x /\ x <= hi) l ->
  lo * lengthQ l <= sum l /\ sum l <= hi * lengthQ l.
Proof.
  unfold lengthQ.
  induction 1 as [|x l [Hlo Hhi] _ IH].
  - simpl. unfold sum; simpl. change (inject_Z 0) with 0. lra.
  - rewrite sum_cons. simpl length. rewrite Nat2Z.inj_succ.
    unfold Z.succ. rewrite inject_Z_plus.
    change (inject_Z 1) with 1. lra.
Qed.

End Sums.

(** *** Order statistics of the sorted BPM History *)

Section OrderStatistics.

Lemma Forall_insertSorted (P : Q -> Prop) (x : Q) (l : list Q) :
  P x -> Forall P l -> Forall P (insertSorted x l).
Proof.
  intros Hx Hl. induction Hl as [|y l Hy Hl IH]; simpl.
  - constructor; [exact Hx | constructor].
  - destruct (Qle_bool x y).
    + constructor; [exact Hx|]. constructor; assumption.
    + constructor; assumption.
Qed.

Lemma Forall_sortNum (P : Q -> Prop) (l : list Q) :
  Forall P l -> Forall P (sortNum l).
Proof.
  induction 1 as [|x l Hx Hl IH]; simpl; [constructor|].
  apply Forall_insertSorted; assumption.
Qed.

Lemma insertSorted_sorted (x : Q) (l : list Q) :
  StronglySorted Qle l -> StronglySorted Qle (insertSorted x l).
Proof.
  induction 1 as [|y l Hs IH Hy]; simpl.
  - constructor; constructor.
  - destruct (Qle_bool x y) eqn:E.
    + apply Qle_bool_iff in E.
      constructor; [constructor; assumption|].
      constructor; [exact E|].
      eapply Forall_impl; [|exact Hy].
      intros z Hz. eapply Qle_trans; eassumption.
    + apply Qle_bool_gt in E.
      constructor; [exact IH|].
      apply Forall_insertSorted; [apply Qlt_le_weak; exact E | exact Hy].
Qed.

Lemma sortNum_sorted (l : list Q) : StronglySorted Qle (sortNum l).
Proof.
  induction l as [|x l IH]; simpl; [constructor|].
  apply insertSorted_sorted; exact IH.
Qed.

Lemma countLe_insertSorted (v x : Q) (l : list Q) :
  countLe v (insertSorted x l) = countLe v (x :: l).
Proof.
  induction l as [|y l IH]; simpl; [reflexivity|].
  destruct (Qle_bool x y); simpl; [reflexivity|].
  rewrite IH. simpl. lia.
Qed.

Lemma countLe_sortNum (v : Q) (l : list Q) : countLe v (sortNum l) = countLe v l.
Proof.
  induction l as [|x l IH]; simpl; [reflexivity|].
  rewrite countLe_insertSorted. simpl. rewrite IH. reflexivity.
Qed.

Lemma countLe_app (v : Q) (l1 l2 : list Q) :
  countLe v (l1 ++ l2) = (countLe v l1 + countLe v l2)%nat.
Proof.
  induction l1 as [|x l1 IH]; simpl; [reflexivity|]. rewrite IH. lia.
Qed.

Lemma countLe_tl (v : Q) (l : list Q) :
  (countLe v l <= countLe v (tl l) + 1)%nat.
Proof.
  destruct l as [|x l]; simpl; [lia|]. destruct (Qle_bool x v); lia.
Qed.

Lemma countLe_length (v : Q) (l : list Q) : (countLe v l <= length l)%nat.
Proof.
  induction l as [|x l IH]; simpl; [lia|]. destruct (Qle_bool x v); lia.
Qed.

Lemma countLe_none (v : Q) (l : list Q) :
  Forall (fun z => v < z) l -> countLe v l = 0%nat.
Proof.
  induction 1 as [|x l Hx _ IH]; simpl; [reflexivity|].
  apply Qle_bool_gt in Hx. rewrite Hx, IH. reflexivity.
Qed.

(** In a sorted list the entry at index [i] is at most [v] as soon as
    more than [i] entries are. *)
Lemma nth_le_of_count (top v : Q) (m : list Q) :
  StronglySorted Qle m ->
  forall i, (i < countLe v m)%nat -> nth i m top <= v.
Proof.
  induction 1 as [|y m Hs IH Hy]; intros i Hi; simpl in Hi; [lia|].
  destruct (Qle_bool y v) eqn:E.
  - destruct i as [|i]; simpl.
    + apply Qle_bool_iff; exact E.
    + apply IH. lia.
  - apply Qle_bool_gt in E.
    rewrite countLe_none in Hi; [simpl in Hi; lia|].
    eapply Forall_impl; [|exact Hy].
    intros z Hz. simpl in Hz. lra.
Qed.

(** Conversely, below the padding value. *)
Lemma count_of_nth_le (top v : Q) (m : list Q) :
  StronglySorted Qle m -> v < top ->
  forall i, nth i m top <= v -> (i < countLe v m)%nat.
Proof.
  intros Hs Hv.
  induction Hs as [|y m Hs IH Hy]; intros i Hi.
  - exfalso. destruct i; simpl in Hi; lra.
  - destruct i as [|i]; simpl in Hi |- *.
    + apply Qle_bool_iff in Hi. rewrite Hi. lia.
    + specialize (IH i Hi).
      assert (Hin : (i < length m)%nat)
        by (pose proof (countLe_length v m); lia).
      assert (Hyv : y <= v).
      { rewrite Forall_forall in Hy.
        specialize (Hy (nth i m top) (nth_In m top Hin)). simpl in Hy. lra. }
      apply Qle_bool_iff in Hyv. rewrite Hyv. lia.
Qed.

Lemma nth_bounded (top : Q) (l : list Q) (i : nat) :
  Forall (fun z => z <= top) l -> nth i l top <= top.
Proof.
  intro H. destruct (Nat.lt_ge_cases i (length l)) as [Hi|Hi].
  - rewrite Forall_forall in H. apply H. apply nth_In. exact Hi.
  - rewrite nth_overflow by exact Hi. apply Qle_refl.
Qed.

(** If [h1] holds all entries of [h] but at most [k] of them, its [i]-th
    smallest entry is at most the [(i + k)]-th smallest of [h]. *)
Lemma sorted_dominated (top : Q) (h h1 : list Q) (k : nat) :
  Forall (fun z => z <= top) h1 ->
  (forall v, (countLe v h <= countLe v h1 + k)%nat) ->
  forall i, nth i (sortNum h1) top <= nth (i + k) (sortNum h) top.
Proof.
  intros Hb Hc i.
  set (v := nth (i + k) (sortNum h) top).
  destruct (Qlt_le_dec v top) as [Hv|Hv].
  - apply nth_le_of_count; [apply sortNum_sorted|].
    rewrite countLe_sortNum.
    assert (H : (i + k < countLe v (sortNum h))%nat).
    { apply (count_of_nth_le top); [apply sortNum_sorted | exact Hv|].
      apply Qle_refl. }
    rewrite countLe_sortNum in H. specialize (Hc v). lia.
  - eapply Qle_trans; [|exact Hv].
    apply nth_bounded. apply Forall_sortNum. exact Hb.
Qed.

End OrderStatistics.

(** *** The candidate tempo as a mean of order statistics *)

Section Candidate.
Import AudioProcessor.

Lemma half_spec (n : nat) : (n = 2 * (n / 2) \/ n = 2 * (n / 2) + 1)%nat.
Proof.
  pose proof (Nat.div_mod_eq n 2) as H.
  pose proof (Nat.mod_upper_bound n 2 ltac:(discriminate)) as H'.
  lia.
Qed.

Lemma firstn5 (top : Q) (l : list Q) :
  (5 <= length l)%nat ->
  firstn 5 l = [nth 0 l top; nth 1 l top; nth 2 l top; nth 3 l top; nth 4 l top].
Proof.
  intro H.
  destruct l as [|x0 [|x1 [|x2 [|x3 [|x4 l]]]]]; simpl in H; try lia.
  reflexivity.
Qed.

(** With five samples or more the candidate is the mean of the five
    entries of the sorted history that start two below the middle. *)
Lemma middleMean_window (top : Q) (h : list Q) :
  (5 <= length h)%nat ->
  let m := sortNum h in
  let a := (length h / 2 - 2)%nat in
  middleMean h
  == (nth a m top + nth (a + 1) m top + nth (a + 2) m top
      + nth (a + 3) m top + nth (a + 4) m top) * (1 # 5).
Proof.
  intros Hn m a. unfold middleMean.
  pose proof (half_spec (length h)) as Hh.
  destruct (length h =? 0)%nat eqn:E0; [apply Nat.eqb_eq in E0; lia|].
  rewrite length_sortNum.
  assert (E5 : (5 <=? length h)%nat = true) by (apply Nat.leb_le; exact Hn).
  rewrite E5.
  assert (Ea : Nat.max 0 (length h / 2 - 2) = a) by (subst a; lia).
  assert (Eb : Nat.min (length h) (length h / 2 + 3) = (a + 5)%nat)
    by (subst a; lia).
  rewrite Ea, Eb. unfold slice.
  replace (a + 5 - a)%nat with 5%nat by lia.
  fold m.
  assert (Hl : (5 <= length (skipn a m))%nat).
  { rewrite length_skipn. subst m. rewrite length_sortNum. subst a. lia. }
  rewrite (firstn5 top _ Hl), !nth_skipn.
  rewrite Nat.add_0_r.
  unfold average, lengthQ, sum. simpl.
  unfold Qdiv. change (/ inject_Z 5) with (1 # 5). ring.
Qed.

Lemma middleMean_small (h : list Q) :
  (0 < length h < 5)%nat ->
  middleMean h == sum h / lengthQ h.
Proof.
  intros Hn. unfold middleMean.
  destruct (length h =? 0)%nat eqn:E0; [apply Nat.eqb_eq in E0; lia|].
  rewrite length_sortNum.
  assert (E5 : (5 <=? length h)%nat = false) by (apply Nat.leb_gt; lia).
  rewrite E5. unfold average, lengthQ.
  rewrite length_sortNum, sum_sortNum. reflexivity.
Qed.

Lemma middleMean_five (h : list Q) :
  length h = 5%nat -> middleMean h == sum h * (1 # 5).
Proof.
  intro Hn.
  pose proof (middleMean_window 0 h ltac:(lia)) as E. cbv zeta in E.
  rewrite Hn in E. change (5 / 2 - 2)%nat with 0%nat in E. simpl Nat.add in E.
  rewrite E, <- (sum_sortNum h).
  pose proof (length_sortNum h) as Hl. rewrite Hn in Hl.
  destruct (sortNum h) as [|x0 [|x1 [|x2 [|x3 [|x4 [|x5 l]]]]]];
    simpl in Hl; try discriminate Hl.
  unfold sum. simpl. ring.
Qed.

Lemma nth_sortNum_range (top : Q) (h : list Q) (i : nat) :
  Forall inTempoRange h -> (i < length h)%nat ->
  inTempoRange (nth i (sortNum h) top).
Proof.
  intros Hr Hi.
  apply (Forall_sortNum _ _) in Hr. rewrite Forall_forall in Hr.
  apply Hr. apply nth_In. rewrite length_sortNum. exact Hi.
Qed.

Lemma range_upper (h : list Q) :
  Forall inTempoRange h -> Forall (fun z => z <= 200) h.
Proof.
  apply Forall_impl. intros z [_ H]. exact H.
Qed.

(** The candidate lies within the range of the samples. *)
Lemma middleMean_range (h : list Q) :
  Forall inTempoRange h -> (0 < length h)%nat -> inTempoRange (middleMean h).
Proof.
  intros Hr Hn.
  destruct (Nat.lt_ge_cases (length h) 5) as [H5|H5].
  - unfold inTempoRange. rewrite middleMean_small by lia.
    destruct (sum_bounds 60 200 h Hr) as [Hlo Hhi].
    assert (Hpos : 0 < lengthQ h).
    { unfold lengthQ. change 0 with (inject_Z 0). rewrite <- Zlt_Qlt. lia. }
    split.
    + apply Qle_shift_div_l; assumption.
    + apply Qle_shift_div_r; assumption.
  - pose proof (middleMean_window 200 h H5) as E. cbv zeta in E.
    set (a := (length h / 2 - 2)%nat) in *.
    pose proof (half_spec (length h)) as Hh.
    assert (Ha : (a + 4 < length h)%nat) by (subst a; lia).
    destruct (nth_sortNum_range 200 h a Hr ltac:(lia)) as [L0 U0].
    destruct (nth_sortNum_range 200 h (a + 1) Hr ltac:(lia)) as [L1 U1].
    destruct (nth_sortNum_range 200 h (a + 2) Hr ltac:(lia)) as [L2 U2].
    destruct (nth_sortNum_range 200 h (a + 3) Hr ltac:(lia)) as [L3 U3].
    destruct (nth_sortNum_range 200 h (a + 4) Hr ltac:(lia)) as [L4 U4].
    unfold inTempoRange. rewrite E. split; lra.
Qed.

End Candidate.

Section Push.
Import AudioProcessor.

Lemma pushCapped_full (cap : nat) (x : Q) (l : list Q) :
  length l = cap -> (0 < cap)%nat -> pushCapped cap x l = tl l ++ [x].
Proof.
  intros Hl Hc. unfold pushCapped.
  assert (E : (cap <? length (l ++ [x]))%nat = true).
  { apply Nat.ltb_lt. rewrite length_app. simpl. lia. }
  rewrite E. destruct l as [|y l]; [simpl in Hl; lia | reflexivity].
Qed.

Lemma Forall_pushCapped (P : Q -> Prop) (cap : nat) (x : Q) (l : list Q) :
  Forall P l -> P x -> Forall P (pushCapped cap x l).
Proof.
  intros Hl Hx. unfold pushCapped.
  assert (H : Forall P (l ++ [x])).
  { apply Forall_app. split; [exact Hl | constructor; [exact Hx | constructor]]. }
  destruct (cap <? length (l ++ [x]))%nat; [|exact H].
  destruct (l ++ [x]); [constructor | inversion H; assumption].
Qed.

Lemma length_pushCapped (cap : nat) (x : Q) (l : list Q) :
  (length l <= cap)%nat ->
  length (pushCapped cap x l) = Nat.min (S (length l)) cap.
Proof.
  intro H. unfold pushCapped.
  destruct (cap <? length (l ++ [x]))%nat eqn:E.
  - apply Nat.ltb_lt in E.
    assert (L : length (tl (l ++ [x])) = length l).
    { destruct l as [|y l]; [reflexivity|].
      change (tl ((y :: l) ++ [x])) with (l ++ [x]).
      rewrite length_app. simpl. lia. }
    rewrite L. rewrite length_app in E. simpl in E. lia.
  - apply Nat.ltb_ge in E. rewrite length_app in E |- *.
    change (length [x]) with 1%nat in *. lia.
Qed.

Lemma countLe_pushCapped (cap : nat) (v x : Q) (l : list Q) :
  (countLe v l <= countLe v (pushCapped cap x l) + 1)%nat.
Proof.
  unfold pushCapped.
  pose proof (countLe_app v l [x]) as A.
  destruct (cap <? length (l ++ [x]))%nat.
  - pose proof (countLe_tl v (l ++ [x])). lia.
  - lia.
Qed.

End Push.

Section Rise.
Import AudioProcessor.

(** One admission moves the five-entry window by at most one place, so
    the candidate rises by at most (200 - 60) / 5. *)
Lemma window_rises_slowly (h : list Q) (x : Q) :
  Forall inTempoRange h -> inTempoRange x ->
  (5 <= length h <= 20)%nat ->
  middleMean (pushCapped 20 x h) <= middleMean h + 28.
Proof.
  intros Hr Hx Hn.
  set (h1 := pushCapped 20 x h).
  assert (Hr1 : Forall inTempoRange h1) by (apply Forall_pushCapped; assumption).
  assert (Hl1 : length h1 = Nat.min (S (length h)) 20)
    by (apply length_pushCapped; lia).
  pose proof (middleMean_window 200 h ltac:(lia)) as E.
  pose proof (middleMean_window 200 h1 ltac:(lia)) as E1.
  cbv zeta in E, E1.
  set (a := (length h / 2 - 2)%nat) in *.
  set (a1 := (length h1 / 2 - 2)%nat) in *.
  set (m := sortNum h) in *. set (m1 := sortNum h1) in *.
  pose proof (half_spec (length h)) as Hh.
  pose proof (half_spec (length h1)) as Hh1.
  assert (Hdom : forall t, nth (a1 + t) m1 200 <= nth (a + t + 1) m 200).
  { intro t.
    destruct (Nat.eq_dec a1 a) as [Ea|Ea].
    - rewrite Ea.
      apply (sorted_dominated 200 h h1 1); [apply range_upper; exact Hr1|].
      intro v. apply countLe_pushCapped.
    - assert (Hlt : (length h < 20)%nat) by (subst a a1; lia).
      assert (Ea1 : a1 = (a + 1)%nat) by (subst a a1; lia).
      rewrite Ea1.
      replace (a + t + 1)%nat with (a + 1 + t + 0)%nat by lia.
      apply (sorted_dominated 200 h h1 0); [apply range_upper; exact Hr1|].
      intro v. subst h1. rewrite pushCapped_below by exact Hlt.
      rewrite countLe_app. lia. }
  pose proof (Hdom 0%nat) as D0. pose proof (Hdom 1%nat) as D1.
  pose proof (Hdom 2%nat) as D2. pose proof (Hdom 3%nat) as D3.
  pose proof (Hdom 4%nat) as D4.
  rewrite !Nat.add_0_r in D0.
  replace (a + 1 + 1)%nat with (a + 2)%nat in D1 by lia.
  replace (a + 2 + 1)%nat with (a + 3)%nat in D2 by lia.
  replace (a + 3 + 1)%nat with (a + 4)%nat in D3 by lia.
  replace (a + 4 + 1)%nat with (a + 5)%nat in D4 by lia.
  destruct (nth_sortNum_range 200 h a Hr ltac:(subst a; lia)) as [L0 _].
  fold m in L0.
  assert (U5 : nth (a + 5) m 200 <= 200).
  { apply nth_bounded. apply Forall_sortNum. apply range_upper. exact Hr. }
  rewrite E, E1. lra.
Qed.

End Rise.

Section Smoothing.
Import AudioProcessor.

Lemma blend_zero (c m : Q) : c == 0 -> blend c m = m.
Proof.
  intro H. unfold blend. apply Qeq_bool_iff in H. rewrite H. reflexivity.
Qed.

Lemma blend_nonzero (c m : Q) : ~ c == 0 -> blend c m = c * 0.8 + m * 0.2.
Proof.
  intro H. unfold blend.
  destruct (Qeq_bool c 0) eqn:E; [|reflexivity].
  apply Qeq_bool_iff in E. contradiction.
Qed.

(** One smoothing step towards a candidate that has risen by at most 28
    keeps the tempo in range and kept up, and moves it by at most a fifth
    of itself. *)
Lemma keptUp_step (c m m1 : Q) :
  inTempoRange c -> keptUp c m -> inTempoRange m1 -> m1 <= m + 28 ->
  inTempoRange (c * 0.8 + m1 * 0.2)
  /\ keptUp (c * 0.8 + m1 * 0.2) m1
  /\ Qabs (c * 0.8 + m1 * 0.2 - c) <= 0.2 * c.
Proof.
  unfold inTempoRange, keptUp.
  intros [Hc1 Hc2] (K1 & K2 & K3) [Hm1 Hm2] Hr.
  split; [split; lra|]. split; [repeat split; lra|].
  apply Qabs_Qle_condition. split; lra.
Qed.

(** The step after the tempo was established on three samples. *)
Lemma keptUp_first (c m m1 x : Q) :
  c == m -> inTempoRange m -> inTempoRange x -> m1 == (3 * m + x) * (1 # 4) ->
  inTempoRange (c * 0.8 + m1 * 0.2)
  /\ keptUp (c * 0.8 + m1 * 0.2) m1
  /\ Qabs (c * 0.8 + m1 * 0.2 - c) <= 0.2 * c.
Proof.
  unfold inTempoRange, keptUp.
  intros Hc [Hm1 Hm2] [Hx1 Hx2] E.
  split; [split; lra|]. split; [repeat split; lra|].
  apply Qabs_Qle_condition. split; lra.
Qed.

Lemma sum_snoc (h : list Q) (x : Q) : sum (h ++ [x]) == sum h + x.
Proof. rewrite sum_app. unfold sum at 2. simpl. ring. Qed.

Lemma middleMean_three (h : list Q) :
  length h = 3%nat -> middleMean h == sum h * (1 # 3).
Proof.
  intro H. rewrite middleMean_small by lia. unfold lengthQ. rewrite H.
  unfold Qdiv. change (/ inject_Z (Z.of_nat 3)) with (1 # 3). reflexivity.
Qed.

Lemma middleMean_four (h : list Q) :
  length h = 4%nat -> middleMean h == sum h * (1 # 4).
Proof.
  intro H. rewrite middleMean_small by lia. unfold lengthQ. rewrite H.
  unfold Qdiv. change (/ inject_Z (Z.of_nat 4)) with (1 # 4). reflexivity.
Qed.

End Smoothing.

Section TempoInvariant.
Import AudioProcessor.

Lemma tempoInv_init : tempoInv [] 0.
Proof.
  unfold tempoInv. simpl.
  split; [constructor|]. split; [lia|]. split; [reflexivity|].
  split; [discriminate | lia].
Qed.

Lemma in_range_nonzero (c : Q) : inTempoRange c -> ~ c == 0.
Proof. intros [H _] E. rewrite E in H. apply (Qlt_not_le 0 60); [reflexivity | exact H]. Qed.

(** Admitting a sample in range. *)
Lemma tempo_admit (h : list Q) (c x : Q) :
  tempoInv h c -> inTempoRange x ->
  let h1 := pushCapped 20 x h in
  let c1 := if (3 <=? length h1)%nat then blend c (middleMean h1) else c in
  tempoInv h1 c1 /\ (~ c == 0 -> Qabs (c1 - c) <= 0.2 * c).
Proof.
  intros (Hr & Hlen & H2 & H3 & H4) Hx h1 c1.
  assert (Hr1 : Forall inTempoRange h1) by (apply Forall_pushCapped; assumption).
  assert (Hl1 : length h1 = Nat.min (S (length h)) 20)
    by (apply length_pushCapped; exact Hlen).
  assert (Hm1 : inTempoRange (middleMean h1))
    by (apply middleMean_range; [exact Hr1 | lia]).
  unfold tempoInv.
  destruct (Nat.lt_ge_cases (length h) 2) as [Hn|Hn];
    [|destruct (Nat.eq_dec (length h) 2) as [Hn2|Hn2];
      [|destruct (Nat.eq_dec (length h) 3) as [Hn3|Hn3]]].
  - (* fewer than three samples afterwards *)
    assert (E : (3 <=? length h1)%nat = false) by (apply Nat.leb_gt; lia).
    subst c1. rewrite E.
    split; [|intro Hc; exfalso; apply Hc, H2; lia].
    split; [exact Hr1|]. split; [lia|]. split; [intros _; apply H2; lia|].
    split; intro; lia.
  - (* the third sample establishes the tempo *)
    assert (E : (3 <=? length h1)%nat = true) by (apply Nat.leb_le; lia).
    assert (Hc : c == 0) by (apply H2; lia).
    subst c1. rewrite E, (blend_zero _ _ Hc).
    split; [|intro Hc'; contradiction].
    split; [exact Hr1|]. split; [lia|]. split; [intro; lia|].
    split; [intros _; reflexivity | intro; lia].
  - (* the fourth sample *)
    assert (E : (3 <=? length h1)%nat = true) by (apply Nat.leb_le; lia).
    assert (Hc : c == middleMean h) by (apply H3; exact Hn3).
    assert (Hm : inTempoRange (middleMean h))
      by (apply middleMean_range; [exact Hr | lia]).
    assert (Hnz : ~ c == 0).
    { intro Z. rewrite Z in Hc. apply (in_range_nonzero _ Hm). symmetry. exact Hc. }
    assert (Eh : h1 = h ++ [x]) by (apply pushCapped_below; lia).
    assert (Em : middleMean h1 == (3 * middleMean h + x) * (1 # 4)).
    { rewrite (middleMean_four h1) by lia.
      rewrite (middleMean_three h) by exact Hn3.
      rewrite Eh, sum_snoc. ring. }
    destruct (keptUp_first c _ _ x Hc Hm Hx Em) as (K1 & K2 & K3).
    subst c1. rewrite E, (blend_nonzero _ _ Hnz).
    split; [|intros _; exact K3].
    split; [exact Hr1|]. split; [lia|]. split; [intro; lia|].
    split; [intro; lia | intros _; split; assumption].
  - (* four samples or more before *)
    assert (Hn4 : (4 <= length h)%nat) by lia.
    assert (E : (3 <=? length h1)%nat = true) by (apply Nat.leb_le; lia).
    destruct (H4 Hn4) as [Hc Hk].
    assert (Hm : inTempoRange (middleMean h))
      by (apply middleMean_range; [exact Hr | lia]).
    assert (Hrise : middleMean h1 <= middleMean h + 28).
    { destruct (Nat.eq_dec (length h) 4) as [Hn'|Hn'].
      - assert (Eh : h1 = h ++ [x]) by (apply pushCapped_below; lia).
        rewrite (middleMean_five h1) by lia.
        rewrite Eh, sum_snoc.
        pose proof (middleMean_four h Hn') as E4.
        destruct Hm as [Hm _]. destruct Hx as [_ Hx]. lra.
      - apply window_rises_slowly; [assumption | assumption | lia]. }
    destruct (keptUp_step c _ _ Hc Hk Hm1 Hrise) as (K1 & K2 & K3).
    subst c1. rewrite E, (blend_nonzero _ _ (in_range_nonzero _ Hc)).
    split; [|intros _; exact K3].
    split; [exact Hr1|]. split; [lia|]. split; [intro; lia|].
    split; [intro; lia | intros _; split; assumption].
Qed.

(** Rejecting an outlier: the history stays, the tempo still moves. *)
Lemma tempo_reject (h : list Q) (c : Q) :
  tempoInv h c -> (5 <= length h)%nat ->
  let c1 := blend c (middleMean h) in
  tempoInv h c1 /\ (~ c == 0 -> Qabs (c1 - c) <= 0.2 * c).
Proof.
  intros (Hr & Hlen & H2 & H3 & H4) Hn c1.
  destruct (H4 ltac:(lia)) as [Hc Hk].
  assert (Hm : inTempoRange (middleMean h))
    by (apply middleMean_range; [exact Hr | lia]).
  assert (Hrise : middleMean h <= middleMean h + 28) by lra.
  destruct (keptUp_step c _ _ Hc Hk Hm Hrise) as (K1 & K2 & K3).
  subst c1. rewrite (blend_nonzero _ _ (in_range_nonzero _ Hc)).
  split; [|intros _; exact K3].
  split; [exact Hr|]. split; [exact Hlen|]. split; [intro; lia|].
  split; [intro; lia | intros _; split; assumption].
Qed.

End TempoInvariant.

(** *** The invariant along a run *)

Section TempoRun.
Import AudioProcessor.

Lemma tempoInv_range (h : list Q) (c : Q) :
  tempoInv h c -> ~ c == 0 -> inTempoRange c.
Proof.
  intros (Hr & Hlen & H2 & H3 & H4) Hc.
  destruct (Nat.lt_ge_cases (length h) 3) as [Hn|Hn];
    [exfalso; apply Hc, H2; exact Hn|].
  destruct (Nat.eq_dec (length h) 3) as [Hn3|Hn3].
  - pose proof (middleMean_range h Hr ltac:(lia)) as [M1 M2].
    specialize (H3 Hn3). unfold inTempoRange. rewrite H3. split; assumption.
  - apply H4. lia.
Qed.

Lemma tempoInv_still (h : list Q) (c : Q) :
  tempoInv h c -> ~ c == 0 -> Qabs (c - c) <= 0.2 * c.
Proof.
  intros H Hc. destruct (tempoInv_range h c H Hc) as [Hlo _].
  apply Qabs_Qle_condition. split; lra.
Qed.

Lemma tempoStepOk_same (s s' : t) :
  tempoInv (bpmHistory s) (currentStableBPM s) ->
  bpmHistory s' = bpmHistory s -> currentStableBPM s' = currentStableBPM s ->
  tempoStepOk s s'.
Proof.
  intros H Eh Ec. unfold tempoStepOk. rewrite Eh, Ec.
  split; [exact H|]. split; [apply (tempoInv_still _ _ H) | left; reflexivity].
Qed.

Lemma blend_after_admit (bpm : Q) (s : t) :
  tempoInv (bpmHistory s) (currentStableBPM s) -> inTempoRange bpm ->
  tempoStepOk s
    (snd (blendStableBPM
            (set_bpmHistory (pushCapped bpmHistorySize bpm (bpmHistory s)) s))).
Proof.
  intros H Hx.
  destruct (tempo_admit _ _ bpm H Hx) as [A1 A2]. cbv zeta in A1, A2.
  unfold blendStableBPM, bpmHistorySize.
  change (bpmHistory (set_bpmHistory (pushCapped 20 bpm (bpmHistory s)) s))
    with (pushCapped 20 bpm (bpmHistory s)).
  destruct (3 <=? length (pushCapped 20 bpm (bpmHistory s)))%nat;
    unfold tempoStepOk; cbn.
  - split; [exact A1|]. split; [exact A2 | right; reflexivity].
  - split; [exact A1|]. split; [exact A2 | left; reflexivity].
Qed.

Lemma blend_after_reject (s : t) :
  tempoInv (bpmHistory s) (currentStableBPM s) ->
  (5 <= length (bpmHistory s))%nat ->
  tempoStepOk s (snd (blendStableBPM s)).
Proof.
  intros H Hn.
  destruct (tempo_reject _ _ H Hn) as [R1 R2]. cbv zeta in R1, R2.
  unfold blendStableBPM.
  assert (E3 : (3 <=? length (bpmHistory s))%nat = true)
    by (apply Nat.leb_le; lia).
  rewrite E3. unfold tempoStepOk. cbn.
  split; [exact R1|]. split; [exact R2 | right; reflexivity].
Qed.

Lemma updateTempo_tempo (ts : Q) (s : t) :
  tempoInv (bpmHistory s) (currentStableBPM s) ->
  tempoStepOk s (snd (updateTempo ts s)).
Proof.
  intro H. unfold updateTempo.
  destruct (Qltb 0 (lastBeatTime s));
    [|apply tempoStepOk_same; [exact H | reflexivity | reflexivity]].
  set (bpm := 60000 / (ts - lastBeatTime s)).
  destruct (Qle_bool 60 bpm && Qle_bool bpm 200) eqn:E;
    [|apply tempoStepOk_same; [exact H | reflexivity | reflexivity]].
  apply andb_true_iff in E. destruct E as [E1 E2].
  apply Qle_bool_iff in E1, E2.
  assert (Hx : inTempoRange bpm) by (split; assumption).
  unfold admitBPM.
  destruct ((5 <=? length (bpmHistory s))%nat && Qltb 0 (currentStableBPM s))
    eqn:Eo; [|apply blend_after_admit; assumption].
  destruct (Qltb (currentStableBPM s * 0.4) (Qabs (bpm - currentStableBPM s)));
    [|apply blend_after_admit; assumption].
  apply blend_after_reject; [exact H|].
  apply andb_true_iff in Eo. destruct Eo as [Eo _].
  apply Nat.leb_le in Eo. exact Eo.
Qed.

Lemma mainPath_tempo (k : Tick.t) (s : t) :
  tempoInv (bpmHistory s) (currentStableBPM s) ->
  tempoStepOk s (snd (mainPath k s)).
Proof.
  intro H.
  pose proof (detectBeat_frame (Tick.energy k) (Tick.detectNow k)
                (recordEnergy (Tick.energy k) s)) as F.
  cbv zeta in F. destruct F as (_ & _ & F3 & F4 & _). simpl in F3, F4.
  set (s2 := snd (detectBeat (Tick.energy k) (Tick.detectNow k)
                    (recordEnergy (Tick.energy k) s))) in *.
  destruct (mainPath_cases k s) as [[_ M]|[[_ M]|[(_ & _ & M)|(_ & _ & M)]]];
    fold s2 in M; rewrite M; clear M; simpl snd.
  - apply tempoStepOk_same; [exact H | reflexivity | reflexivity].
  - apply tempoStepOk_same; assumption.
  - apply tempoStepOk_same; assumption.
  - assert (H2 : tempoInv (bpmHistory s2) (currentStableBPM s2))
      by (rewrite F3, F4; exact H).
    pose proof (updateTempo_tempo (Tick.stampNow k) s2 H2) as U.
    pose proof (updateBeatPrediction_frame (Tick.stampNow k)
                  (acceptDetected (Tick.stampNow k)
                     (snd (updateTempo (Tick.stampNow k) s2)))) as G.
    cbv zeta in G. destruct G as (_ & _ & _ & G4 & G5 & _).
    simpl in G4, G5.
    unfold tempoStepOk in U |- *. unfold calculateStableBPM in U |- *.
    rewrite G4, G5. rewrite F4 in U. exact U.
Qed.

Lemma processAudio_tempo (k : Tick.t) (s : t) :
  tempoInv (bpmHistory s) (currentStableBPM s) ->
  tempoStepOk s (snd (processAudio k s)).
Proof.
  intro H. unfold processAudio.
  pose proof (predictiveTrigger_frame k s) as F. cbv zeta in F.
  destruct F as (_ & _ & _ & F4 & F5).
  destruct (predictiveTrigger k s) as [cbs1 s1]. simpl in F4, F5.
  assert (H1 : tempoInv (bpmHistory s1) (currentStableBPM s1))
    by (rewrite F4, F5; exact H).
  pose proof (mainPath_tempo k s1 H1) as M.
  destruct (mainPath k s1) as [cbs2 s2]. simpl in M |- *.
  unfold tempoStepOk in M |- *. rewrite F5 in M. exact M.
Qed.

Lemma run_tempoInv (ks : list Tick.t) : forall s,
  tempoInv (bpmHistory s) (currentStableBPM s) ->
  tempoInv (bpmHistory (snd (run s ks))) (currentStableBPM (snd (run s ks))).
Proof.
  induction ks as [|k ks IH]; intros s H; simpl; [exact H|].
  pose proof (processAudio_tempo k s H) as [P _].
  destruct (processAudio k s) as [cbs1 s1]. simpl in P.
  specialize (IH s1 P).
  destruct (run s1 ks) as [cbs2 s2]. exact IH.
Qed.

Lemma reachable_tempoInv (s : t) :
  reachable s -> tempoInv (bpmHistory s) (currentStableBPM s).
Proof.
  intros [ks <-]. apply run_tempoInv. apply tempoInv_init.
Qed.

(** C5.  In a state the detector can reach, and after any further tick:
    the stabilized tempo, once no longer 0, lies within 60..200; the tick
    moves a tempo that was not 0 by at most 20 percent of its value; and
    the tick either leaves the tempo as it was or blends it with the
    candidate computed from BPM History, setting it to the candidate when
    it was 0 and to [stable x 0.8 + candidate x 0.2] otherwise. *)
Theorem stabilized_tempo_bounded_and_smooth (s : t) (k : Tick.t) :
  reachable s ->
  (~ currentStableBPM s == 0 ->
   60 <= currentStableBPM s /\ currentStableBPM s <= 200)
  /\ (~ currentStableBPM (snd (processAudio k s)) == 0 ->
      60 <= currentStableBPM (snd (processAudio k s))
      /\ currentStableBPM (snd (processAudio k s)) <= 200)
  /\ (~ currentStableBPM s == 0 ->
      Qabs (currentStableBPM (snd (processAudio k s)) - currentStableBPM s)
      <= 0.2 * currentStableBPM s)
  /\ (currentStableBPM (snd (processAudio k s)) = currentStableBPM s
      \/ (currentStableBPM s == 0
          /\ currentStableBPM (snd (processAudio k s))
             = calculateStableBPM (snd (processAudio k s)))
      \/ (~ currentStableBPM s == 0
          /\ currentStableBPM (snd (processAudio k s))
             = currentStableBPM s * 0.8
               + calculateStableBPM (snd (processAudio k s)) * 0.2)).
Proof.
  intro R. pose proof (reachable_tempoInv s R) as H.
  destruct (processAudio_tempo k s H) as (P1 & P2 & P3).
  split; [apply (tempoInv_range _ _ H)|].
  split; [apply (tempoInv_range _ _ P1)|].
  split; [exact P2|].
  destruct P3 as [P3|P3]; [left; exact P3 | right].
  destruct (Qeq_dec (currentStableBPM s) 0) as [Z|Z].
  - left. split; [exact Z|]. rewrite P3. apply blend_zero. exact Z.
  - right. split; [exact Z|]. rewrite P3. apply blend_nonzero. exact Z.
Qed.

End TempoRun.

(** ** Beat History keeps its distance *)

Section Gaps.
Import AudioProcessor.

Lemma intervals_snoc (h : list Q) (x : Q) :
  h <> [] -> intervals (h ++ [x]) = intervals h ++ [x - last h 0].
Proof.
  induction h as [|a h IH]; intro Hne; [congruence|].
  destruct h as [|b h]; [reflexivity|].
  change (intervals ((a :: b :: h) ++ [x]))
    with ((b - a) :: intervals ((b :: h) ++ [x])).
  rewrite IH by discriminate. reflexivity.
Qed.

Lemma intervals_tl (h : list Q) : intervals (tl h) = tl (intervals h).
Proof.
  destruct h as [|a [|b h]]; reflexivity.
Qed.

Lemma length_intervals (h : list Q) :
  length (intervals h) = (length h - 1)%nat.
Proof.
  induction h as [|a h IH]; [reflexivity|].
  destruct h as [|b h]; [reflexivity|].
  change (intervals (a :: b :: h)) with ((b - a) :: intervals (b :: h)).
  simpl length in *. rewrite IH. lia.
Qed.

Lemma gapsOk_pushCapped (cap : nat) (x : Q) (h : list Q) :
  gapsOk h -> (h <> [] -> 150 <= x - last h 0) ->
  gapsOk (pushCapped cap x h).
Proof.
  intros Hg Hx. unfold gapsOk, pushCapped in *.
  assert (H : Forall (fun d => 150 <= d) (intervals (h ++ [x]))).
  { destruct h as [|a h]; [constructor|].
    rewrite intervals_snoc by discriminate.
    apply Forall_app. split; [exact Hg|].
    constructor; [apply Hx; discriminate | constructor]. }
  destruct (cap <? length (h ++ [x]))%nat; [|exact H].
  rewrite intervals_tl.
  destruct (intervals (h ++ [x])); [constructor | inversion H; assumption].
Qed.

Lemma processAudio_gapsOk (k : Tick.t) (s : t) :
  gapsOk (beatHistory s) -> gapsOk (beatHistory (snd (processAudio k s))).
Proof.
  intro H. unfold processAudio.
  pose proof (predictiveTrigger_frame k s) as F. cbv zeta in F.
  destruct F as (_ & F & _).
  destruct (predictiveTrigger k s) as [cbs1 s1]. simpl in F.
  pose proof (mainPath_beatHistory k s1) as M.
  destruct (mainPath k s1) as [cbs2 s2]. simpl in M |- *.
  rewrite F in M.
  destruct M as [M|[D M]]; rewrite M; [exact H|].
  destruct (detectBeat (Tick.energy k) (Tick.detectNow k)
              (recordEnergy (Tick.energy k) s1)) as [b s3] eqn:E.
  simpl in D. subst b.
  apply detectBeat_true in E. destruct E as (_ & _ & E & _).
  simpl in E. rewrite F in E.
  apply gapsOk_pushCapped; [exact H|].
  intro Hne. specialize (E Hne).
  destruct (minInterval_bounds (beatHistory s)) as [B _]. lra.
Qed.

Lemma reachable_gapsOk (s : t) : reachable s -> gapsOk (beatHistory s).
Proof.
  intros [ks <-].
  assert (G : forall s0, gapsOk (beatHistory s0) ->
                         gapsOk (beatHistory (snd (run s0 ks)))).
  { induction ks as [|k ks IH]; intros s0 H; simpl; [exact H|].
    pose proof (processAudio_gapsOk k s0 H) as P.
    destruct (processAudio k s0) as [cbs1 s1]. simpl in P.
    specialize (IH s1 P). destruct (run s1 ks) as [cbs2 s2]. exact IH. }
  apply G. constructor.
Qed.

Lemma sum_lower (lo : Q) (l : list Q) :
  Forall (fun x => lo <= x) l -> lo * lengthQ l <= sum l.
Proof.
  unfold lengthQ.
  induction 1 as [|x l Hlo _ IH].
  - simpl. unfold sum; simpl. change (inject_Z 0) with 0. lra.
  - rewrite sum_cons. simpl length. rewrite Nat2Z.inj_succ.
    unfold Z.succ. rewrite inject_Z_plus.
    change (inject_Z 1) with 1. lra.
Qed.

Lemma average_lower (lo : Q) (l : list Q) :
  l <> [] -> Forall (fun x => lo <= x) l -> lo <= average l.
Proof.
  intros Hne H. unfold average.
  apply Qle_shift_div_l; [|apply sum_lower; exact H].
  unfold lengthQ. change 0 with (inject_Z 0). rewrite <- Zlt_Qlt.
  destruct l; [congruence | simpl; lia].
Qed.

(** In a reachable state a prediction, when there is one, lies at least
    150 ms after the beat it is made from. *)
Lemma prediction_distance (ts : Q) (s : t) :
  gapsOk (beatHistory s) ->
  tempoInv (bpmHistory s) (currentStableBPM s) ->
  predictedNextBeatTime (updateBeatPrediction ts s) == 0
  \/ ts + 150 <= predictedNextBeatTime (updateBeatPrediction ts s).
Proof.
  intros G T. unfold updateBeatPrediction.
  destruct (2 <=? length (beatHistory s))%nat eqn:E2.
  - right. cbn. apply Nat.leb_le in E2.
    assert (A : 150 <= average (intervals (beatHistory s))).
    { apply average_lower; [|exact G].
      intro Z. apply (f_equal (@length Q)) in Z.
      rewrite length_intervals in Z. simpl in Z. lia. }
    lra.
  - destruct (Qltb 0 (currentStableBPM s)) eqn:E3; [|left; cbn; reflexivity].
    right. cbn. apply Qltb_lt in E3.
    assert (Hnz : ~ currentStableBPM s == 0) by (intro Z; rewrite Z in E3; lra).
    destruct (tempoInv_range _ _ T Hnz) as [_ Hhi].
    assert (A : 300 <= 60000 / currentStableBPM s)
      by (apply Qle_shift_div_l; [exact E3 | lra]).
    lra.
Qed.

End Gaps.

(** ** A main-path beat right after a predictive trigger *)

Section Suppression.
Import AudioProcessor.

(** Within 150 ms of the last predictive trigger the main path delivers
    nothing and leaves the trigger time and the prediction alone. *)
Lemma mainPath_within_guard (k : Tick.t) (s : t) :
  Tick.stampNow k - lastPredictedBeatTime s < 150 ->
  fst (mainPath k s) = []
  /\ lastPredictedBeatTime (snd (mainPath k s)) = lastPredictedBeatTime s
  /\ predictedNextBeatTime (snd (mainPath k s)) = predictedNextBeatTime s.
Proof.
  intro H.
  pose proof (detectBeat_frame (Tick.energy k) (Tick.detectNow k)
                (recordEnergy (Tick.energy k) s)) as F.
  cbv zeta in F. destruct F as (_ & _ & _ & _ & _ & _ & F7 & F8).
  simpl in F7, F8.
  destruct (mainPath_cases k s) as [[_ M]|[[_ M]|[(_ & _ & M)|(_ & G & _)]]];
    [| | |lra]; rewrite M; simpl; repeat split; assumption.
Qed.

(** C7.  When [detectBeat] answers yes and the stamping clock is less
    than 150 ms after the last predictive trigger, the main path fires no
    callback; the energy sample has nevertheless entered Energy History,
    it is remembered as the previous energy and the detection time has
    entered Beat History, while the tempo fields, the last-beat time and
    the accepted-beat counter are untouched.  And when, in a reachable
    state, the predictive trigger fires in one tick and the clocks of
    that tick and of the next stay within 150 ms of the trigger, the two
    ticks together deliver exactly one Beat Event, the predictive one,
    whether or not the main path detects a beat of its own. *)
Theorem main_beat_suppressed_near_predictive_trigger :
  (forall k s,
     fst (detectBeat (Tick.energy k) (Tick.detectNow k)
            (recordEnergy (Tick.energy k) s)) = true ->
     Tick.stampNow k - lastPredictedBeatTime s < 150 ->
     fst (mainPath k s) = []
     /\ energyHistory (snd (mainPath k s))
        = pushCapped 43 (Tick.energy k) (energyHistory s)
     /\ previousEnergy (snd (mainPath k s)) = Tick.energy k
     /\ beatHistory (snd (mainPath k s))
        = pushCapped 15 (Tick.detectNow k) (beatHistory s)
     /\ bpmHistory (snd (mainPath k s)) = bpmHistory s
     /\ currentStableBPM (snd (mainPath k s)) = currentStableBPM s
     /\ lastBeatTime (snd (mainPath k s)) = lastBeatTime s
     /\ beatCount (snd (mainPath k s)) = beatCount s)
  /\ (forall s k1 k2,
        reachable s ->
        predictiveFires k1 s ->
        Tick.stampNow k1 - Tick.now k1 < 150 ->
        Tick.now k2 <= Tick.stampNow k2 ->
        Tick.stampNow k2 - Tick.now k1 < 150 ->
        beats (fst (run s [k1; k2]))
        = [BeatDetectionResult.mk true (isDownbeat s) (Tick.now k1 + 250)
             (Tick.predEnergy k1)]).
Proof.
  split.
  - intros k s D H.
    pose proof (detectBeat_frame (Tick.energy k) (Tick.detectNow k)
                  (recordEnergy (Tick.energy k) s)) as F.
    cbv zeta in F. destruct F as (F1 & F2 & F3 & F4 & F5 & F6 & _).
    simpl in F1, F3, F4, F5, F6.
    destruct (mainPath_cases k s) as [[C M]|[[C M]|[(_ & _ & M)|(_ & G & _)]]].
    + exfalso.
      destruct (detectBeat (Tick.energy k) (Tick.detectNow k)
                  (recordEnergy (Tick.energy k) s)) as [b s2] eqn:E.
      simpl in D. subst b. apply detectBeat_true in E.
      destruct E as (E & _). lia.
    + rewrite D in C. discriminate C.
    + rewrite M. simpl fst. simpl snd.
      destruct (detectBeat (Tick.energy k) (Tick.detectNow k)
                  (recordEnergy (Tick.energy k) s)) as [b s2] eqn:E.
      simpl in D. subst b. apply detectBeat_true in E.
      destruct E as (_ & _ & _ & E). simpl in *.
      repeat split; assumption.
    + lra.
  - intros s k1 k2 R P H1 Hc H2.
    pose proof (reachable_gapsOk s R) as G.
    pose proof (reachable_tempoInv s R) as T.
    simpl. unfold processAudio.
    destruct (predictiveTrigger_cases k1 s) as [E|[_ E]].
    { exfalso. unfold predictiveTrigger in E.
      destruct P as (P1 & P2 & P3 & P4 & P5 & P6).
      apply Qltb_lt in P1, P4, P5, P6. apply Qle_bool_iff in P2.
      apply Nat.leb_le in P3.
      rewrite P1, P2, P3, P4, P5, P6 in E. simpl in E. discriminate E. }
    rewrite E. clear E.
    set (s1 := updateBeatPrediction (Tick.now k1 + predictionOffset)
                 (acceptPredicted (Tick.now k1) s)).
    pose proof (updateBeatPrediction_frame (Tick.now k1 + predictionOffset)
                  (acceptPredicted (Tick.now k1) s)) as F.
    cbv zeta in F. fold s1 in F. destruct F as (_ & _ & _ & _ & _ & _ & _ & F8).
    simpl in F8.
    assert (D : predictedNextBeatTime s1 == 0
                \/ Tick.now k1 + predictionOffset + 150
                   <= predictedNextBeatTime s1).
    { apply prediction_distance; assumption. }
    destruct (mainPath_within_guard k1 s1 ltac:(rewrite F8; exact H1))
      as (M1 & M2 & M3).
    destruct (mainPath k1 s1) as [cbs2 s2]. simpl in M1, M2, M3. subst cbs2.
    assert (E2 : predictiveTrigger k2 s2 = ([], s2)).
    { destruct (predictiveTrigger_cases k2 s2) as [E2|[(Q1 & Q2 & _) _]];
        [exact E2|].
      exfalso. rewrite M3 in Q1, Q2. unfold predictionOffset in *.
      destruct D as [D|D]; [rewrite D in Q1; lra | lra]. }
    rewrite E2.
    destruct (mainPath_within_guard k2 s2 ltac:(rewrite M2, F8; exact H2))
      as (N1 & _).
    destruct (mainPath k2 s2) as [cbs3 s3]. simpl in N1. subst cbs3.
    reflexivity.
Qed.

End Suppression.

(** ** The theorems at work on the example session *)

Section Examples.
Import AudioProcessor.



(** 43 ticks at exactly 1.5: the window average passes the silence gate,
    yet no beat is delivered. *)
Lemma silence_and_cold_start_emit_nothing_witness :
  Forall quietTick Scenario.silence
  /\ (43 <= length Scenario.silence)%nat
  /\ beats (fst (run init Scenario.silence)) = [].
Proof.
  assert (H : Forall quietTick Scenario.silence).
  { apply Forall_forall. intros k Hk.
    unfold Scenario.silence in Hk. apply in_map_iff in Hk.
    destruct Hk as [i [<- _]]. split; simpl; apply Qle_refl. }
  split; [exact H|]. split; [vm_compute; lia|].
  exact (proj1 silence_and_cold_start_emit_nothing init Scenario.silence H).
Defined.

(** The first beat of the session is a downbeat, the second is not. *)
Lemma downbeat_iff_count_multiple_of_8_witness :
  nth_error (beats (fst (run init Scenario.predicted))) 0
  = Some (BeatDetectionResult.mk true true 2000 10)
  /\ BeatDetectionResult.downbeat (BeatDetectionResult.mk true true 2000 10)
     = (0 mod 8 =? 0)%nat
  /\ beatCount (snd (run init Scenario.predicted)) = 3%nat.
Proof.
  assert (H : nth_error (beats (fst (run init Scenario.predicted))) 0
              = Some (BeatDetectionResult.mk true true 2000 10))
    by (vm_compute; reflexivity).
  split; [exact H|]. split.
  - exact (proj2 (proj1 (downbeat_iff_count_multiple_of_8 Scenario.predicted))
             0%nat _ H).
  - rewrite (proj1 (proj1 (downbeat_iff_count_multiple_of_8
                             Scenario.predicted))).
    vm_compute. reflexivity.
Defined.

(** 120 beats per minute established; a beat 400 ms after the last one
    brings the sample 150 and moves the tempo to 121.2. *)
Lemma stabilized_tempo_bounded_and_smooth_witness :
  reachable Scenario.afterSteady
  /\ currentStableBPM Scenario.afterSteady == 120
  /\ currentStableBPM (snd (processAudio (Scenario.loud 4400)
                              Scenario.afterSteady)) == 121.2
  /\ Qabs (currentStableBPM (snd (processAudio (Scenario.loud 4400)
                                    Scenario.afterSteady))
           - currentStableBPM Scenario.afterSteady)
     <= 0.2 * currentStableBPM Scenario.afterSteady.
Proof.
  assert (R : reachable Scenario.afterSteady)
    by (exists Scenario.steady; unfold Scenario.afterSteady; reflexivity).
  split; [exact R|].
  split; [vm_compute; reflexivity|].
  split; [vm_compute; reflexivity|].
  destruct (stabilized_tempo_bounded_and_smooth Scenario.afterSteady
              (Scenario.loud 4400) R) as (_ & _ & T & _).
  apply T. vm_compute. discriminate.
Defined.

(** The predictive trigger fires at 2750 ms; the main path detects a beat
    at 2840 ms and is silenced; the two ticks deliver one Beat Event. *)
Lemma main_beat_suppressed_near_predictive_trigger_witness :
  reachable Scenario.afterTwoBeats
  /\ predictiveFires (Scenario.early 2750) Scenario.afterTwoBeats
  /\ fst (detectBeat 10 2840 (recordEnergy 10 Scenario.afterPrediction)) = true
  /\ fst (mainPath (Scenario.loud 2840) Scenario.afterPrediction) = []
  /\ beats (fst (run Scenario.afterTwoBeats
                   [Scenario.early 2750; Scenario.loud 2840]))
     = [BeatDetectionResult.mk true (isDownbeat Scenario.afterTwoBeats)
          (2750 + 250) 10].
Proof.
  assert (R : reachable Scenario.afterTwoBeats)
    by (exists Scenario.twoBeats; unfold Scenario.afterTwoBeats; reflexivity).
  assert (P : predictiveFires (Scenario.early 2750) Scenario.afterTwoBeats).
  { unfold predictiveFires.
    split; [apply Qltb_lt; vm_compute; reflexivity|].
    split; [apply Qle_bool_iff; vm_compute; reflexivity|].
    split; [vm_compute; lia|].
    split; [apply Qltb_lt; vm_compute; reflexivity|].
    split; apply Qltb_lt; vm_compute; reflexivity. }
  assert (D : fst (detectBeat (Tick.energy (Scenario.loud 2840))
                     (Tick.detectNow (Scenario.loud 2840))
                     (recordEnergy (Tick.energy (Scenario.loud 2840))
                        Scenario.afterPrediction)) = true)
    by (vm_compute; reflexivity).
  assert (G : Tick.stampNow (Scenario.loud 2840)
              - lastPredictedBeatTime Scenario.afterPrediction < 150)
    by (apply Qltb_lt; vm_compute; reflexivity).
  split; [exact R|]. split; [exact P|]. split; [exact D|]. split.
  - exact (proj1 (proj1 main_beat_suppressed_near_predictive_trigger
                    (Scenario.loud 2840) Scenario.afterPrediction D G)).
  - apply (proj2 main_beat_suppressed_near_predictive_trigger
             Scenario.afterTwoBeats (Scenario.early 2750)
             (Scenario.loud 2840) R P).
    + reflexivity.
    + apply Qle_refl.
    + reflexivity.
Defined.

(** The predictive beat of the session: stamped 3000, counted as the
    third beat, and Beat History still holds the two main-path
    detections. *)
Lemma predictive_beat_leaves_histories_witness :
  beats (fst (predictiveTrigger (Scenario.early 2750) Scenario.afterTwoBeats))
  <> []
  /\ lastBeatTime (snd (predictiveTrigger (Scenario.early 2750)
                          Scenario.afterTwoBeats)) == 3000
  /\ beatCount (snd (predictiveTrigger (Scenario.early 2750)
                       Scenario.afterTwoBeats)) = 3%nat
  /\ beatHistory (snd (predictiveTrigger (Scenario.early 2750)
                         Scenario.afterTwoBeats))
     = beatHistory Scenario.afterTwoBeats.
Proof.
  assert (H : beats (fst (predictiveTrigger (Scenario.early 2750)
                            Scenario.afterTwoBeats)) <> [])
    by (vm_compute; discriminate).
  pose proof (predictive_beat_leaves_histories (Scenario.early 2750)
                Scenario.afterTwoBeats) as T.
  destruct T as ((T1 & _) & T2 & _).
  destruct (T2 H) as (L & C & _).
  split; [exact H|]. split; [rewrite L; reflexivity|].
  split; [rewrite C; reflexivity | exact T1].
Defined.

(** A downbeat-hinted beat on a fresh tracker; [getState] right after. *)
Lemma getState_never_claims_downbeat_witness :
  BeatCounterState.isDownbeat
    (fst (BeatCounter.updateBeat true 1000 None BeatCounter.init)) = true
  /\ BeatCounterState.isDownbeat
       (BeatCounter.getState
          (snd (BeatCounter.updateBeat true 1000 None BeatCounter.init)))
     = false.
Proof.
  exact (proj1 (proj2 (getState_never_claims_downbeat BeatCounter.init))
           1000 None).
Defined.

(** A short session of the tracker. *)
Lemma cycle_state_always_well_formed_witness :
  Forall cycleStateOk
    (fst (BeatCounter.run BeatCounter.init
            [BeatCounter.OpUpdateBeat true 1000 None;
             BeatCounter.OpUpdateBeat false 1500 None;
             BeatCounter.OpGetState;
             BeatCounter.OpReset;
             BeatCounter.OpUpdateBeat false 2000 (Some 120)])).
Proof.
  exact (proj1 (cycle_state_always_well_formed _)).
Defined.

End Examples.

(** ** The weighted energy of a frame *)

Section FrameEnergy.
Import Analyser.

Lemma binWeight_cases (w : Q) (i : nat) :
  binWeight w i = 3 \/ binWeight w i = 1.5 \/ binWeight w i = 0.5.
Proof.
  unfold binWeight.
  destruct (Qle_bool 40 (inject_Z (Z.of_nat i) * w)
            && Qle_bool (inject_Z (Z.of_nat i) * w) 120); [left; reflexivity|].
  destruct (Qle_bool 120 (inject_Z (Z.of_nat i) * w)
            && Qle_bool (inject_Z (Z.of_nat i) * w) 200);
    [right; left | right; right]; reflexivity.
Qed.

Lemma binWeight_pos (w : Q) (i : nat) : 0.5 <= binWeight w i.
Proof.
  destruct (binWeight_cases w i) as [E|[E|E]]; rewrite E; discriminate.
Qed.

(** The loop adds, to the energy, between [lo] and [hi] times what it
    adds to the total weight, and to the total weight at least half the
    number of bins. *)
Lemma accumulate_bounds (w : Q) (lo hi : Z) (dataArray : list Z) :
  Forall (fun d => (lo <= d <= hi)%Z) dataArray ->
  forall i e0 w0,
    let r := accumulate w i dataArray (e0, w0) in
    inject_Z lo * (snd r - w0) <= fst r - e0
    /\ fst r - e0 <= inject_Z hi * (snd r - w0)
    /\ 0.5 * lengthQ dataArray <= snd r - w0.
Proof.
  induction 1 as [|d rest [Hlo Hhi] _ IH]; intros i e0 w0; simpl.
  - unfold lengthQ. simpl. change (inject_Z 0) with 0. repeat split; lra.
  - specialize (IH (S i) (e0 + inject_Z d * binWeight w i)
                   (w0 + binWeight w i)).
    cbv zeta in IH. destruct IH as (I1 & I2 & I3).
    set (r := accumulate w (S i) rest
                (e0 + inject_Z d * binWeight w i, w0 + binWeight w i)) in *.
    pose proof (binWeight_pos w i) as Hw.
    rewrite Zle_Qle in Hlo, Hhi.
    assert (L : lengthQ (d :: rest) == lengthQ rest + 1).
    { unfold lengthQ. simpl length. rewrite Nat2Z.inj_succ.
      unfold Z.succ. rewrite inject_Z_plus. reflexivity. }
    rewrite L. repeat split; nra.
Qed.

Lemma weighted_energy_bounds_lemma
        (sampleRate : Q) (lo hi : Z) (dataArray : list Z) :
  dataArray <> [] ->
  Forall (fun d => (lo <= d <= hi)%Z) dataArray ->
  inject_Z lo <= weightedEnergy sampleRate dataArray
  /\ weightedEnergy sampleRate dataArray <= inject_Z hi.
Proof.
  intros Hne H. unfold weightedEnergy.
  pose proof (accumulate_bounds (sampleRate / 2 / lengthQ dataArray) lo hi
                dataArray H 0%nat 0 0) as B.
  cbv zeta in B.
  destruct (accumulate (sampleRate / 2 / lengthQ dataArray) 0 dataArray (0, 0))
    as [energy totalWeight].
  simpl in B. destruct B as (B1 & B2 & B3).
  assert (Hl : 1 <= lengthQ dataArray).
  { unfold lengthQ. change 1 with (inject_Z 1). rewrite <- Zle_Qle.
    destruct dataArray; [congruence | simpl length; lia]. }
  assert (Hw : 0 < totalWeight) by lra.
  split.
  - apply Qle_shift_div_l; [exact Hw | lra].
  - apply Qle_shift_div_r; [exact Hw | lra].
Qed.

(** X1.  The weighted energy of a non-empty frame, at whatever sample
    rate, lies between the smallest and the largest byte of the frame: the
    weights cancel in the normalisation.  In particular a frame whose bytes
    all equal [c] has energy exactly [c]. *)
Theorem weighted_energy_within_frame_range
        (sampleRate : Q) (dataArray : list Z) :
  dataArray <> [] ->
  (forall lo hi,
     Forall (fun d => (lo <= d <= hi)%Z) dataArray ->
     inject_Z lo <= weightedEnergy sampleRate dataArray
     /\ weightedEnergy sampleRate dataArray <= inject_Z hi)
  /\ (forall c,
        Forall (fun d => d = c) dataArray ->
        weightedEnergy sampleRate dataArray == inject_Z c).
Proof.
  intro Hne. split.
  - intros lo hi H. apply weighted_energy_bounds_lemma; assumption.
  - intros c H.
    destruct (weighted_energy_bounds_lemma sampleRate c c dataArray Hne)
      as [L U].
    + eapply Forall_impl; [|exact H]. intros d ->. simpl. lia.
    + apply Qle_antisym; assumption.
Qed.

Lemma bool_eq_iff (b1 b2 : bool) : (b1 = true <-> b2 = true) -> b1 = b2.
Proof. destruct b1, b2; intros [H1 H2]; auto; symmetry; auto. Qed.

Lemma binWidth_default : 44100 / 2 / 1024 == 11025 # 512.
Proof. reflexivity. Qed.

Lemma bin_threshold (lo : Z) (a : Q) (i : nat) :
  inject_Z (lo - 1) * (11025 # 512) < a -> a <= inject_Z lo * (11025 # 512) ->
  (Qle_bool a (inject_Z (Z.of_nat i) * (44100 / 2 / 1024)) = (lo <=? Z.of_nat i)%Z).
Proof.
  intros H1 H2. apply bool_eq_iff.
  rewrite Qle_bool_iff, Z.leb_le, binWidth_default.
  split; intro H.
  - destruct (Z_le_gt_dec lo (Z.of_nat i)) as [L|G]; [exact L|].
    exfalso. assert (G' : (Z.of_nat i <= lo - 1)%Z) by lia.
    rewrite Zle_Qle in G'. nra.
  - rewrite Zle_Qle in H. nra.
Qed.

Lemma bin_ceiling (hi : Z) (b : Q) (i : nat) :
  inject_Z hi * (11025 # 512) <= b -> b < inject_Z (hi + 1) * (11025 # 512) ->
  (Qle_bool (inject_Z (Z.of_nat i) * (44100 / 2 / 1024)) b = (Z.of_nat i <=? hi)%Z).
Proof.
  intros H1 H2. apply bool_eq_iff.
  rewrite Qle_bool_iff, Z.leb_le, binWidth_default.
  split; intro H.
  - destruct (Z_le_gt_dec (Z.of_nat i) hi) as [L|G]; [exact L|].
    exfalso. assert (G' : (hi + 1 <= Z.of_nat i)%Z) by lia.
    rewrite Zle_Qle in G'. nra.
  - rewrite Zle_Qle in H. nra.
Qed.

(** X2.  With the settings of [start] (44100 Hz, FFT size 2048, hence
    1024 bins, each 11025/512 Hz wide) the loop weighs bins 2 to 5 by 3,
    bins 6 to 9 by 1.5 and every other bin, bins 0 and 1 included, by
    0.5. *)
Theorem bin_weights_at_default_settings (i : nat) :
  binWeight (44100 / 2 / 1024) i
  = if (2 <=? i)%nat && (i <=? 5)%nat then 3
    else if (6 <=? i)%nat && (i <=? 9)%nat then 1.5
    else 0.5.
Proof.
  unfold binWeight.
  rewrite (bin_threshold 2 40 i) by (vm_compute; first [reflexivity | discriminate]).
  rewrite (bin_ceiling 5 120 i) by (vm_compute; first [reflexivity | discriminate]).
  rewrite (bin_threshold 6 120 i) by (vm_compute; first [reflexivity | discriminate]).
  rewrite (bin_ceiling 9 200 i) by (vm_compute; first [reflexivity | discriminate]).
  destruct (2 <=? Z.of_nat i)%Z eqn:A1; destruct (Z.of_nat i <=? 5)%Z eqn:A2;
    destruct (6 <=? Z.of_nat i)%Z eqn:A3; destruct (Z.of_nat i <=? 9)%Z eqn:A4;
    destruct (2 <=? i)%nat eqn:B1; destruct (i <=? 5)%nat eqn:B2;
    destruct (6 <=? i)%nat eqn:B3; destruct (i <=? 9)%nat eqn:B4;
    try reflexivity; exfalso;
    rewrite ?Z.leb_le, ?Z.leb_gt, ?Nat.leb_le, ?Nat.leb_gt in *; lia.
Qed.

End FrameEnergy.

(** ** The histories along a run *)

Section Histories.
Import AudioProcessor.

Lemma mainPath_energyHistory (k : Tick.t) (s : t) :
  energyHistory (snd (mainPath k s))
  = pushCapped historySize (Tick.energy k) (energyHistory s).
Proof.
  pose proof (detectBeat_frame (Tick.energy k) (Tick.detectNow k)
                (recordEnergy (Tick.energy k) s)) as F.
  cbv zeta in F. destruct F as (F1 & _). simpl in F1.
  destruct (mainPath_cases k s) as [[_ M]|[[_ M]|[(_ & _ & M)|(_ & _ & M)]]];
    rewrite M; simpl snd; try exact F1; [reflexivity|].
  pose proof (updateBeatPrediction_frame (Tick.stampNow k)
                (acceptDetected (Tick.stampNow k)
                   (snd (updateTempo (Tick.stampNow k)
                           (snd (detectBeat (Tick.energy k) (Tick.detectNow k)
                                   (recordEnergy (Tick.energy k) s)))))))
    as G.
  cbv zeta in G. destruct G as (G & _). rewrite G. simpl.
  pose proof (updateTempo_frame (Tick.stampNow k)
                (snd (detectBeat (Tick.energy k) (Tick.detectNow k)
                        (recordEnergy (Tick.energy k) s)))) as U.
  cbv zeta in U. destruct U as (U & _). rewrite U. exact F1.
Qed.

Lemma processAudio_energyHistory (k : Tick.t) (s : t) :
  energyHistory (snd (processAudio k s))
  = pushCapped historySize (Tick.energy k) (energyHistory s).
Proof.
  unfold processAudio.
  pose proof (predictiveTrigger_frame k s) as F. cbv zeta in F.
  destruct F as (F & _).
  destruct (predictiveTrigger k s) as [cbs1 s1]. simpl in F.
  pose proof (mainPath_energyHistory k s1) as M.
  destruct (mainPath k s1) as [cbs2 s2]. simpl in M |- *.
  rewrite M, F. reflexivity.
Qed.

Lemma lastN_all {A : Type} (n : nat) (l : list A) :
  (length l <= n)%nat -> lastN n l = l.
Proof.
  intro H. unfold lastN. replace (length l - n)%nat with 0%nat by lia.
  reflexivity.
Qed.

Lemma length_lastN {A : Type} (n : nat) (l : list A) :
  length (lastN n l) = Nat.min n (length l).
Proof. unfold lastN. rewrite length_skipn. lia. Qed.

Lemma lastN_snoc {A : Type} (n : nat) (l : list A) (x : A) :
  lastN (S n) (l ++ [x]) = lastN n l ++ [x].
Proof.
  unfold lastN. rewrite length_app. simpl length.
  replace (length l + 1 - S n)%nat with (length l - n)%nat by lia.
  rewrite skipn_app.
  replace (length l - n - length l)%nat with 0%nat by lia.
  reflexivity.
Qed.

Lemma tl_skipn {A : Type} (m : nat) : forall l : list A,
  tl (skipn m l) = skipn (S m) l.
Proof.
  induction m as [|m IH]; intros [|x l]; try reflexivity.
  simpl skipn at 1. rewrite IH. destruct l; reflexivity.
Qed.

(** Pushing onto the last [cap] entries keeps the last [cap] entries. *)
Lemma pushCapped_lastN (cap : nat) (l : list Q) (x : Q) :
  (0 < cap)%nat ->
  pushCapped cap x (lastN cap l) = lastN cap (l ++ [x]).
Proof.
  intro Hc. destruct cap as [|n]; [lia|].
  destruct (Nat.lt_ge_cases (length l) (S n)) as [H|H].
  - rewrite (lastN_all (S n) l) by lia.
    rewrite pushCapped_below by exact H.
    rewrite lastN_all; [reflexivity|]. rewrite length_app. simpl. lia.
  - rewrite pushCapped_full;
      [|rewrite length_lastN; lia | lia].
    rewrite lastN_snoc. f_equal.
    unfold lastN. rewrite tl_skipn. f_equal. lia.
Qed.

Lemma run_energyHistory (ks : list Tick.t) : forall s l,
  energyHistory s = lastN historySize l ->
  energyHistory (snd (run s ks))
  = lastN historySize (l ++ map Tick.energy ks).
Proof.
  induction ks as [|k ks IH]; intros s l H; simpl.
  - rewrite app_nil_r. exact H.
  - pose proof (processAudio_energyHistory k s) as P.
    destruct (processAudio k s) as [cbs1 s1]. simpl in P.
    specialize (IH s1 (l ++ [Tick.energy k])).
    destruct (run s1 ks) as [cbs2 s2]. simpl in IH |- *.
    rewrite <- app_assoc in IH. apply IH.
    rewrite P, H. apply pushCapped_lastN. unfold historySize. lia.
Qed.

(** X5.  After any run from the start, Energy History is exactly the
    main-path energies of the last 43 ticks, oldest first (all of them
    while fewer than 43 ticks have run): every tick records its energy,
    whether or not a beat is delivered. *)
Theorem energy_history_is_sliding_window (ks : list Tick.t) :
  energyHistory (snd (run init ks)) = lastN 43 (map Tick.energy ks).
Proof.
  apply (run_energyHistory ks init []). reflexivity.
Qed.

End Histories.

(** ** The capacities of the histories, and what the prediction uses *)

Section Capacities.
Import AudioProcessor.

Lemma length_pushCapped_le (cap : nat) (x : Q) (l : list Q) :
  (length (pushCapped cap x l) <= S (length l))%nat.
Proof.
  unfold pushCapped.
  assert (L : length (l ++ [x]) = S (length l))
    by (rewrite length_app; simpl; lia).
  destruct (cap <? length (l ++ [x]))%nat; [|lia].
  destruct (l ++ [x]); simpl in *; lia.
Qed.

Lemma updateTempo_length (ts : Q) (s : t) :
  (length (bpmHistory (snd (updateTempo ts s))) <= S (length (bpmHistory s)))%nat.
Proof.
  rewrite updateTempo_bpmHistory.
  destruct (Qltb 0 (lastBeatTime s)
            && (Qle_bool 60 (60000 / (ts - lastBeatTime s))
                && Qle_bool (60000 / (ts - lastBeatTime s)) 200)); [|lia].
  unfold admitBPM.
  destruct ((5 <=? length (bpmHistory s))%nat && Qltb 0 (currentStableBPM s));
    [destruct (Qltb (currentStableBPM s * 0.4)
                 (Qabs (60000 / (ts - lastBeatTime s) - currentStableBPM s)))|];
    simpl; try lia; apply length_pushCapped_le.
Qed.

(** What the main path does to the two beat-driven histories. *)
Lemma mainPath_histories (k : Tick.t) (s : t) :
  (beatHistory (snd (mainPath k s)) = beatHistory s
   /\ bpmHistory (snd (mainPath k s)) = bpmHistory s)
  \/ (beatHistory (snd (mainPath k s))
      = pushCapped 15 (Tick.detectNow k) (beatHistory s)
      /\ (length (bpmHistory (snd (mainPath k s)))
          <= S (length (bpmHistory s)))%nat).
Proof.
  pose proof (detectBeat_frame (Tick.energy k) (Tick.detectNow k)
                (recordEnergy (Tick.energy k) s)) as F.
  cbv zeta in F. destruct F as (_ & _ & F3 & _). simpl in F3.
  set (r := detectBeat (Tick.energy k) (Tick.detectNow k)
              (recordEnergy (Tick.energy k) s)) in *.
  assert (D : fst r = true ->
              beatHistory (snd r) = pushCapped 15 (Tick.detectNow k) (beatHistory s)).
  { intro E. destruct r as [b s2] eqn:Er. simpl in E. subst b.
    apply detectBeat_true in Er. destruct Er as (_ & _ & _ & Er). exact Er. }
  assert (N : fst r = false -> beatHistory (snd r) = beatHistory s).
  { intro E. destruct r as [b s2] eqn:Er. simpl in E. subst b.
    apply detectBeat_false in Er. exact Er. }
  destruct (mainPath_cases k s) as [[C M]|[[C M]|[(C & _ & M)|(C & _ & M)]]];
    fold r in M, C; rewrite M; simpl snd.
  - left. split; reflexivity.
  - left. split; [apply N; exact C | exact F3].
  - right. split; [apply D; exact C | rewrite F3; lia].
  - right.
    pose proof (updateBeatPrediction_frame (Tick.stampNow k)
                  (acceptDetected (Tick.stampNow k)
                     (snd (updateTempo (Tick.stampNow k) (snd r))))) as G.
    cbv zeta in G. destruct G as (_ & G2 & _ & G4 & _). rewrite G2, G4. simpl.
    pose proof (updateTempo_frame (Tick.stampNow k) (snd r)) as U.
    cbv zeta in U. destruct U as (_ & U & _). rewrite U.
    split; [apply D; exact C|].
    pose proof (updateTempo_length (Tick.stampNow k) (snd r)) as L.
    rewrite F3 in L. exact L.
Qed.

Lemma processAudio_paced (k : Tick.t) (s : t) :
  historiesPaced s -> historiesPaced (snd (processAudio k s)).
Proof.
  intros [H1 H2]. unfold processAudio.
  pose proof (predictiveTrigger_frame k s) as F. cbv zeta in F.
  destruct F as (_ & F2 & _ & F4 & _).
  destruct (predictiveTrigger k s) as [cbs1 s1]. simpl in F2, F4.
  pose proof (mainPath_histories k s1) as M.
  destruct (mainPath k s1) as [cbs2 s2]. simpl in M |- *.
  rewrite F2, F4 in M. unfold historiesPaced.
  destruct M as [[M1 M2]|[M1 M2]]; rewrite M1.
  - rewrite M2. split; assumption.
  - rewrite (length_pushCapped 15 _ _ H1). split; [lia|].
    destruct H2 as [H2|H2]; [|right; lia].
    destruct (Nat.eq_dec (length (beatHistory s)) 15); [right; lia | left; lia].
Qed.

Lemma reachable_paced (s : t) : reachable s -> historiesPaced s.
Proof.
  intros [ks <-].
  assert (G : forall s0, historiesPaced s0 -> historiesPaced (snd (run s0 ks))).
  { induction ks as [|k ks IH]; intros s0 H; simpl; [exact H|].
    pose proof (processAudio_paced k s0 H) as P.
    destruct (processAudio k s0) as [cbs1 s1]. simpl in P.
    specialize (IH s1 P). destruct (run s1 ks) as [cbs2 s2]. exact IH. }
  apply G. unfold historiesPaced. simpl. split; [lia | left; lia].
Qed.

(** X4.  In every state the detector reaches from its start, Energy
    History holds at most 43 entries, Beat History at most 15 and BPM
    History at most 20. *)
Theorem histories_never_exceed_capacity (s : t) :
  reachable s ->
  (length (energyHistory s) <= 43)%nat
  /\ (length (beatHistory s) <= 15)%nat
  /\ (length (bpmHistory s) <= 20)%nat.
Proof.
  intro R. split; [|split].
  - destruct R as [ks <-].
    rewrite (run_energyHistory ks init []) by reflexivity.
    rewrite length_lastN. unfold historySize. lia.
  - apply (reachable_paced s R).
  - apply (reachable_tempoInv s R).
Qed.

(** X9.  In every reachable state with a stabilized tempo other than 0,
    Beat History holds at least three entries, so that [updateBeatPrediction]
    predicts from the mean interval of Beat History; its branch on the
    stabilized tempo is never the one taken there. *)
Theorem prediction_always_from_beat_history (s : t) (ts : Q) :
  reachable s -> ~ currentStableBPM s == 0 ->
  (3 <= length (beatHistory s))%nat
  /\ updateBeatPrediction ts s
     = set_predictedNextBeatTime
         (ts + average (intervals (beatHistory s))) s.
Proof.
  intros R Hc.
  destruct (reachable_paced s R) as [P1 P2].
  destruct (reachable_tempoInv s R) as (_ & _ & T & _).
  assert (L : (3 <= length (bpmHistory s))%nat).
  { destruct (Nat.lt_ge_cases (length (bpmHistory s)) 3) as [H|H]; [|exact H].
    exfalso. apply Hc, T, H. }
  assert (B : (3 <= length (beatHistory s))%nat) by lia.
  split; [exact B|].
  unfold updateBeatPrediction.
  assert (E : (2 <=? length (beatHistory s))%nat = true)
    by (apply Nat.leb_le; lia).
  rewrite E. reflexivity.
Qed.

Lemma nth_intervals (h : list Q) : forall i,
  (S i < length h)%nat ->
  nth i (intervals h) 0 = nth (S i) h 0 - nth i h 0.
Proof.
  induction h as [|a h IH]; intros i Hi; [simpl in Hi; lia|].
  destruct h as [|b h]; [simpl in Hi; lia|].
  change (intervals (a :: b :: h)) with ((b - a) :: intervals (b :: h)).
  destruct i as [|i]; [reflexivity|].
  change (nth (S i) ((b - a) :: intervals (b :: h)) 0)
    with (nth i (intervals (b :: h)) 0).
  rewrite IH by (simpl in Hi |- *; lia). reflexivity.
Qed.

(** X12.  In every reachable state, consecutive entries of Beat History
    are at least 150 ms apart, in increasing order, up to the rounding
    tolerance of 0.001 ms. *)
Theorem beat_history_entries_150ms_apart (s : t) (i : nat) :
  reachable s -> (S i < length (beatHistory s))%nat ->
  nth i (beatHistory s) 0 + 150 - roundingTolerance
  <= nth (S i) (beatHistory s) 0.
Proof.
  intros R Hi.
  pose proof (reachable_gapsOk s R) as G. unfold gapsOk in G.
  rewrite Forall_forall in G.
  assert (Hin : In (nth i (intervals (beatHistory s)) 0)
                   (intervals (beatHistory s))).
  { apply nth_In. rewrite length_intervals. lia. }
  specialize (G _ Hin). rewrite nth_intervals in G by exact Hi.
  unfold roundingTolerance. lra.
Qed.

End Capacities.

(** ** A steady signal *)

Section Steady.
Import AudioProcessor.

Lemma detectBeat_above_mean (e now : Q) (s s' : t) :
  detectBeat e now s = (true, s') -> average (energyHistory s) < e.
Proof.
  unfold detectBeat.
  destruct (length (energyHistory s) <? historySize)%nat; [discriminate|].
  destruct (Qltb (average (energyHistory s)) minEnergyThreshold);
    [discriminate|].
  destruct (beatCandidate s e (average (energyHistory s))) eqn:E.
  2:{ rewrite !andb_false_l. intro H. inversion H. }
  intros _. unfold beatCandidate, exceedsSqrt in E.
  apply andb_true_iff in E. destruct E as [E _].
  apply andb_true_iff in E. destruct E as [_ E].
  apply andb_true_iff in E. destruct E as [E _].
  apply Qltb_lt in E. exact E.
Qed.

Lemma sum_all_eq (e : Q) (l : list Q) :
  Forall (fun x => x == e) l -> sum l == e * lengthQ l.
Proof.
  unfold lengthQ.
  induction 1 as [|x l Hx _ IH].
  - unfold sum. simpl. change (inject_Z 0) with 0. ring.
  - assert (Hx' : x == e) by exact Hx.
    rewrite sum_cons. simpl length. rewrite Nat2Z.inj_succ.
    unfold Z.succ. rewrite inject_Z_plus. change (inject_Z 1) with 1. lra.
Qed.

Lemma average_all_eq (e : Q) (l : list Q) :
  l <> [] -> Forall (fun x => x == e) l -> average l == e.
Proof.
  intros Hne H. unfold average. rewrite (sum_all_eq e l H).
  assert (P : 0 < lengthQ l).
  { unfold lengthQ. change 0 with (inject_Z 0). rewrite <- Zlt_Qlt.
    destruct l; [congruence | simpl; lia]. }
  field. intro Z. rewrite Z in P. apply (Qlt_irrefl 0 P).
Qed.

(** With a window of equal energies and no prediction pending, a tick of
    the same energy delivers nothing and leaves both as they are. *)
Lemma processAudio_steady (e : Q) (k : Tick.t) (s : t) :
  Forall (fun x => x == e) (energyHistory s) ->
  predictedNextBeatTime s = 0 ->
  Tick.energy k == e ->
  fst (processAudio k s) = []
  /\ Forall (fun x => x == e) (energyHistory (snd (processAudio k s)))
  /\ predictedNextBeatTime (snd (processAudio k s)) = 0.
Proof.
  intros Hh Hp He.
  assert (P : predictiveTrigger k s = ([], s)).
  { unfold predictiveTrigger. rewrite Hp. reflexivity. }
  assert (PA : processAudio k s = mainPath k s).
  { unfold processAudio. rewrite P. destruct (mainPath k s); reflexivity. }
  rewrite PA. rewrite mainPath_energyHistory.
  assert (Hh1 : Forall (fun x => x == e)
                  (pushCapped historySize (Tick.energy k) (energyHistory s)))
    by (apply Forall_pushCapped; assumption).
  pose proof (detectBeat_frame (Tick.energy k) (Tick.detectNow k)
                (recordEnergy (Tick.energy k) s)) as F.
  cbv zeta in F. destruct F as (_ & _ & _ & _ & _ & _ & F7 & _).
  simpl in F7.
  assert (D : fst (detectBeat (Tick.energy k) (Tick.detectNow k)
                     (recordEnergy (Tick.energy k) s)) = false).
  { destruct (detectBeat (Tick.energy k) (Tick.detectNow k)
                (recordEnergy (Tick.energy k) s)) as [b s2] eqn:E.
    destruct b; [|reflexivity]. exfalso.
    pose proof (detectBeat_true _ _ _ _ E) as (L & _).
    apply detectBeat_above_mean in E. simpl in E, L.
    rewrite (average_all_eq e) in E; [lra| |exact Hh1].
    intro Z. rewrite Z in L. unfold historySize in L. simpl in L. lia. }
  destruct (mainPath_cases k s) as [[_ M]|[[_ M]|[(C & _)|(C & _)]]];
    try (rewrite D in C; discriminate C); rewrite M; simpl fst; simpl snd.
  - split; [reflexivity|]. split; [exact Hh1 | exact Hp].
  - split; [reflexivity|]. split; [exact Hh1 | rewrite F7; exact Hp].
Qed.

(** X6.  A run from the start in which every main-path energy is the same
    value fires no callback at all, whatever that value and whatever the
    predictive readings and the clocks are: a constant signal has no
    onset and does not exceed its own mean, and without a first beat
    nothing is predicted. *)
Theorem steady_energy_never_beats (e : Q) (ks : list Tick.t) :
  Forall (fun k => Tick.energy k == e) ks ->
  fst (run init ks) = [].
Proof.
  intro H.
  assert (G : forall s,
             Forall (fun x => x == e) (energyHistory s) ->
             predictedNextBeatTime s = 0 ->
             fst (run s ks) = []).
  { induction H as [|k ks Hk _ IH]; intros s Hh Hp; simpl; [reflexivity|].
    destruct (processAudio_steady e k s Hh Hp Hk) as (P1 & P2 & P3).
    destruct (processAudio k s) as [cbs1 s1]. simpl in P1, P2, P3.
    specialize (IH s1 P2 P3). destruct (run s1 ks) as [cbs2 s2].
    simpl in IH |- *. rewrite P1, IH. reflexivity. }
  apply G; [constructor | reflexivity].
Qed.

End Steady.

(** ** The last-beat time and the first beat *)

Section LastBeat.
Import AudioProcessor.

Lemma lastOpt_app {A : Type} (a b : list A) :
  lastOpt (a ++ b)
  = match lastOpt b with Some x => Some x | None => lastOpt a end.
Proof.
  unfold lastOpt. rewrite rev_app_distr.
  destruct (rev b) as [|x r] eqn:E; simpl; reflexivity.
Qed.

Lemma lastOpt_nil_inv {A : Type} (l : list A) : lastOpt l = None -> l = [].
Proof.
  unfold lastOpt. intro H. destruct (rev l) eqn:E; [|discriminate].
  apply (f_equal (@rev A)) in E. rewrite rev_involutive in E. exact E.
Qed.

(** The main path, when it delivers nothing, leaves the beat fields
    alone. *)
Lemma mainPath_idle (k : Tick.t) (s : t) :
  beats (fst (mainPath k s)) = [] ->
  fst (mainPath k s) = []
  /\ lastBeatTime (snd (mainPath k s)) = lastBeatTime s
  /\ beatCount (snd (mainPath k s)) = beatCount s
  /\ predictedNextBeatTime (snd (mainPath k s)) = predictedNextBeatTime s
  /\ lastPredictedBeatTime (snd (mainPath k s)) = lastPredictedBeatTime s
  /\ currentStableBPM (snd (mainPath k s)) = currentStableBPM s.
Proof.
  intro H.
  pose proof (detectBeat_frame (Tick.energy k) (Tick.detectNow k)
                (recordEnergy (Tick.energy k) s)) as F.
  cbv zeta in F. destruct F as (_ & _ & _ & F4 & F5 & F6 & F7 & F8).
  simpl in F4, F5, F6, F7, F8.
  destruct (mainPath_cases k s) as [[_ M]|[[_ M]|[(_ & _ & M)|(_ & _ & M)]]];
    rewrite M in H |- *; simpl fst; simpl snd.
  - repeat split.
  - repeat split; assumption.
  - repeat split; assumption.
  - exfalso. simpl in H. rewrite beats_app in H.
    destruct (beats (fst (updateTempo (Tick.stampNow k)
                            (snd (detectBeat (Tick.energy k) (Tick.detectNow k)
                                    (recordEnergy (Tick.energy k) s))))));
      discriminate H.
Qed.

Lemma predictiveTrigger_stamps (k : Tick.t) (s : t) :
  stamps s (predictiveTrigger k s).
Proof.
  unfold stamps.
  destruct (predictiveTrigger_cases k s) as [E|[_ E]]; rewrite E; simpl.
  - reflexivity.
  - pose proof (updateBeatPrediction_frame (Tick.now k + predictionOffset)
                  (acceptPredicted (Tick.now k) s)) as F.
    cbv zeta in F. destruct F as (_ & _ & _ & _ & _ & F & _).
    rewrite F. reflexivity.
Qed.

Lemma mainPath_stamps (k : Tick.t) (s : t) : stamps s (mainPath k s).
Proof.
  unfold stamps.
  destruct (beats (fst (mainPath k s))) as [|b bs] eqn:E.
  - simpl. apply mainPath_idle. exact E.
  - assert (Hne : beats (fst (mainPath k s)) <> []) by (rewrite E; discriminate).
    destruct (mainPath_delivers k s Hne) as (_ & _ & B & M).
    rewrite E in B. rewrite B, M. simpl.
    pose proof (updateBeatPrediction_frame (Tick.stampNow k)
                  (acceptDetected (Tick.stampNow k)
                     (snd (updateTempo (Tick.stampNow k)
                             (snd (detectBeat (Tick.energy k) (Tick.detectNow k)
                                     (recordEnergy (Tick.energy k) s)))))))
      as G.
    cbv zeta in G. destruct G as (_ & _ & _ & _ & _ & G & _).
    rewrite G. reflexivity.
Qed.

Lemma stamps_app (s s1 s2 : t) (c1 c2 : list Callback) :
  stamps s (c1, s1) -> stamps s1 (c2, s2) -> stamps s (c1 ++ c2, s2).
Proof.
  unfold stamps. simpl. rewrite beats_app, lastOpt_app.
  intros H1 H2. destruct (lastOpt (beats c2)); [exact H2|].
  destruct (lastOpt (beats c1)); congruence.
Qed.

Lemma processAudio_stamps (k : Tick.t) (s : t) : stamps s (processAudio k s).
Proof.
  unfold processAudio.
  pose proof (predictiveTrigger_stamps k s) as P.
  destruct (predictiveTrigger k s) as [c1 s1].
  pose proof (mainPath_stamps k s1) as M.
  destruct (mainPath k s1) as [c2 s2].
  apply (stamps_app s s1 s2); assumption.
Qed.

Lemma run_stamps (ks : list Tick.t) : forall s, stamps s (run s ks).
Proof.
  induction ks as [|k ks IH]; intro s; simpl; [reflexivity|].
  pose proof (processAudio_stamps k s) as P.
  destruct (processAudio k s) as [c1 s1].
  specialize (IH s1). destruct (run s1 ks) as [c2 s2].
  apply (stamps_app s s1 s2); assumption.
Qed.

(** X13.  After any run from the start the last-beat time is the
    timestamp of the last Beat Event delivered, predictive or not, and 0
    when none was delivered. *)
Theorem last_beat_time_is_last_timestamp (ks : list Tick.t) :
  match lastOpt (beats (fst (run init ks))) with
  | Some b =>
      lastBeatTime (snd (run init ks)) = BeatDetectionResult.timestamp b
  | None => lastBeatTime (snd (run init ks)) = 0
  end.
Proof. exact (run_stamps ks init). Qed.

(** X10.  The first Beat Event of a run from the start comes from the
    main path of one of its ticks: it is a downbeat, stamped with that
    tick's clock and carrying that tick's main-path energy.  The predictive
    trigger never delivers the first beat. *)
Theorem first_beat_is_main_path_downbeat (ks : list Tick.t)
        (b : BeatDetectionResult.t) (bs : list BeatDetectionResult.t) :
  beats (fst (run init ks)) = b :: bs ->
  exists k,
    In k ks
    /\ b = BeatDetectionResult.mk true true (Tick.stampNow k) (Tick.energy k).
Proof.
  assert (G : forall s,
             beatCount s = 0%nat -> predictedNextBeatTime s = 0 ->
             beats (fst (run s ks)) = b :: bs ->
             exists k,
               In k ks
               /\ b = BeatDetectionResult.mk true true (Tick.stampNow k)
                        (Tick.energy k)).
  { induction ks as [|k ks IH]; intros s Hc Hp H; simpl in H; [discriminate|].
    assert (P : predictiveTrigger k s = ([], s)).
    { unfold predictiveTrigger. rewrite Hp. reflexivity. }
    assert (PA : processAudio k s = mainPath k s).
    { unfold processAudio. rewrite P. destruct (mainPath k s); reflexivity. }
    rewrite PA in H.
    destruct (beats (fst (mainPath k s))) as [|b' bs'] eqn:E.
    - destruct (mainPath_idle k s E) as (_ & _ & I3 & I4 & _).
      destruct (mainPath k s) as [c1 s1]. simpl in *.
      specialize (IH s1 ltac:(congruence) ltac:(congruence)).
      destruct (run s1 ks) as [c2 s2]. simpl in *.
      rewrite beats_app, E in H. simpl in H.
      destruct (IH H) as [k' [Hin Hb]].
      exists k'. split; [right; exact Hin | exact Hb].
    - assert (Hne : beats (fst (mainPath k s)) <> [])
        by (rewrite E; discriminate).
      destruct (mainPath_delivers k s Hne) as (_ & _ & B & _).
      rewrite E in B.
      destruct (mainPath k s) as [c1 s1]. destruct (run s1 ks) as [c2 s2].
      simpl in *. rewrite beats_app, E in H. simpl in H.
      inversion H. inversion B. subst.
      exists k. split; [left; reflexivity|].
      unfold isDownbeat. rewrite Hc. reflexivity. }
  apply G; reflexivity.
Qed.

End LastBeat.

(** ** The prediction lies ahead; tempo notifications *)

Section Ahead.
Import AudioProcessor.

Lemma mainPath_gapsOk (k : Tick.t) (s : t) :
  gapsOk (beatHistory s) -> gapsOk (beatHistory (snd (mainPath k s))).
Proof.
  intro H.
  destruct (mainPath_beatHistory k s) as [M|[D M]]; rewrite M; [exact H|].
  destruct (detectBeat (Tick.energy k) (Tick.detectNow k)
              (recordEnergy (Tick.energy k) s)) as [b s3] eqn:E.
  simpl in D. subst b.
  apply detectBeat_true in E. destruct E as (_ & _ & E & _). simpl in E.
  apply gapsOk_pushCapped; [exact H|].
  intro Hne. specialize (E Hne).
  destruct (minInterval_bounds (beatHistory s)) as [B _]. lra.
Qed.

Lemma predictiveTrigger_ahead (k : Tick.t) (s : t) :
  gapsOk (beatHistory s) ->
  tempoInv (bpmHistory s) (currentStableBPM s) ->
  predictionAhead s -> predictionAhead (snd (predictiveTrigger k s)).
Proof.
  intros G T A.
  destruct (predictiveTrigger_cases k s) as [E|[_ E]]; rewrite E; simpl snd;
    [exact A|].
  unfold predictionAhead.
  pose proof (updateBeatPrediction_frame (Tick.now k + predictionOffset)
                (acceptPredicted (Tick.now k) s)) as F.
  cbv zeta in F. destruct F as (_ & _ & _ & _ & _ & F & _). rewrite F.
  apply prediction_distance; assumption.
Qed.

Lemma mainPath_ahead (k : Tick.t) (s : t) :
  gapsOk (beatHistory s) ->
  tempoInv (bpmHistory s) (currentStableBPM s) ->
  predictionAhead s -> predictionAhead (snd (mainPath k s)).
Proof.
  intros G T A.
  destruct (beats (fst (mainPath k s))) as [|b bs] eqn:E.
  - destruct (mainPath_idle k s E) as (_ & I2 & _ & I4 & _).
    unfold predictionAhead. rewrite I2, I4. exact A.
  - assert (Hne : beats (fst (mainPath k s)) <> []) by (rewrite E; discriminate).
    pose proof (mainPath_gapsOk k s G) as G'.
    destruct (mainPath_tempo k s T) as (T' & _).
    destruct (mainPath_delivers k s Hne) as (_ & _ & _ & M).
    rewrite M in G', T' |- *.
    set (s4 := acceptDetected (Tick.stampNow k)
                 (snd (updateTempo (Tick.stampNow k)
                         (snd (detectBeat (Tick.energy k) (Tick.detectNow k)
                                 (recordEnergy (Tick.energy k) s))))) ) in *.
    pose proof (updateBeatPrediction_frame (Tick.stampNow k) s4) as F.
    cbv zeta in F. destruct F as (_ & F2 & _ & F4 & F5 & F6 & _).
    rewrite F2 in G'. rewrite F4, F5 in T'.
    unfold predictionAhead. rewrite F6.
    change (lastBeatTime s4) with (Tick.stampNow k).
    apply prediction_distance; assumption.
Qed.

Lemma processAudio_ahead (k : Tick.t) (s : t) :
  gapsOk (beatHistory s) ->
  tempoInv (bpmHistory s) (currentStableBPM s) ->
  predictionAhead s -> predictionAhead (snd (processAudio k s)).
Proof.
  intros G T A. unfold processAudio.
  pose proof (predictiveTrigger_ahead k s G T A) as P.
  pose proof (predictiveTrigger_frame k s) as F. cbv zeta in F.
  destruct F as (_ & F2 & _ & F4 & F5).
  destruct (predictiveTrigger k s) as [c1 s1]. simpl in P, F2, F4, F5.
  pose proof (mainPath_ahead k s1) as M.
  rewrite F2, F4, F5 in M. specialize (M G T P).
  destruct (mainPath k s1) as [c2 s2]. exact M.
Qed.

(** X11.  In every reachable state the prediction for the next beat is
    either 0 (none) or at least 150 ms after the last accepted beat, up to
    the rounding tolerance of 0.001 ms. *)
Theorem prediction_at_least_150ms_ahead (s : t) :
  reachable s ->
  predictedNextBeatTime s == 0
  \/ lastBeatTime s + 150 - roundingTolerance <= predictedNextBeatTime s.
Proof.
  intros [ks <-].
  assert (P : predictionAhead (snd (run init ks))).
  2:{ destruct P as [P|P]; [left; exact P | right].
      unfold roundingTolerance. lra. }
  assert (G : forall s0,
             gapsOk (beatHistory s0) ->
             tempoInv (bpmHistory s0) (currentStableBPM s0) ->
             predictionAhead s0 ->
             predictionAhead (snd (run s0 ks))).
  { induction ks as [|k ks IH]; intros s0 G0 T0 A0; simpl; [exact A0|].
    pose proof (processAudio_gapsOk k s0 G0) as G1.
    pose proof (processAudio_tempo k s0 T0) as (T1 & _).
    pose proof (processAudio_ahead k s0 G0 T0 A0) as A1.
    destruct (processAudio k s0) as [c1 s1]. simpl in G1, T1, A1.
    specialize (IH s1 G1 T1 A1). destruct (run s1 ks) as [c2 s2]. exact IH. }
  apply G; [constructor | apply tempoInv_init | left; reflexivity].
Qed.

End Ahead.

Section Notifications.
Import AudioProcessor Analyser.

Lemma bpmUpdates_app (a b : list Callback) :
  bpmUpdates (a ++ b) = bpmUpdates a ++ bpmUpdates b.
Proof.
  induction a as [|c a IH]; simpl; [reflexivity|].
  destruct c; simpl; rewrite IH; reflexivity.
Qed.

Lemma round_range (x : Q) :
  inTempoRange x -> (60 <= round x <= 200)%Z.
Proof.
  intros [Hlo Hhi]. unfold round. split.
  - change 60%Z with (Qfloor (inject_Z 60)) at 1.
    apply Qfloor_resp_le. change (inject_Z 60) with 60. lra.
  - pose proof (Qfloor_le (x + (1 # 2))) as H.
    assert (H' : inject_Z (Qfloor (x + (1 # 2))) < inject_Z 201).
    { change (inject_Z 201) with 201. lra. }
    rewrite <- Zlt_Qlt in H'. lia.
Qed.

Lemma tempoInv_established (h : list Q) (c : Q) :
  tempoInv h c -> (3 <= length h)%nat -> inTempoRange c.
Proof.
  intros (Hr & _ & _ & H3 & H4) Hn.
  destruct (Nat.eq_dec (length h) 3) as [E|E].
  - pose proof (middleMean_range h Hr ltac:(lia)) as [M1 M2].
    specialize (H3 E). unfold inTempoRange. rewrite H3. split; assumption.
  - apply H4. lia.
Qed.

Lemma blendStableBPM_notifies (s : t) : notifies s (blendStableBPM s).
Proof.
  unfold notifies, blendStableBPM.
  destruct (3 <=? length (bpmHistory s))%nat eqn:E; simpl.
  - right. split; [reflexivity | apply Nat.leb_le; exact E].
  - left. split; reflexivity.
Qed.

Lemma updateTempo_notifies (ts : Q) (s : t) : notifies s (updateTempo ts s).
Proof.
  unfold updateTempo.
  destruct (Qltb 0 (lastBeatTime s)); [|left; split; reflexivity].
  destruct (Qle_bool 60 (60000 / (ts - lastBeatTime s))
            && Qle_bool (60000 / (ts - lastBeatTime s)) 200);
    [|left; split; reflexivity].
  pose proof (blendStableBPM_notifies
                (admitBPM (60000 / (ts - lastBeatTime s)) s)) as B.
  pose proof (admitBPM_frame (60000 / (ts - lastBeatTime s)) s) as F.
  cbv zeta in F. destruct F as (_ & _ & _ & F & _).
  unfold notifies in *. rewrite F in B. exact B.
Qed.

Lemma mainPath_notifies (k : Tick.t) (s : t) : notifies s (mainPath k s).
Proof.
  destruct (beats (fst (mainPath k s))) as [|b bs] eqn:E.
  - destruct (mainPath_idle k s E) as (I1 & _ & _ & _ & _ & I6).
    left. rewrite I1. split; [reflexivity | exact I6].
  - assert (Hne : beats (fst (mainPath k s)) <> []) by (rewrite E; discriminate).
    destruct (mainPath_delivers k s Hne) as (_ & G & _ & M).
    destruct (mainPath_cases k s) as [[_ C]|[[_ C]|[(_ & _ & C)|(_ & _ & C)]]];
      try (rewrite C in E; simpl in E; discriminate E).
    pose proof (detectBeat_frame (Tick.energy k) (Tick.detectNow k)
                  (recordEnergy (Tick.energy k) s)) as F.
    cbv zeta in F. destruct F as (_ & _ & _ & F4 & _). simpl in F4.
    set (s2 := snd (detectBeat (Tick.energy k) (Tick.detectNow k)
                      (recordEnergy (Tick.energy k) s))) in *.
    pose proof (updateTempo_notifies (Tick.stampNow k) s2) as U.
    pose proof (updateBeatPrediction_frame (Tick.stampNow k)
                  (acceptDetected (Tick.stampNow k)
                     (snd (updateTempo (Tick.stampNow k) s2)))) as P.
    cbv zeta in P. destruct P as (_ & _ & _ & P4 & P5 & _).
    simpl in P4, P5.
    unfold notifies in *. rewrite C. simpl fst. simpl snd.
    rewrite bpmUpdates_app. cbn [bpmUpdates]. rewrite app_nil_r.
    rewrite P4, P5. rewrite F4 in U. exact U.
Qed.

Lemma processAudio_notifies (k : Tick.t) (s : t) :
  notifies s (processAudio k s).
Proof.
  unfold processAudio.
  pose proof (predictiveTrigger_frame k s) as F. cbv zeta in F.
  destruct F as (_ & _ & _ & _ & F5).
  assert (N : bpmUpdates (fst (predictiveTrigger k s)) = []).
  { destruct (predictiveTrigger_cases k s) as [E|[_ E]]; rewrite E; reflexivity. }
  destruct (predictiveTrigger k s) as [c1 s1]. simpl in F5, N.
  pose proof (mainPath_notifies k s1) as M.
  destruct (mainPath k s1) as [c2 s2].
  unfold notifies in *. simpl in *. rewrite bpmUpdates_app, N. simpl.
  rewrite F5 in M. exact M.
Qed.

(** Along a run: every notification lies in 60..200, and the last one,
    if any, is what [getBPM] returns; with none the tempo is as it was. *)
Lemma run_notifies (ks : list Tick.t) : forall s,
  tempoInv (bpmHistory s) (currentStableBPM s) ->
  Forall (fun z => (60 <= z <= 200)%Z) (bpmUpdates (fst (run s ks)))
  /\ match lastOpt (bpmUpdates (fst (run s ks))) with
     | Some z => getBPM (snd (run s ks)) = z
     | None => currentStableBPM (snd (run s ks)) = currentStableBPM s
     end.
Proof.
  induction ks as [|k ks IH]; intros s T; simpl.
  - split; [constructor | reflexivity].
  - pose proof (processAudio_notifies k s) as N.
    pose proof (processAudio_tempo k s T) as (T1 & _).
    destruct (processAudio k s) as [c1 s1]. unfold notifies in N.
    simpl in N, T1.
    destruct (IH s1 T1) as [I1 I2].
    destruct (run s1 ks) as [c2 s2]. simpl in I1, I2 |- *.
    rewrite bpmUpdates_app, lastOpt_app.
    destruct N as [[N1 N2]|[N1 N2]]; rewrite N1.
    + simpl. split; [exact I1|].
      destruct (lastOpt (bpmUpdates c2)); [exact I2 | congruence].
    + split.
      * constructor; [|exact I1].
        apply round_range. apply (tempoInv_established _ _ T1 N2).
      * destruct (lastOpt (bpmUpdates c2)); [exact I2|].
        unfold lastOpt. simpl. unfold getBPM. rewrite I2. reflexivity.
Qed.

(** X7.  Every tempo passed to [onBPMUpdate] in a run from the start is
    an integer between 60 and 200. *)
Theorem tempo_notifications_within_60_200 (ks : list Tick.t) (z : Z) :
  In z (bpmUpdates (fst (run init ks))) -> (60 <= z <= 200)%Z.
Proof.
  intro H. destruct (run_notifies ks init tempoInv_init) as [F _].
  rewrite Forall_forall in F. apply F. exact H.
Qed.

(** X8.  After any run from the start, [getBPM] returns the tempo of the
    last [onBPMUpdate] notification, and 0 when there was none. *)
Theorem getBPM_is_last_notification (ks : list Tick.t) :
  getBPM (snd (run init ks))
  = match lastOpt (bpmUpdates (fst (run init ks))) with
    | Some z => z
    | None => 0%Z
    end.
Proof.
  destruct (run_notifies ks init tempoInv_init) as [_ L].
  destruct (lastOpt (bpmUpdates (fst (run init ks)))); [exact L|].
  unfold getBPM. rewrite L. reflexivity.
Qed.

End Notifications.

(** ** Faint frames *)

Section Faint.
Import AudioProcessor Analyser.

(** X3.  Frames whose bytes are all 0 or 1, on the predictive read and on
    the main read, never yield a Beat Event, whatever the sample rate and
    whatever state the detector is in: their energies stay below the floor
    of 1.5. *)
Theorem faint_frames_never_beat
        (sampleRate : Q) (s : t) (frames : list Frame) :
  Forall faintFrame frames ->
  beats (fst (run s (map (toTick sampleRate) frames))) = [].
Proof.
  intro H. apply run_quiet.
  apply Forall_forall. intros k Hk. apply in_map_iff in Hk.
  destruct Hk as [f [<- Hf]].
  rewrite Forall_forall in H. destruct (H f Hf) as (N1 & N2 & B1 & B2).
  destruct (weighted_energy_bounds_lemma sampleRate 0 1 _ N1 B1) as [_ U1].
  destruct (weighted_energy_bounds_lemma sampleRate 0 1 _ N2 B2) as [_ U2].
  unfold quietTick, toTick, minEnergyThreshold. simpl.
  change (inject_Z 1) with 1 in U1, U2. split; lra.
Qed.

End Faint.

(** ** The tracker and its earlier version; the expected next beat *)

Section Legacy.

Lemma updateBeat_agree (d : bool) (ts : Q) (bpm : option Q)
      (c : BeatCounter.t) (l : BeatCounterLegacy.t) :
  agree c l ->
  fst (BeatCounter.updateBeat d ts bpm c)
  = fst (BeatCounterLegacy.updateBeat d ts l)
  /\ agree (snd (BeatCounter.updateBeat d ts bpm c))
           (snd (BeatCounterLegacy.updateBeat d ts l)).
Proof.
  intros (A1 & A2 & A3).
  unfold BeatCounter.updateBeat, BeatCounterLegacy.updateBeat,
    BeatCounter.timeoutReset, BeatCounter.timedOut, BeatCounter.advance,
    BeatCounter.forceReset, BeatCounter.maxInterval,
    BeatCounterLegacy.maxInterval, agree.
  assert (B1 : BeatCounter.currentBeat (BeatCounter.updateBPM bpm c)
               = BeatCounterLegacy.currentBeat l).
  { rewrite <- A1. unfold BeatCounter.updateBPM.
    destruct bpm as [b|]; [destruct (Qltb 0 b)|]; reflexivity. }
  assert (B2 : BeatCounter.cycle (BeatCounter.updateBPM bpm c)
               = BeatCounterLegacy.cycle l).
  { rewrite <- A2. unfold BeatCounter.updateBPM.
    destruct bpm as [b|]; [destruct (Qltb 0 b)|]; reflexivity. }
  assert (B3 : BeatCounter.lastBeatTime (BeatCounter.updateBPM bpm c)
               = BeatCounterLegacy.lastBeatTime l).
  { rewrite <- A3. unfold BeatCounter.updateBPM.
    destruct bpm as [b|]; [destruct (Qltb 0 b)|]; reflexivity. }
  cbv zeta. rewrite B3.
  destruct (Qltb 0 (BeatCounterLegacy.lastBeatTime l)
            && Qltb 3000 (fsub ts (BeatCounterLegacy.lastBeatTime l)));
    destruct d; cbn; rewrite ?B1, ?B2; repeat split; reflexivity.
Qed.

Lemma run_agree (ops : list BeatCounter.Op) : forall c l,
  agree c l ->
  fst (BeatCounter.run c ops) = fst (BeatCounterLegacy.run l ops)
  /\ agree (snd (BeatCounter.run c ops)) (snd (BeatCounterLegacy.run l ops)).
Proof.
  induction ops as [|o ops IH]; intros c l A; simpl.
  - split; [reflexivity | exact A].
  - assert (S1 : fst (BeatCounter.step c o) = fst (BeatCounterLegacy.step l o)
                 /\ agree (snd (BeatCounter.step c o))
                          (snd (BeatCounterLegacy.step l o))).
    { destruct o as [d ts bpm| |];
        unfold BeatCounter.step, BeatCounterLegacy.step.
      - destruct (updateBeat_agree d ts bpm c l A) as [U1 U2].
        destruct (BeatCounter.updateBeat d ts bpm c) as [r1 c1].
        destruct (BeatCounterLegacy.updateBeat d ts l) as [r2 l1].
        simpl in U1, U2 |- *. subst. split; [reflexivity | exact U2].
      - destruct A as (A1 & A2 & A3).
        unfold BeatCounter.getState, BeatCounterLegacy.getState.
        simpl. rewrite A1, A2. split; [reflexivity | repeat split; assumption].
      - simpl. split; [reflexivity | repeat split]. }
    destruct S1 as [S1 S2].
    destruct (BeatCounter.step c o) as [r1 c1].
    destruct (BeatCounterLegacy.step l o) as [r2 l1]. simpl in S1, S2.
    destruct (IH c1 l1 S2) as [I1 I2].
    destruct (BeatCounter.run c1 ops) as [r3 c2].
    destruct (BeatCounterLegacy.run l1 ops) as [r4 l2]. simpl in *.
    subst. split; [reflexivity | exact I2].
Qed.

(** X14.  Over any session of [updateBeat], [getState] and [reset] calls
    from a fresh tracker, the tracker with tempo fields reports the same
    Cycle States as the earlier tracker without them, which is given the
    same downbeat hints and timestamps and no tempo: the tempo hint never
    shows in a Cycle State. *)
Theorem tracker_reports_as_its_earlier_version (ops : list BeatCounter.Op) :
  fst (BeatCounter.run BeatCounter.init ops)
  = fst (BeatCounterLegacy.run BeatCounterLegacy.init ops).
Proof.
  apply (run_agree ops). repeat split.
Qed.

End Legacy.

Section Expected.
Import BeatCounter.

Lemma step_tempoFieldsOk (c : t) (o : Op) :
  tempoFieldsOk c -> tempoFieldsOk (snd (step c o)).
Proof.
  intro H. destruct o as [d ts bpm| |]; simpl.
  - assert (H1 : tempoFieldsOk (updateBPM bpm c)).
    { unfold updateBPM. destruct bpm as [b|]; [|exact H].
      destruct (Qltb 0 b) eqn:E; [|exact H].
      right. simpl. apply Qltb_lt in E. split; [exact E | reflexivity]. }
    unfold tempoFieldsOk in *. unfold timeoutReset, advance, forceReset.
    destruct (timedOut ts (updateBPM bpm c)); destruct d; simpl; exact H1.
  - exact H.
  - left. split; reflexivity.
Qed.

Lemma run_tempoFieldsOk (ops : list Op) : forall c,
  tempoFieldsOk c -> tempoFieldsOk (snd (run c ops)).
Proof.
  induction ops as [|o ops IH]; intros c H; simpl; [exact H|].
  pose proof (step_tempoFieldsOk c o H) as S1.
  destruct (step c o) as [r1 c1]. simpl in S1.
  specialize (IH c1 S1). destruct (run c1 ops) as [r2 c2]. exact IH.
Qed.

(** X15.  After any session from a fresh tracker,
    [getExpectedNextBeatTime] returns null exactly when the tempo held is
    0, that is when no positive tempo hint has come since the tracker was
    made or last reset; its test on the beat interval adds nothing. *)
Theorem expected_next_beat_needs_tempo (ops : list Op) :
  getExpectedNextBeatTime (snd (run init ops)) = None
  <-> currentBPM (snd (run init ops)) = 0.
Proof.
  assert (H : tempoFieldsOk (snd (run init ops))).
  { apply run_tempoFieldsOk. left. split; reflexivity. }
  set (c := snd (run init ops)) in *.
  unfold getExpectedNextBeatTime.
  destruct H as [[H1 H2]|[H1 H2]].
  - rewrite H1, H2. simpl. tauto.
  - rewrite H2.
    assert (N1 : Qeq_bool (currentBPM c) 0 = false).
    { destruct (Qeq_bool (currentBPM c) 0) eqn:E; [|reflexivity].
      apply Qeq_bool_iff in E. rewrite E in H1.
      exfalso. apply (Qlt_irrefl 0 H1). }
    assert (N2 : Qeq_bool (60000 / currentBPM c) 0 = false).
    { destruct (Qeq_bool (60000 / currentBPM c) 0) eqn:E; [|reflexivity].
      apply Qeq_bool_iff in E.
      assert (P : 0 < 60000 / currentBPM c)
        by (apply Qlt_shift_div_l; [exact H1 | lra]).
      rewrite E in P. exfalso. apply (Qlt_irrefl 0 P). }
    rewrite N1, N2. simpl. split; intro Z.
    + destruct (Qeq_bool (cycleStartTime c) 0); discriminate Z.
    + rewrite Z in H1. exfalso. apply (Qlt_irrefl 0 H1).
Qed.

End Expected.

(** ** The detector feeding the tracker *)

Section Pipeline.
Import BeatCounter.

Lemma div8_facts (n : nat) :
  (n mod 8 = 0 -> (n + 7) / 8 = n / 8)%nat
  /\ (n mod 8 <> 0 -> (n + 7) / 8 = n / 8 + 1)%nat
  /\ ((S n + 7) / 8 = n / 8 + 1)%nat
  /\ (n mod 8 < 8)%nat.
Proof.
  pose proof (Nat.div_mod_eq n 8) as E1.
  pose proof (Nat.mod_upper_bound n 8 ltac:(lia)) as B1.
  pose proof (Nat.div_mod_eq (n + 7) 8) as E2.
  pose proof (Nat.mod_upper_bound (n + 7) 8 ltac:(lia)) as B2.
  pose proof (Nat.div_mod_eq (S n + 7) 8) as E3.
  pose proof (Nat.mod_upper_bound (S n + 7) 8 ltac:(lia)) as B3.
  repeat split; try lia.
Qed.

Lemma updateBeat_synced (n : nat) (ts : Q) (c : t) :
  synced n c ->
  lastBeatTime c <= 0 \/ ts - lastBeatTime c <= 3000 ->
  fst (updateBeat (n mod 8 =? 0)%nat ts None c) = shown n
  /\ synced (S n) (snd (updateBeat (n mod 8 =? 0)%nat ts None c))
  /\ lastBeatTime (snd (updateBeat (n mod 8 =? 0)%nat ts None c)) = ts.
Proof.
  intros [S1 S2] H.
  assert (E : timedOut ts c = false).
  { apply timedOut_false. destruct H as [H|H]; [left; exact H | right].
    apply fsub_le_3000. lra. }
  unfold updateBeat, updateBPM, timeoutReset. rewrite E.
  unfold advance, shown, synced.
  destruct (n mod 8 =? 0)%nat eqn:D.
  - apply Nat.eqb_eq in D. cbn -[Nat.modulo Nat.div Z.rem Z.of_nat Nat.add Nat.sub].
    destruct (div8_facts n) as (F1 & _ & A2 & _).
    assert (A1 := F1 D).
    assert (A3 : ((S n - 1) mod 8 = 0)%nat) by (replace (S n - 1)%nat with n by lia; exact D).
        rewrite D, S1, A1, A2, A3.
    split; [reflexivity|split; [split|reflexivity]].
    + lia.
    + intros _. reflexivity.
  - apply Nat.eqb_neq in D. specialize (S2 D).
    cbn -[Nat.modulo Nat.div Z.rem Z.of_nat Nat.add Nat.sub].
    destruct (div8_facts n) as (_ & F1 & A2 & B).
    assert (A1 := F1 D).
    assert (P : ((n - 1) mod 8 = n mod 8 - 1)%nat).
    { pose proof (Nat.div_mod_eq n 8) as E1.
      symmetry. apply (Nat.mod_unique (n - 1) 8 (n / 8)); lia. }
    assert (R : Z.rem (currentBeat c + 1) 8 = Z.of_nat (n mod 8)).
    { rewrite S2, P. rewrite Z.rem_small; lia. }
    assert (A3 : ((S n - 1) mod 8 = n mod 8)%nat) by (replace (S n - 1)%nat with n by lia; reflexivity).
    rewrite R, S1, A1, A2, A3.
    split; [|split; [split|reflexivity]].
    + f_equal. lia.
    + lia.
    + intros _. reflexivity.
Qed.

Lemma handleAll_synced (bs : list (Q * BeatDetectionResult.t)) :
  forall n r,
    downbeatsFrom n (map snd bs) ->
    synced n (App.beatCounterRef r) ->
    noDrop (App.lastBeatTimeRef r) bs ->
    noTimeout (lastBeatTime (App.beatCounterRef r)) bs ->
    forall i o,
      nth_error (fst (App.handleAll r bs)) i = Some o ->
      o = Some (shown (n + i)).
Proof.
  induction bs as [|[now b] bs IH]; intros n r Hd Hs Hn Ht i o Hi.
  - destruct i; discriminate Hi.
  - simpl in Hn, Ht. destruct Hn as [Hn1 Hn2]. destruct Ht as [Ht1 Ht2].
    assert (Db : BeatDetectionResult.downbeat b = (n mod 8 =? 0)%nat).
    { rewrite (Hd 0%nat b eq_refl). rewrite Nat.add_0_r. reflexivity. }
    destruct (updateBeat_synced n (BeatDetectionResult.timestamp b)
                (App.beatCounterRef r) Hs Ht1) as (U1 & U2 & U3).
    simpl in Hi. unfold App.handleBeat in Hi.
    assert (G : Qltb (fsub now (App.lastBeatTimeRef r)) 100 = false).
    { apply Qltb_ge. apply Qnot_lt_le. intro C.
      apply roundDouble_lt_100 in C. lra. }
    rewrite G, Db in Hi.
    destruct (updateBeat (n mod 8 =? 0)%nat (BeatDetectionResult.timestamp b)
                None (App.beatCounterRef r)) as [st c1].
    simpl in U1, U2, U3.
    specialize (IH (S n) (App.mkRefs now c1)).
    destruct (App.handleAll (App.mkRefs now c1) bs) as [os r2].
    destruct i as [|i]; simpl in Hi.
    + inversion Hi. rewrite Nat.add_0_r. rewrite U1. reflexivity.
    + replace (n + S i)%nat with (S n + i)%nat by lia.
      apply IH; simpl; try assumption.
      * intros j x Hj. specialize (Hd (S j) x Hj). rewrite Hd.
        f_equal. f_equal. lia.
      * rewrite U3. exact Ht2.
Qed.

Lemma map_snd_combine {A B : Type} (l : list A) (l' : list B) :
  length l = length l' -> map snd (combine l l') = l'.
Proof.
  revert l'. induction l as [|a l IH]; intros [|b l'] Hl;
    simpl in *; try discriminate; try reflexivity.
  f_equal. apply IH. lia.
Qed.

(** X16.  The detector feeding [handleBeat], from the start of both.
    When every call of [handleBeat] comes at least 100 ms after the one
    before (and the first at 100 ms or later on the clock) and no beat is
    stamped more than 3000 ms after the one before it, no beat is dropped
    and the [i]-th beat, counted from 0, is shown at position
    [i mod 8 + 1] of cycle [i / 8 + 1], as a downbeat exactly at position
    1 and as a dash at positions 4 and 8. *)
Theorem display_follows_detector_count
        (ks : list Tick.t) (clocks : list Q) (i : nat)
        (o : option BeatCounterState.t) :
  let calls :=
    combine clocks (AudioProcessor.beats
                      (fst (AudioProcessor.run AudioProcessor.init ks))) in
  length clocks
  = length (AudioProcessor.beats
              (fst (AudioProcessor.run AudioProcessor.init ks))) ->
  noDrop 0 calls -> noTimeout 0 calls ->
  nth_error (fst (App.handleAll App.init calls)) i = Some o ->
  o = Some (shown i).
Proof.
  intros calls Hl Hn Ht Hi.
  apply (handleAll_synced calls 0 App.init); try assumption.
  - subst calls. rewrite (map_snd_combine _ _ Hl).
    apply (run_counts ks AudioProcessor.init).
  - split; [reflexivity | intro H; exfalso; apply H; reflexivity].
Qed.

End Pipeline.

(** ** These properties at work on examples *)

Section MoreExamples.
Import AudioProcessor Analyser.

(** A frame of three bytes between 10 and 200, and a frame of 7s. *)
Lemma weighted_energy_within_frame_range_witness :
  [10; 200; 30]%Z <> []
  /\ Forall (fun d => (10 <= d <= 200)%Z) [10; 200; 30]%Z
  /\ inject_Z 10 <= weightedEnergy 44100 [10; 200; 30]%Z
  /\ weightedEnergy 44100 [10; 200; 30]%Z <= inject_Z 200
  /\ weightedEnergy 48000 [7; 7; 7]%Z == inject_Z 7.
Proof.
  assert (N1 : [10; 200; 30]%Z <> []) by discriminate.
  assert (N2 : [7; 7; 7]%Z <> []) by discriminate.
  assert (F1 : Forall (fun d => (10 <= d <= 200)%Z) [10; 200; 30]%Z)
    by (repeat constructor; lia).
  assert (F2 : Forall (fun d => d = 7%Z) [7; 7; 7]%Z)
    by (repeat constructor).
  destruct (weighted_energy_within_frame_range 44100 [10; 200; 30]%Z N1)
    as [B _].
  destruct (B 10%Z 200%Z F1) as [B1 B2].
  destruct (weighted_energy_within_frame_range 48000 [7; 7; 7]%Z N2)
    as [_ C].
  split; [exact N1|]. split; [exact F1|]. split; [exact B1|].
  split; [exact B2|]. exact (C 7%Z F2).
Defined.

(** Two faint frames on a detector that has heard the session
    [Scenario.steady]. *)
Lemma faint_frames_never_beat_witness :
  Forall faintFrame
    [mkFrame 4020 [0; 1]%Z [1; 1]%Z 4020 4020;
     mkFrame 4040 [1; 0]%Z [0; 0]%Z 4040 4040]
  /\ beats (fst (run Scenario.afterSteady
                   (map (toTick 44100)
                      [mkFrame 4020 [0; 1]%Z [1; 1]%Z 4020 4020;
                       mkFrame 4040 [1; 0]%Z [0; 0]%Z 4040 4040]))) = [].
Proof.
  assert (F : Forall faintFrame
                [mkFrame 4020 [0; 1]%Z [1; 1]%Z 4020 4020;
                 mkFrame 4040 [1; 0]%Z [0; 0]%Z 4040 4040]).
  { repeat constructor; simpl; try discriminate; lia. }
  split; [exact F|].
  exact (faint_frames_never_beat 44100 Scenario.afterSteady _ F).
Defined.

(** The state after [Scenario.steady] is reachable; its histories hold 43,
    5 and 4 entries. *)
Lemma histories_never_exceed_capacity_witness :
  reachable Scenario.afterSteady
  /\ (length (energyHistory Scenario.afterSteady) <= 43)%nat
  /\ (length (beatHistory Scenario.afterSteady) <= 15)%nat
  /\ (length (bpmHistory Scenario.afterSteady) <= 20)%nat.
Proof.
  assert (R : reachable Scenario.afterSteady)
    by (exists Scenario.steady; unfold Scenario.afterSteady; reflexivity).
  split; [exact R|].
  exact (histories_never_exceed_capacity Scenario.afterSteady R).
Defined.

(** 50 ticks of energy 80 on the main path, with a spike on every
    predictive reading. *)
Lemma steady_energy_never_beats_witness :
  Forall (fun k => Tick.energy k == 80)
    (map (fun i => Scenario.tick (1000 + 20 * Z.of_nat i) 200 80) (seq 0 50))
  /\ fst (run init
            (map (fun i => Scenario.tick (1000 + 20 * Z.of_nat i) 200 80)
               (seq 0 50))) = [].
Proof.
  assert (F : Forall (fun k => Tick.energy k == 80)
                (map (fun i => Scenario.tick (1000 + 20 * Z.of_nat i) 200 80)
                   (seq 0 50))).
  { apply Forall_forall. intros k Hk. apply in_map_iff in Hk.
    destruct Hk as [i [<- _]]. simpl. apply Qeq_refl. }
  split; [exact F|].
  exact (steady_energy_never_beats 80 _ F).
Defined.

(** [Scenario.steady] notifies the tempo 120 twice. *)
Lemma tempo_notifications_within_60_200_witness :
  In 120%Z (bpmUpdates (fst (run init Scenario.steady)))
  /\ (60 <= 120 <= 200)%Z.
Proof.
  assert (I : In 120%Z (bpmUpdates (fst (run init Scenario.steady))))
    by (vm_compute; left; reflexivity).
  split; [exact I|].
  exact (tempo_notifications_within_60_200 Scenario.steady 120%Z I).
Defined.

(** After [Scenario.steady] the tempo is 120 and Beat History holds five
    beats. *)
Lemma prediction_always_from_beat_history_witness :
  reachable Scenario.afterSteady
  /\ ~ currentStableBPM Scenario.afterSteady == 0
  /\ (3 <= length (beatHistory Scenario.afterSteady))%nat
  /\ updateBeatPrediction 4500 Scenario.afterSteady
     = set_predictedNextBeatTime
         (4500 + average (intervals (beatHistory Scenario.afterSteady)))
         Scenario.afterSteady.
Proof.
  assert (R : reachable Scenario.afterSteady)
    by (exists Scenario.steady; unfold Scenario.afterSteady; reflexivity).
  assert (N : ~ currentStableBPM Scenario.afterSteady == 0)
    by (intro E; vm_compute in E; discriminate E).
  split; [exact R|]. split; [exact N|].
  exact (prediction_always_from_beat_history Scenario.afterSteady 4500 R N).
Defined.

(** The first beat of [Scenario.twoBeats] is the main-path beat of the
    tick at 2000 ms. *)
Lemma first_beat_is_main_path_downbeat_witness :
  beats (fst (run init Scenario.twoBeats))
  = hd (BeatDetectionResult.mk false false 0 0)
      (beats (fst (run init Scenario.twoBeats)))
    :: tl (beats (fst (run init Scenario.twoBeats)))
  /\ exists k,
       In k Scenario.twoBeats
       /\ hd (BeatDetectionResult.mk false false 0 0)
            (beats (fst (run init Scenario.twoBeats)))
          = BeatDetectionResult.mk true true (Tick.stampNow k)
              (Tick.energy k).
Proof.
  assert (H : beats (fst (run init Scenario.twoBeats))
              = hd (BeatDetectionResult.mk false false 0 0)
                  (beats (fst (run init Scenario.twoBeats)))
                :: tl (beats (fst (run init Scenario.twoBeats))))
    by (vm_compute; reflexivity).
  split; [exact H|].
  exact (first_beat_is_main_path_downbeat Scenario.twoBeats _ _ H).
Defined.

(** After [Scenario.steady] the last beat is at 4000 ms and the next is
    predicted for 4500 ms. *)
Lemma prediction_at_least_150ms_ahead_witness :
  reachable Scenario.afterSteady
  /\ (predictedNextBeatTime Scenario.afterSteady == 0
      \/ lastBeatTime Scenario.afterSteady + 150 - roundingTolerance
         <= predictedNextBeatTime Scenario.afterSteady).
Proof.
  assert (R : reachable Scenario.afterSteady)
    by (exists Scenario.steady; unfold Scenario.afterSteady; reflexivity).
  split; [exact R|].
  exact (prediction_at_least_150ms_ahead Scenario.afterSteady R).
Defined.

(** The first two entries of Beat History after [Scenario.steady]. *)
Lemma beat_history_entries_150ms_apart_witness :
  reachable Scenario.afterSteady
  /\ (1 < length (beatHistory Scenario.afterSteady))%nat
  /\ nth 0 (beatHistory Scenario.afterSteady) 0 + 150 - roundingTolerance
     <= nth 1 (beatHistory Scenario.afterSteady) 0.
Proof.
  assert (R : reachable Scenario.afterSteady)
    by (exists Scenario.steady; unfold Scenario.afterSteady; reflexivity).
  assert (L : (1 < length (beatHistory Scenario.afterSteady))%nat)
    by (vm_compute; lia).
  split; [exact R|]. split; [exact L|].
  exact (beat_history_entries_150ms_apart Scenario.afterSteady 0 R L).
Defined.

(** The five beats of [Scenario.steady], each handled 10 ms after its
    stamp; the fourth is shown as a dash. *)
Lemma display_follows_detector_count_witness :
  length [2010; 2510; 3010; 3510; 4010]
  = length (beats (fst (run init Scenario.steady)))
  /\ noDrop 0 (combine [2010; 2510; 3010; 3510; 4010]
                 (beats (fst (run init Scenario.steady))))
  /\ noTimeout 0 (combine [2010; 2510; 3010; 3510; 4010]
                    (beats (fst (run init Scenario.steady))))
  /\ nth_error
       (fst (App.handleAll App.init
               (combine [2010; 2510; 3010; 3510; 4010]
                  (beats (fst (run init Scenario.steady)))))) 3
     = Some (Some (BeatCounterState.mk 4 1 false true))
  /\ Some (BeatCounterState.mk 4 1 false true) = Some (shown 3).
Proof.
  assert (L : length [2010; 2510; 3010; 3510; 4010]
              = length (beats (fst (run init Scenario.steady))))
    by (vm_compute; reflexivity).
  assert (D : noDrop 0 (combine [2010; 2510; 3010; 3510; 4010]
                          (beats (fst (run init Scenario.steady)))))
    by (vm_compute; repeat split; intro H; discriminate H).
  assert (T : noTimeout 0 (combine [2010; 2510; 3010; 3510; 4010]
                             (beats (fst (run init Scenario.steady)))))
    by (vm_compute; split;
        [left; intro H; discriminate H
        |repeat split; right; intro H; discriminate H]).
  assert (N : nth_error
                (fst (App.handleAll App.init
                        (combine [2010; 2510; 3010; 3510; 4010]
                           (beats (fst (run init Scenario.steady)))))) 3
              = Some (Some (BeatCounterState.mk 4 1 false true)))
    by (vm_compute; reflexivity).
  split; [exact L|]. split; [exact D|]. split; [exact T|].
  split; [exact N|].
  pose proof (display_follows_detector_count Scenario.steady
                [2010; 2510; 3010; 3510; 4010] 3
                (Some (BeatCounterState.mk 4 1 false true))) as P.
  cbv zeta in P. exact (P L D T N).
Defined.

End MoreExamples.
